(** * 3D-Model-Generator-In-CAD: the generation pipeline and the viewer

    A shallow embedding of the TypeScript sources

    - [types.ts]                      (module [Types]),
    - [services/geminiService.ts]     (module [GeminiService]),
    - [App.tsx]                       (module [App]),
    - [components/Viewer3D.tsx]       (module [Viewer3D]),

    with the pieces of the language that they rest on (strings as
    sequences of UTF-16 code units in [JS], the regular expressions of
    the service in [RegExp], a reference [JSON.parse] in [JSON]),
    followed by the properties of the specification that concern them.

    Numbers.  A JavaScript [number] is an IEEE-754 double.  The geometry
    code is embedded twice.  [GeminiService] reads its numbers as exact
    rationals [Q], with [==] ([Qeq]) as the equality of numbers: this is
    the arithmetic that the code is written for, and the statements that
    do not depend on rounding, or that are worded for exact numbers, are
    made there.  [Binary64] is the same
    code on the IEEE 754 binary64 values of the Standard Library
    ([spec_float], operations rounding to nearest even), with [NaN], the
    infinities and the signed zeros; the statements that rounding or
    overflow can break are made there.  A run on doubles in which no
    operation rounds or overflows computes the doubles that stand for
    the result on exact numbers ([Binary64Facts.normalize_approx]). *)

From Stdlib Require Import QArith Qpower Qminmax Qround Lqa ZArith NArith Lia List Ascii String SpecFloat.
From stdpp Require Import base list.

Set Warnings "-register-all".

(* ===================================================================== *)
(** * Part I: the program                                                  *)
(* ===================================================================== *)

(** ** types.ts *)

Module Types.

Inductive ShapeType : Set :=
| BOX | SPHERE | CYLINDER | CONE | TORUS | ICOSAHEDRON.

(** [[number, number, number]] *)
Definition vec3 : Type := (Q * Q * Q)%type.

Record ModelPart : Type := mkPart {
  id : string;
  type : ShapeType;
  position : vec3;
  rotation : vec3;
  scale : vec3;
  args : option (list Q);        (* [args?: number[]] *)
  color : string;
  description : string
}.

Record GeneratedModel : Type := mkModel {
  name : string;
  parts : list ModelPart
}.

End Types.

(** ** JavaScript values used by the service *)

Module JS.

(** A string is a sequence of UTF-16 code units. *)
Definition jsstring : Type := list N.

(** The code units of an ASCII string. *)
Definition ofAscii (s : string) : jsstring :=
  map N_of_ascii (list_ascii_of_string s).

(** A call that returns a value or throws [new Error(message)]; also a
    promise that is fulfilled or rejected, as [await] sees it. *)
Inductive Outcome (A : Type) : Type :=
| Returned (value : A)
| Thrown (message : string).
Arguments Returned {A} value.
Arguments Thrown {A} message.

(** One call of [console.error(label, text)]. *)
Record ConsoleError : Type := mkConsoleError {
  label : string;
  logged : jsstring
}.

(** [String.prototype.indexOf] for a one-character needle: the first
    index, or -1. *)
Fixpoint indexOf (s : jsstring) (c : N) : Z :=
  match s with
  | [] => -1
  | x :: s' =>
      if (x =? c)%N then 0
      else let i := indexOf s' c in if (i =? -1)%Z then -1 else (i + 1)%Z
  end.

(** [String.prototype.lastIndexOf] for a one-character needle. *)
Fixpoint lastIndexOf (s : jsstring) (c : N) : Z :=
  match s with
  | [] => -1
  | x :: s' =>
      let i := lastIndexOf s' c in
      if (i =? -1)%Z then (if (x =? c)%N then 0 else -1)%Z else (i + 1)%Z
  end.

(** [String.prototype.substring(start, end)]: both indices are clamped
    to [0, length] and swapped when out of order. *)
Definition substring (s : jsstring) (start end_ : Z) : jsstring :=
  let len := Z.of_nat (length s) in
  let clamp i := Z.min (Z.max i 0) len in
  let lo := Z.min (clamp start) (clamp end_) in
  let hi := Z.max (clamp start) (clamp end_) in
  take (Z.to_nat (hi - lo)) (drop (Z.to_nat lo) s).

End JS.

(** ** Regular expressions

    A backtracking matcher for the fragment of the regular-expression
    language that the two literals of [cleanAndParseJSON] use: literal
    characters, classes, concatenation, a greedy optional group, a greedy
    and a lazy star over a class, and one capture group. *)

Module RegExp.
Import JS.

Inductive regex : Type :=
| Chr (c : N)                    (* a literal character *)
| Cls (p : N -> bool)            (* a class *)
| Cat (r1 r2 : regex)
| Opt (r : regex)                (* [(?:r)?], greedy *)
| Star (p : N -> bool)           (* [c*], greedy *)
| StarLazy (p : N -> bool)       (* [c*?], lazy *)
| Grp (r : regex).               (* [(r)], capture group 1 *)

(** [\s]: WhiteSpace and LineTerminator of ECMAScript. *)
Definition isSpace (c : N) : bool :=
  ((9 <=? c) && (c <=? 13) || (c =? 32) || (c =? 160) || (c =? 5760) ||
   (8192 <=? c) && (c <=? 8202) || (c =? 8232) || (c =? 8233) || (c =? 8239) ||
   (c =? 8287) || (c =? 12288) || (c =? 65279))%N.

(** [[\s\S]] *)
Definition anyChar (c : N) : bool := isSpace c || negb (isSpace c).

(** Canonicalize of flag [i] (without flag [u]) on the ASCII range; a
    code unit above 127 never canonicalizes to an ASCII one, so against
    an ASCII pattern character this is the whole comparison. *)
Definition canonicalize (c : N) : N :=
  if ((97 <=? c) && (c <=? 122))%N then (c - 32)%N else c.

Definition sameChar (ignoreCase : bool) (x c : N) : bool :=
  if ignoreCase then (canonicalize x =? canonicalize c)%N else (x =? c)%N.

Section Matcher.
Context {R : Type}.

(** Greedy star: as many characters of the class as the rest of the
    pattern allows, the longest first. *)
Fixpoint starGreedy (p : N -> bool) (s : jsstring) (k : jsstring -> option R) : option R :=
  match s with
  | x :: s' =>
      if p x then
        match starGreedy p s' k with
        | Some r => Some r
        | None => k s
        end
      else k s
  | [] => k s
  end.

(** Lazy star: the shortest first. *)
Fixpoint starLazy (p : N -> bool) (s : jsstring) (k : jsstring -> option R) : option R :=
  match k s with
  | Some r => Some r
  | None =>
      match s with
      | x :: s' => if p x then starLazy p s' k else None
      | [] => None
      end
  end.

(** [run r s cap k]: match [r] at the head of [s], then continue with
    [k] on what is left; [cap] is the capture so far.  A failure of the
    continuation makes the matcher try its next alternative. *)
Fixpoint run (ignoreCase : bool) (r : regex) (s : jsstring) (cap : option jsstring)
    (k : jsstring -> option jsstring -> option R) : option R :=
  match r with
  | Chr c =>
      match s with
      | x :: s' => if sameChar ignoreCase x c then k s' cap else None
      | [] => None
      end
  | Cls p =>
      match s with
      | x :: s' => if p x then k s' cap else None
      | [] => None
      end
  | Cat r1 r2 => run ignoreCase r1 s cap (fun s' cap' => run ignoreCase r2 s' cap' k)
  | Opt r1 =>
      match run ignoreCase r1 s cap k with
      | Some res => Some res
      | None => k s cap
      end
  | Star p => starGreedy p s (fun s' => k s' cap)
  | StarLazy p => starLazy p s (fun s' => k s' cap)
  | Grp r1 =>
      run ignoreCase r1 s cap
        (fun s' _ => k s' (Some (take (length s - length s') s)))
  end.

End Matcher.

(** A match at the head of [s]: what follows the match, and [$1]. *)
Definition matchHere (ignoreCase : bool) (r : regex) (s : jsstring)
  : option (jsstring * option jsstring) :=
  run ignoreCase r s None (fun rest cap => Some (rest, cap)).

(** [s.match(r)] without flag [g]: the leftmost match; the result is its
    [$1] ([match[1]]). *)
Fixpoint firstMatch (ignoreCase : bool) (r : regex) (s : jsstring) : option (option jsstring) :=
  match matchHere ignoreCase r s with
  | Some (_, cap) => Some cap
  | None =>
      match s with
      | [] => None
      | _ :: s' => firstMatch ignoreCase r s'
      end
  end.

(** [s.replace(r, '$1')] with flag [g]: every match, left to right and
    without overlap, is replaced by its [$1].  [inside] counts the
    characters of the current match that are still to be skipped. *)
Fixpoint replaceAll (ignoreCase : bool) (r : regex) (s : jsstring) (inside : nat) : jsstring :=
  match s with
  | [] =>
      match matchHere ignoreCase r [] with
      | Some (_, cap) => default [] cap
      | None => []
      end
  | x :: s' =>
      match inside with
      | S n => replaceAll ignoreCase r s' n
      | O =>
          match matchHere ignoreCase r s with
          | Some (rest, cap) =>
              if (length rest <? length s)%nat
              then default [] cap ++ replaceAll ignoreCase r s' (length s' - length rest)
              else default [] cap ++ x :: replaceAll ignoreCase r s' 0   (* empty match *)
          | None => x :: replaceAll ignoreCase r s' 0
          end
      end
  end.

End RegExp.

(** ** [JSON.parse]

    [JSON.parse] is a built-in of the language, not code of this
    repository.  [cleanAndParseJSON] below takes the parser as a
    parameter, and what is proved about it holds for every parser.  The
    reference parser of this module follows the JSON grammar of ECMA-404
    and serves to run the examples; a number is kept as the exact value
    of its literal. *)

Module JSON.
Import JS.
Local Open Scope N_scope.

Inductive value : Type :=
| JNull
| JBool (b : bool)
| JNumber (q : Q)
| JString (s : jsstring)
| JArray (items : list value)
| JObject (members : list (jsstring * value)).

Definition isWs (c : N) : bool :=
  (c =? 9) || (c =? 10) || (c =? 13) || (c =? 32).

Fixpoint skipWs (s : jsstring) : jsstring :=
  match s with
  | x :: s' => if isWs x then skipWs s' else s
  | [] => []
  end.

Definition isDigit (c : N) : bool := (48 <=? c) && (c <=? 57).

Definition hexValue (c : N) : option N :=
  if isDigit c then Some (c - 48)
  else if (97 <=? c) && (c <=? 102) then Some (c - 87)
  else if (65 <=? c) && (c <=? 70) then Some (c - 55)
  else None.

(** The characters of a string literal after its opening quote. *)
Fixpoint stringBody (s acc : jsstring) : option (jsstring * jsstring) :=
  match s with
  | [] => None
  | x :: r =>
      if x =? 34 then Some (rev acc, r)
      else if x =? 92 then
        match r with
        | [] => None
        | e :: r1 =>
            if e =? 117 then
              match r1 with
              | h1 :: h2 :: h3 :: h4 :: r2 =>
                  match hexValue h1, hexValue h2, hexValue h3, hexValue h4 with
                  | Some a, Some b, Some c, Some d =>
                      stringBody r2 ((((a * 16 + b) * 16 + c) * 16 + d) :: acc)
                  | _, _, _, _ => None
                  end
              | _ => None
              end
            else
              let simple (u : N) := stringBody r1 (u :: acc) in
              if e =? 34 then simple 34
              else if e =? 92 then simple 92
              else if e =? 47 then simple 47
              else if e =? 98 then simple 8
              else if e =? 102 then simple 12
              else if e =? 110 then simple 10
              else if e =? 114 then simple 13
              else if e =? 116 then simple 9
              else None
        end
      else if x <? 32 then None
      else stringBody r (x :: acc)
  end.

Fixpoint takeDigits (s : jsstring) : list N * jsstring :=
  match s with
  | x :: r =>
      if isDigit x then let '(ds, rest) := takeDigits r in (x :: ds, rest)
      else ([], s)
  | [] => ([], [])
  end.

Definition digitsValue (ds : list N) : Z :=
  fold_left (fun a d => (a * 10 + Z.of_N (d - 48))%Z) ds 0%Z.

(** A number literal: [-? int frac? exp?]. *)
Definition numberLiteral (s : jsstring) : option (Q * jsstring) :=
  let '(negative, s1) :=
    match s with
    | x :: r => if x =? 45 then (true, r) else (false, s)
    | [] => (false, s)
    end in
  let '(int, s2) := takeDigits s1 in
  match int with
  | [] => None
  | d :: more =>
      if (d =? 48) && negb (Nat.eqb (length more) 0) then None else
      let fraction :=
        match s2 with
        | x :: r =>
            if x =? 46 then
              let '(fs, rest) := takeDigits r in
              match fs with [] => None | _ => Some (fs, rest) end
            else Some ([], s2)
        | [] => Some ([], s2)
        end in
      match fraction with
      | None => None
      | Some (fs, s3) =>
          let exponent :=
            match s3 with
            | x :: r =>
                if (x =? 101) || (x =? 69) then
                  let '(minus, r1) :=
                    match r with
                    | y :: r' =>
                        if y =? 45 then (true, r')
                        else if y =? 43 then (false, r')
                        else (false, r)
                    | [] => (false, r)
                    end in
                  let '(es, rest) := takeDigits r1 in
                  match es with
                  | [] => None
                  | _ => Some ((if minus then - digitsValue es else digitsValue es)%Z, rest)
                  end
                else Some (0%Z, s3)
            | [] => Some (0%Z, s3)
            end in
          match exponent with
          | None => None
          | Some (e, s4) =>
              let mantissa := digitsValue (int ++ fs) in
              let shift := (e - Z.of_nat (length fs))%Z in
              let magnitude :=
                if (0 <=? shift)%Z then inject_Z (mantissa * 10 ^ shift)
                else (inject_Z mantissa / inject_Z (10 ^ (- shift)))%Q in
              Some (if negative then (- magnitude)%Q else magnitude, s4)
          end
      end
  end.

(** [s] begins with the ASCII word [w]; what follows it. *)
Fixpoint afterWord (w s : jsstring) : option jsstring :=
  match w, s with
  | [], _ => Some s
  | a :: w', x :: s' => if x =? a then afterWord w' s' else None
  | _ :: _, [] => None
  end.

Fixpoint parseValue (fuel : nat) (s : jsstring) : option (value * jsstring) :=
  match fuel with
  | O => None
  | S f =>
      match skipWs s with
      | [] => None
      | c :: r =>
          if c =? 123 then
            match skipWs r with
            | y :: r' => if y =? 125 then Some (JObject [], r') else parseMembers f (y :: r') []
            | [] => None
            end
          else if c =? 91 then
            match skipWs r with
            | y :: r' => if y =? 93 then Some (JArray [], r') else parseElements f (y :: r') []
            | [] => None
            end
          else if c =? 34 then
            match stringBody r [] with
            | Some (str, rest) => Some (JString str, rest)
            | None => None
            end
          else if c =? 116 then
            match afterWord (ofAscii "rue") r with
            | Some rest => Some (JBool true, rest) | None => None end
          else if c =? 102 then
            match afterWord (ofAscii "alse") r with
            | Some rest => Some (JBool false, rest) | None => None end
          else if c =? 110 then
            match afterWord (ofAscii "ull") r with
            | Some rest => Some (JNull, rest) | None => None end
          else
            match numberLiteral (c :: r) with
            | Some (q, rest) => Some (JNumber q, rest)
            | None => None
            end
      end
  end
with parseElements (fuel : nat) (s : jsstring) (acc : list value) : option (value * jsstring) :=
  match fuel with
  | O => None
  | S f =>
      match parseValue f s with
      | None => None
      | Some (v, rest) =>
          match skipWs rest with
          | x :: r =>
              if x =? 44 then parseElements f r (v :: acc)
              else if x =? 93 then Some (JArray (rev (v :: acc)), r)
              else None
          | [] => None
          end
      end
  end
with parseMembers (fuel : nat) (s : jsstring) (acc : list (jsstring * value))
  : option (value * jsstring) :=
  match fuel with
  | O => None
  | S f =>
      match skipWs s with
      | q :: r =>
          if q =? 34 then
            match stringBody r [] with
            | None => None
            | Some (key, rest) =>
                match skipWs rest with
                | colon :: r1 =>
                    if colon =? 58 then
                      match parseValue f r1 with
                      | None => None
                      | Some (v, rest1) =>
                          match skipWs rest1 with
                          | x :: r2 =>
                              if x =? 44 then parseMembers f r2 ((key, v) :: acc)
                              else if x =? 125 then Some (JObject (rev ((key, v) :: acc)), r2)
                              else None
                          | [] => None
                          end
                      end
                    else None
                | [] => None
                end
            end
          else None
      | [] => None
      end
  end.

(** [JSON.parse(text)]: one value, with nothing but white space around. *)
Definition parse (text : jsstring) : option value :=
  match parseValue (2 * length text + 2) text with
  | Some (v, rest) => match skipWs rest with [] => Some v | _ :: _ => None end
  | None => None
  end.

(** [v[key]] for an object made by [JSON.parse]: the last member of that
    name; [None] is [undefined]. *)
Fixpoint member (key : jsstring) (members : list (jsstring * value)) : option value :=
  match members with
  | [] => None
  | (k, v) :: rest =>
      match member key rest with
      | Some later => Some later
      | None => if decide (k = key) then Some v else None
      end
  end.

End JSON.

(** ** services/geminiService.ts: [normalizeModelData] *)

Module GeminiService.
Import Types JS RegExp.
Local Open Scope Q_scope.

(** [v || d] on a possibly [undefined] number: [undefined] and [0] are
    falsy (so is [NaN], which [Q] does not have). *)
Definition orElse (v : option Q) (d : Q) : Q :=
  match v with
  | Some q => if Qeq_bool q 0 then d else q
  | None => d
  end.

(** [part.args?.[i]] *)
Definition argAt (part : ModelPart) (i : nat) : option Q :=
  match args part with
  | Some l => l !! i
  | None => None
  end.

(** The [sizeX, sizeY, sizeZ] that the first [switch] of
    [normalizeModelData] estimates for one part (lines 139-164).  TORUS
    has no case of its own there and takes the [default:] branch. *)
Definition halfExtent (part : ModelPart) : vec3 :=
  let '(s0, s1, s2) := scale part in
  let sx := orElse (Some s0) 1 in
  let sy := orElse (Some s1) 1 in
  let sz := orElse (Some s2) 1 in
  match type part with
  | BOX => (sx / 2, sy / 2, sz / 2)
  | CYLINDER | CONE =>
      let h := orElse (argAt part 2) 1 in
      let r := Qmax (orElse (argAt part 0) 1) (orElse (argAt part 1) 1) in
      (r, h / 2, r)
  | SPHERE | ICOSAHEDRON =>
      let rad := orElse (argAt part 0) 1 in
      (rad, rad, rad)
  | TORUS => (sx, sy, sz)
  end.

(** The six accumulators [minX .. maxZ] once at least one part has been
    folded in. *)
Record Bounds : Type := mkBounds {
  minX : Q; maxX : Q;
  minY : Q; maxY : Q;
  minZ : Q; maxZ : Q
}.

(** One iteration of [model.parts.forEach] (lines 136-172).  [None] stands
    for the initial state [minX = minY = minZ = Infinity],
    [maxX = maxY = maxZ = -Infinity]; [Math.min(Infinity, v)] is [v] and
    [Math.max(-Infinity, v)] is [v]. *)
Definition accumulate (acc : option Bounds) (part : ModelPart) : option Bounds :=
  let '(x, y, z) := position part in
  let '(sizeX, sizeY, sizeZ) := halfExtent part in
  Some match acc with
       | None =>
           {| minX := x - sizeX; maxX := x + sizeX;
              minY := y - sizeY; maxY := y + sizeY;
              minZ := z - sizeZ; maxZ := z + sizeZ |}
       | Some b =>
           {| minX := Qmin (minX b) (x - sizeX); maxX := Qmax (maxX b) (x + sizeX);
              minY := Qmin (minY b) (y - sizeY); maxY := Qmax (maxY b) (y + sizeY);
              minZ := Qmin (minZ b) (z - sizeZ); maxZ := Qmax (maxZ b) (z + sizeZ) |}
       end.

Definition boundingBox (ps : list ModelPart) : option Bounds :=
  fold_left accumulate ps None.

(** Lines 174-177: [maxX - minX || 1] and so on, then [Math.max]. *)
Definition maxDimOf (b : Bounds) : Q :=
  let sizeX := orElse (Some (maxX b - minX b)) 1 in
  let sizeY := orElse (Some (maxY b - minY b)) 1 in
  let sizeZ := orElse (Some (maxZ b - minZ b)) 1 in
  Qmax (Qmax sizeX sizeY) sizeZ.

(** The "computed max bounding dimension" of a list of parts; [None] for
    the empty list, where the accumulators are still infinite. *)
Definition computedMaxDim (ps : list ModelPart) : option Q :=
  maxDimOf <$> boundingBox ps.

(** [a *= scaleFactor] *)
Definition times (scaleFactor : Q) (a : Q) : Q := a * scaleFactor.

(** The callback of [model.parts.map] (lines 186-230).
    [if (newArgs[i] !== undefined) newArgs[i] *= scaleFactor] is [alter]:
    it leaves a list that is too short alone. *)
Definition scalePart (scaleFactor : Q) (part : ModelPart) : ModelPart :=
  let '(p0, p1, p2) := position part in
  let newPos : vec3 := (p0 * scaleFactor, p1 * scaleFactor, p2 * scaleFactor) in
  let newArgs : list Q := default [] (args part) in
  let newScale : vec3 := scale part in
  let '(newArgs, newScale) :=
    match type part with
    | BOX =>
        let '(s0, s1, s2) := newScale in
        (newArgs, (s0 * scaleFactor, s1 * scaleFactor, s2 * scaleFactor))
    | CYLINDER | CONE =>
        (alter (times scaleFactor) 2%nat
           (alter (times scaleFactor) 1%nat
              (alter (times scaleFactor) 0%nat newArgs)), newScale)
    | SPHERE | ICOSAHEDRON =>
        (alter (times scaleFactor) 0%nat newArgs, newScale)
    | TORUS =>
        (alter (times scaleFactor) 1%nat
           (alter (times scaleFactor) 0%nat newArgs), newScale)
    end in
  {| id := id part;
     type := type part;
     position := newPos;
     rotation := rotation part;
     scale := newScale;
     args := Some newArgs;
     color := color part;
     description := description part |}.

(** What [normalizeModelData] does with its argument: it hands it back as
    it is (one of the two early [return model]), or it divides [8] by
    [maxDim] and maps [scalePart] over the parts. *)
Inductive Path : Type :=
| ReturnedAsIs
| Rescaled (maxDim : Q).

(** The accumulators are still infinite after the loop exactly when
    there is no part, which is the guard [model.parts.length === 0] of
    line 130 ([parts] itself is never absent in a [GeneratedModel]). *)
Definition normalizePath (model : GeneratedModel) : Path :=
  match boundingBox (parts model) with
  | None => ReturnedAsIs                       (* [model.parts.length === 0] *)
  | Some b =>
      let maxDim := maxDimOf b in
      if Qeq_bool maxDim 0 then ReturnedAsIs   (* [maxDim === 0] *)
      else Rescaled maxDim
  end.

Definition normalizeModelData (model : GeneratedModel) : GeneratedModel :=
  match normalizePath model with
  | ReturnedAsIs => model
  | Rescaled maxDim =>
      let scaleFactor := 8 / maxDim in
      {| name := name model;
         parts := map (scalePart scaleFactor) (parts model) |}
  end.

(** ** services/geminiService.ts: [cleanAndParseJSON], [generate3DModel] *)

(** Line 242: [/```(?:json)?\s*(\{[\s\S]*?\})\s*```/i]. *)
Definition codeBlockRegex : regex :=
  let backtick := Chr 96 in
  let fence := Cat backtick (Cat backtick backtick) in
  let json := Cat (Chr 106) (Cat (Chr 115) (Cat (Chr 111) (Chr 110))) in
  Cat fence
   (Cat (Opt json)
     (Cat (Star isSpace)
       (Cat (Grp (Cat (Chr 123) (Cat (StarLazy anyChar) (Chr 125))))
         (Cat (Star isSpace) fence)))).

(** [[}\]]] *)
Definition isClosing (c : N) : bool := ((c =? 125) || (c =? 93))%N.

(** Line 257: [/,(\s*[}\]])/g]. *)
Definition trailingCommaRegex : regex :=
  Cat (Chr 44) (Grp (Cat (Star isSpace) (Cls isClosing))).

(** Lines 239-253: the text that is to be parsed, before the cleanup.
    [match[1]] is always defined when the expression matches, because
    the group is not optional. *)
Definition extractText (text : jsstring) : jsstring :=
  match firstMatch true codeBlockRegex text with
  | Some group1 => default [] group1
  | None =>
      let firstOpen := indexOf text 123 in
      let lastClose := lastIndexOf text 125 in
      if negb (firstOpen =? -1)%Z && negb (lastClose =? -1)%Z && (lastClose >? firstOpen)%Z
      then substring text firstOpen (lastClose + 1)
      else text
  end.

(** Line 257: [cleanText.replace(/,(\s*[}\]])/g, '$1')]. *)
Definition removeTrailingCommas (cleanText : jsstring) : jsstring :=
  replaceAll false trailingCommaRegex cleanText 0.

Definition cleanedText (text : jsstring) : jsstring :=
  removeTrailingCommas (extractText text).

Definition interpretationMessage : string :=
  "Could not interpret the model data. The design was too abstract.".

Section Parsing.
(** [JSON.parse(cleanText) as GeneratedModel]: the parser returns a value
    of a type [T] that the function never looks into (the cast is not
    checked), or fails. *)
Context {T : Type} (JSON_parse : jsstring -> option T).

(** Lines 238-266, with what the function writes to the console. *)
Definition cleanAndParseJSON (text : jsstring) : Outcome T * list ConsoleError :=
  let cleanText := cleanedText text in
  match JSON_parse cleanText with
  | Some data => (Returned data, [])
  | None =>
      (Thrown interpretationMessage,
       [ mkConsoleError "JSON Parse Error. Raw Text:" text;
         mkConsoleError "Cleaned Text:" cleanText ])
  end.

End Parsing.

(** Lines 309-324 of [generate3DModel]: from the text of the response to
    the promise that the caller awaits.  The [catch] block logs the error
    and throws it again. *)
Definition generate3DModel_onResponse
    (JSON_parse : jsstring -> option GeneratedModel) (text : option jsstring)
  : Outcome GeneratedModel :=
  match text with
  | None | Some [] => Thrown "No response from Gemini."
  | Some text =>
      match fst (cleanAndParseJSON JSON_parse text) with
      | Thrown message => Thrown message
      | Returned data => Returned (normalizeModelData data)
      end
  end.

(** Line 130 on a value that [JSON.parse] made: the guard
    [!model.parts || model.parts.length === 0] of [normalizeModelData],
    before any typed reading of the model. *)
Inductive Guard : Type :=
| ThrowsTypeError          (* [model.parts] on [null] *)
| ReturnsModel             (* the early [return model] *)
| Proceeds.

Definition falsy (v : option JSON.value) : bool :=
  match v with
  | None | Some JSON.JNull | Some (JSON.JBool false) | Some (JSON.JString []) => true
  | Some (JSON.JNumber q) => Qeq_bool q 0
  | Some _ => false
  end.

Definition partsGuard (model : JSON.value) : Guard :=
  match model with
  | JSON.JNull => ThrowsTypeError
  | JSON.JObject members =>
      let parts := JSON.member (ofAscii "parts") members in
      if falsy parts then ReturnsModel
      else match parts with
           | Some (JSON.JArray []) => ReturnsModel
           | Some (JSON.JObject inner) =>
               match JSON.member (ofAscii "length") inner with
               | Some (JSON.JNumber q) => if Qeq_bool q 0 then ReturnsModel else Proceeds
               | _ => Proceeds
               end
           | _ => Proceeds
           end
  | _ => ReturnsModel        (* a number, string, boolean or array has no [parts] *)
  end.

End GeminiService.

(** ** services/geminiService.ts: [normalizeModelData] on doubles *)

(** [GeminiService] above reads the numbers of [normalizeModelData] as
    exact rationals.  A JavaScript number is an IEEE 754 binary64 value:
    this module is the same function on [spec_float], the IEEE 754
    values of the Standard Library, with the operations rounding to
    nearest even at precision 53.  The two agree on a run in which no
    operation rounds or overflows. *)
Module Binary64.
Local Open Scope Z_scope.

Definition prec : Z := 53.
Definition emax : Z := 1024.

Definition number : Type := spec_float.

Definition NaN : number := S754_nan.
Definition Infinity : number := S754_infinity false.
Definition minusInfinity : number := S754_infinity true.

(** A numeric literal with an integer value. *)
Definition ofZ (z : Z) : number := binary_normalize prec emax z 0 false.

Definition one : number := Eval vm_compute in ofZ 1.
Definition two : number := Eval vm_compute in ofZ 2.
Definition eight : number := Eval vm_compute in ofZ 8.

(** [+], [-], [*], [/] *)
Definition add : number -> number -> number := SFadd prec emax.
Definition sub : number -> number -> number := SFsub prec emax.
Definition mul : number -> number -> number := SFmul prec emax.
Definition div : number -> number -> number := SFdiv prec emax.

(** The real number that a zero or a finite double stands for. *)
Definition valueOf (x : number) : option Q :=
  match x with
  | S754_zero _ => Some 0%Q
  | S754_finite s m e =>
      Some ((if s then -1 else 1) * inject_Z (Z.pos m) * 2 ^ e)%Q
  | S754_infinity _ | S754_nan => None
  end.

(** The order of two numbers: [None] when one of them is [NaN]; the
    infinities lie beyond every finite number, which compare by value. *)
Definition compare (x y : number) : option comparison :=
  match x, y with
  | S754_nan, _ | _, S754_nan => None
  | S754_infinity sx, S754_infinity sy =>
      Some (if sx then if sy then Eq else Lt else if sy then Gt else Eq)
  | S754_infinity sx, _ => Some (if sx then Lt else Gt)
  | _, S754_infinity sy => Some (if sy then Gt else Lt)
  | _, _ =>
      match valueOf x, valueOf y with
      | Some a, Some b => Some (a ?= b)%Q
      | _, _ => None
      end
  end.

(** [Math.max(a, b)]: [NaN] when an argument is [NaN]; [+0] is larger
    than [-0]. *)
Definition Math_max (a b : number) : number :=
  match compare a b with
  | None => NaN
  | Some Lt => b
  | Some Gt => a
  | Some Eq => match a with S754_zero true => b | _ => a end
  end.

(** [Math.min(a, b)] *)
Definition Math_min (a b : number) : number :=
  match compare a b with
  | None => NaN
  | Some Lt => a
  | Some Gt => b
  | Some Eq => match a with S754_zero false => b | _ => a end
  end.

(** A number is falsy when it is [+0], [-0] or [NaN]. *)
Definition falsy (x : number) : bool :=
  match x with
  | S754_zero _ | S754_nan => true
  | _ => false
  end.

(** [x === 0] *)
Definition strictEqZero (x : number) : bool :=
  match x with
  | S754_zero _ => true
  | _ => false
  end.

(** [v || d] on a possibly [undefined] number. *)
Definition orElse (v : option number) (d : number) : number :=
  match v with
  | Some x => if falsy x then d else x
  | None => d
  end.

Definition vec3 : Type := (number * number * number)%type.

Record ModelPart : Type := mkModelPart {
  id : string;
  type : Types.ShapeType;
  position : vec3;
  rotation : vec3;
  scale : vec3;
  args : option (list number);
  color : string;
  description : string
}.

Record GeneratedModel : Type := mkGeneratedModel {
  name : string;
  parts : list ModelPart
}.

(** [part.args?.[i]] *)
Definition argAt (part : ModelPart) (i : nat) : option number :=
  match args part with
  | Some l => l !! i
  | None => None
  end.

(** Lines 139-164. *)
Definition halfExtent (part : ModelPart) : vec3 :=
  let '(s0, s1, s2) := scale part in
  let sx := orElse (Some s0) one in
  let sy := orElse (Some s1) one in
  let sz := orElse (Some s2) one in
  match type part with
  | Types.BOX => (div sx two, div sy two, div sz two)
  | Types.CYLINDER | Types.CONE =>
      let h := orElse (argAt part 2) one in
      let r := Math_max (orElse (argAt part 0) one) (orElse (argAt part 1) one) in
      (r, div h two, r)
  | Types.SPHERE | Types.ICOSAHEDRON =>
      let rad := orElse (argAt part 0) one in
      (rad, rad, rad)
  | Types.TORUS => (sx, sy, sz)
  end.

Record Bounds : Type := mkBounds {
  minX : number; maxX : number;
  minY : number; maxY : number;
  minZ : number; maxZ : number
}.

(** Lines 132-133. *)
Definition start : Bounds :=
  {| minX := Infinity; maxX := minusInfinity;
     minY := Infinity; maxY := minusInfinity;
     minZ := Infinity; maxZ := minusInfinity |}.

(** One iteration of [model.parts.forEach] (lines 136-172). *)
Definition accumulate (acc : Bounds) (part : ModelPart) : Bounds :=
  let '(x, y, z) := position part in
  let '(sizeX, sizeY, sizeZ) := halfExtent part in
  {| minX := Math_min (minX acc) (sub x sizeX); maxX := Math_max (maxX acc) (add x sizeX);
     minY := Math_min (minY acc) (sub y sizeY); maxY := Math_max (maxY acc) (add y sizeY);
     minZ := Math_min (minZ acc) (sub z sizeZ); maxZ := Math_max (maxZ acc) (add z sizeZ) |}.

Definition boundingBox (ps : list ModelPart) : Bounds :=
  fold_left accumulate ps start.

(** Lines 174-177. *)
Definition maxDimOf (b : Bounds) : number :=
  let sizeX := orElse (Some (sub (maxX b) (minX b))) one in
  let sizeY := orElse (Some (sub (maxY b) (minY b))) one in
  let sizeZ := orElse (Some (sub (maxZ b) (minZ b))) one in
  Math_max (Math_max sizeX sizeY) sizeZ.

Definition computedMaxDim (ps : list ModelPart) : number :=
  maxDimOf (boundingBox ps).

(** [a *= scaleFactor] *)
Definition times (scaleFactor : number) (a : number) : number := mul a scaleFactor.

(** The callback of [model.parts.map] (lines 186-230). *)
Definition scalePart (scaleFactor : number) (part : ModelPart) : ModelPart :=
  let '(p0, p1, p2) := position part in
  let newPos : vec3 := (mul p0 scaleFactor, mul p1 scaleFactor, mul p2 scaleFactor) in
  let newArgs : list number := default [] (args part) in
  let newScale : vec3 := scale part in
  let '(newArgs, newScale) :=
    match type part with
    | Types.BOX =>
        let '(s0, s1, s2) := newScale in
        (newArgs, (times scaleFactor s0, times scaleFactor s1, times scaleFactor s2))
    | Types.CYLINDER | Types.CONE =>
        (alter (times scaleFactor) 2%nat
           (alter (times scaleFactor) 1%nat
              (alter (times scaleFactor) 0%nat newArgs)), newScale)
    | Types.SPHERE | Types.ICOSAHEDRON =>
        (alter (times scaleFactor) 0%nat newArgs, newScale)
    | Types.TORUS =>
        (alter (times scaleFactor) 1%nat
           (alter (times scaleFactor) 0%nat newArgs), newScale)
    end in
  {| id := id part;
     type := type part;
     position := newPos;
     rotation := rotation part;
     scale := newScale;
     args := Some newArgs;
     color := color part;
     description := description part |}.

(** Lines 129-233. *)
Definition normalizeModelData (model : GeneratedModel) : GeneratedModel :=
  match parts model with
  | [] => model                                 (* [model.parts.length === 0] *)
  | _ :: _ =>
      let maxDim := computedMaxDim (parts model) in
      if strictEqZero maxDim then model         (* [maxDim === 0] *)
      else
        let scaleFactor := div eight maxDim in
        {| name := name model;
           parts := map (scalePart scaleFactor) (parts model) |}
  end.

End Binary64.

(** ** App.tsx: the settled generation and the view commands *)

Module App.
Import Types JS.
Local Open Scope Z_scope.

Record GenerationState : Type := mkGenerationState {
  isGenerating : bool;
  progress : Z;
  status : string
}.

Inductive NotificationType : Set := error | success | info.

Record Notification : Type := mkNotification {
  ntype : NotificationType;
  message : string
}.

(** [{ mode, t }]: the view mode (any string) and [Date.now()].  [ref] is
    the identity of the object: React compares effect dependencies with
    [Object.is], and every [setViewState({...})] allocates a new object. *)
Record ViewState : Type := mkViewState {
  ref : nat;
  mode : string;
  t : Z
}.

Record AppState : Type := mkApp {
  model : option GeneratedModel;
  generationState : GenerationState;
  viewState : ViewState;
  notification : option Notification;
  buildingSpeed : Z;
  nextRef : nat                  (* the next fresh object identity *)
}.

(** Line 112: [generatedData.parts.length || 1]. *)
Definition partCountOf (generatedData : GeneratedModel) : Z :=
  let n := Z.of_nat (length (parts generatedData)) in
  if n =? 0 then 1 else n.

(** Line 113: [partCount === 1 ? 100 : Math.min(500, 2000 / partCount)]. *)
Definition speedOf (partCount : Z) : Q :=
  if partCount =? 1 then 100%Q
  else Qmin 500 (2000 / inject_Z partCount)%Q.

(** [handleGenerate] up to the [await] (lines 75-81).  The progress
    ticker of lines 83-104 rewrites only [progress] and [status] while
    the request is pending, and is cleared at both exits. *)
Definition handleGenerate_start (s : AppState) : AppState :=
  {| model := None;
     generationState := mkGenerationState true 0 "INITIALIZING GENERATOR...";
     viewState := viewState s;
     notification := None;
     buildingSpeed := buildingSpeed s;
     nextRef := nextRef s |}.

(** [handleGenerate] after the [await]: the [try] body on a fulfilled
    promise (lines 109-116, with [setBuildingSpeed(Math.floor(speed))]),
    the [catch] block on a rejected one (lines 122-131, where an empty
    [err.message] is replaced by "GENERATION FAILED"). *)
Definition handleGenerate_settle (r : Outcome GeneratedModel) (s : AppState) : AppState :=
  match r with
  | Returned generatedData =>
      let partCount := partCountOf generatedData in
      let speed := speedOf partCount in
      {| model := Some generatedData;
         generationState := mkGenerationState false 100 "RENDER COMPLETE";
         viewState := viewState s;
         notification := notification s;
         buildingSpeed := Qfloor speed;
         nextRef := nextRef s |}
  | Thrown msg =>
      {| model := model s;
         generationState := mkGenerationState false 0 "ERROR";
         viewState := viewState s;
         notification :=
           Some (mkNotification error
                   (if String.eqb msg "" then "GENERATION FAILED" else msg));
         buildingSpeed := buildingSpeed s;
         nextRef := nextRef s |}
  end.

Definition handleGenerate (r : Outcome GeneratedModel) (s : AppState) : AppState :=
  handleGenerate_settle r (handleGenerate_start s).

(** Lines 179-182: [setViewState({ mode: viewMode, t: Date.now() })];
    [now] is the reading of the clock. *)
Definition handleViewChange (viewMode : string) (now : Z) (s : AppState) : AppState :=
  {| model := model s;
     generationState := generationState s;
     viewState := {| ref := nextRef s; mode := viewMode; t := now |};
     notification := notification s;
     buildingSpeed := buildingSpeed s;
     nextRef := S (nextRef s) |}.

End App.

(** ** components/Viewer3D.tsx *)

Module Viewer3D.
Import Types.
Local Open Scope Z_scope.

(** *** [CameraController] *)

Definition Vector3 : Type := (Z * Z * Z)%type.

(** The camera position and the target of the orbit controls. *)
Record Camera : Type := mkCamera {
  cameraPosition : Vector3;
  target : Vector3
}.

Definition distance : Z := 15.

(** The [switch] of the effect (lines 32-49); any other string falls to
    [default:], which shares the body of ['ISO']. *)
Definition positionFor (mode : string) : Vector3 :=
  if String.eqb mode "TOP" then (0, distance, 0)
  else if String.eqb mode "BOTTOM" then (0, - distance, 0)
  else if String.eqb mode "FRONT" then (0, 0, distance)
  else if String.eqb mode "SIDE" then (distance, 0, 0)
  else (10, 10, 10).

(** The body of the effect (lines 27-52): nothing without controls. *)
Definition cameraEffect (controls : bool) (viewState : App.ViewState) (c : Camera) : Camera :=
  if controls then
    {| cameraPosition := positionFor (App.mode viewState); target := (0, 0, 0) |}
  else c.

(** The dependency [viewState] of the effect has changed between two
    renders when the two objects differ under [Object.is]. *)
Definition viewStateChanged (prev next : App.ViewState) : bool :=
  negb (App.ref prev =? App.ref next)%nat.

(** A render that follows a render with [prev]: the effect runs when the
    dependency has changed.  ([camera] and [controls] are the other two
    dependencies; they are stable once the canvas is mounted.) *)
Definition rerender (controls : bool) (prev next : App.ViewState) (c : Camera) : Camera :=
  if viewStateChanged prev next then cameraEffect controls next c else c.

(** *** [Viewer3D]: the progressive reveal *)

Record Viewer : Type := mkViewer {
  model : option GeneratedModel;
  visiblePartsCount : nat
}.

(** The render that receives a new [model] prop: the count is still the
    one of the previous model. *)
Definition receiveModel (m : option GeneratedModel) (v : Viewer) : Viewer :=
  {| model := m; visiblePartsCount := visiblePartsCount v |}.

(** First effect (lines 85-87), run after that render:
    [setVisiblePartsCount(0)]. *)
Definition resetEffect (v : Viewer) : Viewer :=
  {| model := model v; visiblePartsCount := 0 |}.

(** A model is assigned: the render, then the effect. *)
Definition assignModel (m : option GeneratedModel) (v : Viewer) : Viewer :=
  resetEffect (receiveModel m v).

(** Second effect (lines 89-97): a timeout of [buildingSpeed] is pending
    exactly when there is a model and
    [visiblePartsCount < model.parts.length]. *)
Definition timerPending (v : Viewer) : bool :=
  match model v with
  | None => false
  | Some m => (visiblePartsCount v <? length (parts m))%nat
  end.

(** The pending timeout fires: [setVisiblePartsCount(prev => prev + 1)].
    Without a pending timeout the passing of the delay changes nothing. *)
Definition elapse (v : Viewer) : Viewer :=
  if timerPending v
  then {| model := model v; visiblePartsCount := S (visiblePartsCount v) |}
  else v.

(** [n] build-speed delays in a row. *)
Fixpoint elapseN (n : nat) (v : Viewer) : Viewer :=
  match n with
  | O => v
  | S n' => elapseN n' (elapse v)
  end.

(** Line 122: [isVisible={index < visiblePartsCount}]. *)
Definition isVisible (index : nat) (v : Viewer) : bool :=
  (index <? visiblePartsCount v)%nat.

End Viewer3D.

(** ** App.tsx: the notification toast and its dismissal timers *)

Module AppNotifications.
Import Types JS.
Local Open Scope Z_scope.

(** The [notification] state together with the pending
    [setTimeout(() => setNotification(null), 3000)] callbacks, each by the
    time at which it is due. *)
Record Toast : Type := mkToast {
  current : option App.Notification;
  pending : list Z
}.

(** Lines 67-72: [showNotification(type, message)] at time [now]; every
    type but ['error'] arms a timer. *)
Definition showNotification (type : App.NotificationType) (message : string)
    (now : Z) (t : Toast) : Toast :=
  {| current := Some (App.mkNotification type message);
     pending :=
       match type with
       | App.error => pending t
       | _ => pending t ++ [now + 3000]
       end |}.

(** Time passes up to [now]: every timer that is due runs
    [setNotification(null)], whatever the notification then is. *)
Definition elapseTo (now : Z) (t : Toast) : Toast :=
  {| current :=
       if forallb (fun due => now <? due) (pending t) then current t else None;
     pending := List.filter (fun due => now <? due) (pending t) |}.

(** The close button of the toast (line 353) and the first statement of
    [handleGenerate] (line 75): [setNotification(null)]. *)
Definition dismiss (t : Toast) : Toast :=
  {| current := None; pending := pending t |}.

End AppNotifications.

(** ** components/InputPanel.tsx *)

Module InputPanel.
Import JS RegExp.

Fixpoint trimStart (s : jsstring) : jsstring :=
  match s with
  | x :: s' => if isSpace x then trimStart s' else s
  | [] => []
  end.

(** [String.prototype.trim]: white space and line terminators (the
    characters of [\s]) are removed from both ends. *)
Definition trim (s : jsstring) : jsstring :=
  rev (trimStart (rev (trimStart s))).

(** A string is truthy when it is not empty. *)
Definition truthy (s : jsstring) : bool :=
  match s with [] => false | _ :: _ => true end.

(** Lines 13-19: [handleSubmit] on the current [prompt]; the result is
    the argument of the call [onGenerate(prompt)], if it is made, and the
    new content of the field. *)
Definition handleSubmit (isGenerating : bool) (prompt : jsstring)
  : option jsstring * jsstring :=
  if truthy (trim prompt) && negb isGenerating
  then (Some prompt, [])
  else (None, prompt).

(** Line 52: [disabled={!prompt.trim() || generationState.isGenerating}]. *)
Definition buttonDisabled (isGenerating : bool) (prompt : jsstring) : bool :=
  negb (truthy (trim prompt)) || isGenerating.

End InputPanel.

(** ** components/Viewer3D.tsx: the reveal on a clock *)

Module RevealClock.
Import Types Viewer3D.
Local Open Scope Z_scope.

(** The viewer, the [buildingSpeed] prop, and the time at which the
    pending [setTimeout(..., buildingSpeed)] of the second effect is due.
    Rendering takes no time: an effect runs at the time of the state
    change that triggers it. *)
Record Clocked : Type := mkClocked {
  viewer : Viewer;
  buildingSpeed : Z;
  due : option Z
}.

(** The second effect (lines 89-97) run at time [now]. *)
Definition arm (now : Z) (v : Viewer) (speed : Z) : option Z :=
  if timerPending v then Some (now + speed) else None.

(** A model and its build speed arrive at time [now]. *)
Definition assignAt (now : Z) (m : option GeneratedModel) (speed : Z) (c : Clocked) : Clocked :=
  let v := assignModel m (viewer c) in
  {| viewer := v; buildingSpeed := speed; due := arm now v speed |}.

(** The pending timeout fires at the time it is due; the count changes,
    the effect is cleaned up and run again. *)
Definition fire (c : Clocked) : Clocked :=
  match due c with
  | Some d =>
      let v := elapse (viewer c) in
      {| viewer := v; buildingSpeed := buildingSpeed c; due := arm d v (buildingSpeed c) |}
  | None => c
  end.

(** Time passes up to [now]: the timeouts that are due fire one after the
    other.  No more than one timeout per part can fire. *)
Fixpoint fireDue (fuel : nat) (now : Z) (c : Clocked) : Clocked :=
  match fuel with
  | O => c
  | S fuel' =>
      match due c with
      | Some d => if d <=? now then fireDue fuel' now (fire c) else c
      | None => c
      end
  end.

Definition partsOf (v : Viewer) : nat :=
  match model v with Some m => length (parts m) | None => O end.

Definition advanceTo (now : Z) (c : Clocked) : Clocked :=
  fireDue (partsOf (viewer c) - visiblePartsCount (viewer c)) now c.

End RevealClock.

(** ** App.tsx: the progress ticker of [handleGenerate] *)

Module AppProgress.
Import App.
Local Open Scope Z_scope.

(** Lines 83-88: [steps]. *)
Definition steps : list (Z * string) :=
  [ (15, "ANALYZING REQUIREMENTS...");
    (35, "DECOMPOSING GEOMETRY...");
    (55, "CALCULATING DIMENSIONS...");
    (85, "ASSEMBLING PARTS...") ]%string.

(** The closure variable [stepIdx] and the [generationState]. *)
Record Ticker : Type := mkTicker {
  stepIdx : nat;
  state : GenerationState
}.


(** Lines 94-104: one run of the interval callback, every 600 ms while
    the request is pending. *)
Definition tick (k : Ticker) : Ticker :=
  match nth_error steps (stepIdx k) with
  | Some (pct, msg) =>
      {| stepIdx := S (stepIdx k);
         state := {| isGenerating := isGenerating (state k);
                     progress := pct;
                     status := msg |} |}
  | None => k
  end.

(** Lines 162-167: [handleClearScene].  It has no guard on
    [isGenerating] and leaves the interval running. *)
Definition handleClearScene (k : Ticker) : Ticker :=
  {| stepIdx := stepIdx k;
     state := mkGenerationState false 0 "IDLE" |}.

(** Lines 154-159: the delayed callback of an earlier [handleExportSTL],
    [setGenerationState(prev => ({ ...prev, status: prevStatus }))].
    ([handleExportSTL] itself returns at its guard while a request is
    pending, because [handleGenerate] has set the model to [null].) *)
Definition exportDone (prevStatus : string) (k : Ticker) : Ticker :=
  {| stepIdx := stepIdx k;
     state := {| isGenerating := isGenerating (state k);
                 progress := progress (state k);
                 status := prevStatus |} |}.

(** What can write [generationState] between the start of one request
    and its settlement, when no other request is started meanwhile. *)
Inductive Event : Type :=
| Tick
| ClearScene
| ExportDone (prevStatus : string).

Definition step (k : Ticker) (e : Event) : Ticker :=
  match e with
  | Tick => tick k
  | ClearScene => handleClearScene k
  | ExportDone prevStatus => exportDone prevStatus k
  end.

Definition run (events : list Event) (k : Ticker) : Ticker :=
  fold_left step events k.

End AppProgress.

(* ===================================================================== *)
(** * Part II: vocabulary of the statements                                *)
(* ===================================================================== *)

Module NormalizeSpec.
Import Types GeminiService.
Local Open Scope Q_scope.

(** Equality of models in exact arithmetic: numbers are compared with
    [==], and an absent [args] counts as the empty array (this is how
    every reader of the field, [part.args?.[i]] and [part.args || []],
    treats it). *)
Definition vec3_eq (a b : vec3) : Prop :=
  let '(a0, a1, a2) := a in
  let '(b0, b1, b2) := b in
  a0 == b0 /\ a1 == b1 /\ a2 == b2.

Definition part_eq (p q : ModelPart) : Prop :=
  id p = id q /\ type p = type q /\
  vec3_eq (position p) (position q) /\
  vec3_eq (rotation p) (rotation q) /\
  vec3_eq (scale p) (scale q) /\
  Forall2 Qeq (default [] (args p)) (default [] (args q)) /\
  color p = color q /\ description p = description q.

Definition model_eq (m n : GeneratedModel) : Prop :=
  name m = name n /\ Forall2 part_eq (parts m) (parts n).

Definition positive (q : Q) : bool := negb (Qle_bool q 0).

Definition positiveArg (p : ModelPart) (i : nat) : bool :=
  match argAt p i with
  | Some a => positive a
  | None => false
  end.

(** A part whose size the bounding-box pass reads from the very fields
    that the rescaling pass multiplies, all of them present and positive. *)
Definition wellDimensioned (p : ModelPart) : bool :=
  match type p with
  | BOX => let '(s0, s1, s2) := scale p in positive s0 && positive s1 && positive s2
  | SPHERE | ICOSAHEDRON => positiveArg p 0
  | CYLINDER | CONE => positiveArg p 0 && positiveArg p 1 && positiveArg p 2
  | TORUS => false
  end.

(** [q] is [p] after the per-kind rescaling by [k] that the specification
    describes, stated field by field and index by index. *)
Definition scaledAt (k : Q) (l l' : list Q) (i : nat) : Prop :=
  l' !! i = (fun a => a * k) <$> l !! i.

Definition keptAt (l l' : list Q) (i : nat) : Prop :=
  l' !! i = l !! i.

Definition scaledPerKind (k : Q) (p q : ModelPart) : Prop :=
  let a := default [] (args p) in
  let a' := default [] (args q) in
  id q = id p /\ type q = type p /\ rotation q = rotation p /\
  color q = color p /\ description q = description p /\
  position q = (let '(x, y, z) := position p in (x * k, y * k, z * k)) /\
  length a' = length a /\
  match type p with
  | BOX =>
      scale q = (let '(x, y, z) := scale p in (x * k, y * k, z * k)) /\ a' = a
  | SPHERE | ICOSAHEDRON =>
      scale q = scale p /\ scaledAt k a a' 0 /\
      (forall i, (1 <= i)%nat -> keptAt a a' i)
  | CYLINDER | CONE =>
      scale q = scale p /\
      scaledAt k a a' 0 /\ scaledAt k a a' 1 /\ scaledAt k a a' 2 /\
      (forall i, (3 <= i)%nat -> keptAt a a' i)
  | TORUS =>
      scale q = scale p /\
      scaledAt k a a' 0 /\ scaledAt k a a' 1 /\
      (forall i, (2 <= i)%nat -> keptAt a a' i)
  end.

Definition positive3 (v : vec3) : Prop :=
  let '(a, b, c) := v in 0 < a /\ 0 < b /\ 0 < c.

Definition scaled3 (k : Q) (v v' : vec3) : Prop :=
  let '(a, b, c) := v in
  let '(a', b', c') := v' in
  a' == a * k /\ b' == b * k /\ c' == c * k.

(** [b'] is [b] with every bound multiplied by [k]. *)
Definition scaledBounds (k : Q) (b b' : Bounds) : Prop :=
  minX b' == minX b * k /\ maxX b' == maxX b * k /\
  minY b' == minY b * k /\ maxY b' == maxY b * k /\
  minZ b' == minZ b * k /\ maxZ b' == maxZ b * k.

Definition positiveSpans (b : Bounds) : Prop :=
  minX b < maxX b /\ minY b < maxY b /\ minZ b < maxZ b.

(** The bounding invariant of the specification: the bounding box
    recomputed on the normalized model has maximum axis span 8. *)
Definition boundingInvariant (m : GeneratedModel) : Prop :=
  exists d, computedMaxDim (parts (normalizeModelData m)) = Some d /\ d == 8.

(** Normalizing a second time changes nothing. *)
Definition idempotentAt (m : GeneratedModel) : Prop :=
  model_eq (normalizeModelData (normalizeModelData m)) (normalizeModelData m).

(** Example inputs. *)
Definition origin : vec3 := (0, 0, 0).
Definition unit3 : vec3 := (1, 1, 1).

(** A sphere at x = 1 whose optional [args] is absent. *)
Definition bareSphere : GeneratedModel :=
  {| name := "Ball";
     parts := [ {| id := "part_01"; type := SPHERE; position := (1, 0, 0);
                   rotation := origin; scale := unit3; args := None;
                   color := "#FF0000"; description := "Ball" |} ] |}.

(** A 2 x 4 x 2 box next to a cylinder of radius 1 and height 6. *)
Definition boxAndPost : GeneratedModel :=
  {| name := "Post";
     parts := [ {| id := "part_01"; type := BOX; position := (0, 2, 0);
                   rotation := origin; scale := (2, 4, 2); args := Some [];
                   color := "#808080"; description := "Base" |};
                {| id := "part_02"; type := CYLINDER; position := (3, 3, 0);
                   rotation := origin; scale := unit3;
                   args := Some [1; 1; 6; 32];
                   color := "#404040"; description := "Post" |} ] |}.

(** A single 8 x 4 x 2 box centred at the origin. *)
Definition slab : GeneratedModel :=
  {| name := "Slab";
     parts := [ {| id := "part_01"; type := BOX; position := origin;
                   rotation := (0, 1 # 2, 0); scale := (8, 4, 2); args := None;
                   color := "#00FF00"; description := "Slab" |} ] |}.

(** A cone of base radius 1/2 and height 1 with a pointed top. *)
Definition pointedCone : GeneratedModel :=
  {| name := "Cone";
     parts := [ {| id := "part_01"; type := CONE; position := origin;
                   rotation := origin; scale := unit3;
                   args := Some [0; 1 # 2; 1; 32];
                   color := "#0000FF"; description := "Tip" |} ] |}.

(** A torus of ring radius 3 and tube radius 1. *)
Definition ring : GeneratedModel :=
  {| name := "Ring";
     parts := [ {| id := "part_01"; type := TORUS; position := origin;
                   rotation := origin; scale := unit3;
                   args := Some [3; 1; 16; 32];
                   color := "#FFFF00"; description := "Ring" |} ] |}.

Definition noParts : GeneratedModel := {| name := "Empty"; parts := [] |}.

End NormalizeSpec.

Module AppSpec.
Import Types App.
Local Open Scope Z_scope.

(** The build speed in the words of the specification:
    [partCount = max(1, parts.length)],
    [speed = partCount == 1 ? 100 : min(500, 2000 / partCount)]. *)
Definition specSpeed (generatedData : GeneratedModel) : Q :=
  let partCount := Z.max 1 (Z.of_nat (length (parts generatedData))) in
  if partCount =? 1 then 100%Q else Qmin 500 (2000 / inject_Z partCount)%Q.

(** The state before the first generation ([useState] initial values);
    [now] is the clock reading at mount. *)
Definition initialState (now : Z) : AppState :=
  {| model := None;
     generationState := mkGenerationState false 0 "IDLE";
     viewState := {| ref := 0; mode := "ISO"; t := now |};
     notification := None;
     buildingSpeed := 150;
     nextRef := 1 |}.

(** Object identities handed out so far are below [nextRef]. *)
Definition wellFormed (s : AppState) : Prop :=
  (ref (viewState s) < nextRef s)%nat.

Definition peg (i : nat) : ModelPart :=
  {| id := "peg"; type := CYLINDER; position := (inject_Z (Z.of_nat i), 0, 0)%Q;
     rotation := (0, 0, 0)%Q; scale := (1, 1, 1)%Q;
     args := Some [1; 1; 2; 32]%Q; color := "#CCCCCC"; description := "Peg" |}.

(** A model of [n] parts. *)
Definition pegs (n : nat) : GeneratedModel :=
  {| name := "Pegs"; parts := map peg (seq 0 n) |}.

End AppSpec.

Module Viewer3DSpec.
Import Viewer3D.
Local Open Scope Z_scope.

(** Square of the distance of a camera position from the origin. *)
Definition sqDistance (v : Vector3) : Z :=
  let '(x, y, z) := v in x * x + y * y + z * z.

(** The viewer before any model is assigned. *)
Definition emptyViewer : Viewer := {| model := None; visiblePartsCount := 0 |}.

(** The camera as the canvas creates it. *)
Definition initialCamera : Camera :=
  {| cameraPosition := (10, 10, 10); target := (0, 0, 0) |}.

End Viewer3DSpec.

Module ParseSpec.
Import Types JS RegExp GeminiService.
Local Open Scope N_scope.

(** Text literals of the examples: an apostrophe stands for the double
    quote and a tilde for a line feed. *)
Definition js (s : string) : jsstring :=
  map (fun a => let c := N_of_ascii a in
                if c =? 39 then 34 else if c =? 126 then 10 else c)
      (list_ascii_of_string s).

Definition without (c : N) (s : jsstring) : Prop := Forall (fun x => x <> c) s.

Definition allSpace (s : jsstring) : Prop := Forall (fun x => isSpace x = true) s.

(** The tag of a fence: nothing, or [json] in any case. *)
Definition fenceTag (tag : jsstring) : Prop :=
  tag = [] \/ map canonicalize tag = map canonicalize (ofAscii "json").

Definition fence : jsstring := [96; 96; 96].

(** After optional white space comes a closing [}] or []]. *)
Fixpoint closesNext (s : jsstring) : bool :=
  match s with
  | x :: s' => if isSpace x then closesNext s' else isClosing x
  | [] => false
  end.

(** The cleanup in the words of the specification: a comma goes when
    only white space separates it from a closing [}] or []]; every other
    character stays. *)
Fixpoint stripTrailingCommas (s : jsstring) : jsstring :=
  match s with
  | x :: s' =>
      if (x =? 44) && closesNext s' then stripTrailingCommas s'
      else x :: stripTrailingCommas s'
  | [] => []
  end.

(** Test 4 of the specification, with a part written out. *)
Definition fencedReply : jsstring :=
  js "Sure! ```json~{'name':'Cube','parts':[{'id':'part_01','type':'box','position':[0,0,0],'rotation':[0,0,0],'scale':[2,2,2],'color':'#FF0000','description':'Cube'}],}~```".

Definition cubeValue : JSON.value :=
  JSON.JObject
    [ (js "name", JSON.JString (js "Cube"));
      (js "parts",
       JSON.JArray
         [ JSON.JObject
             [ (js "id", JSON.JString (js "part_01"));
               (js "type", JSON.JString (js "box"));
               (js "position", JSON.JArray [JSON.JNumber 0; JSON.JNumber 0; JSON.JNumber 0]);
               (js "rotation", JSON.JArray [JSON.JNumber 0; JSON.JNumber 0; JSON.JNumber 0]);
               (js "scale", JSON.JArray [JSON.JNumber 2; JSON.JNumber 2; JSON.JNumber 2]);
               (js "color", JSON.JString (js "#FF0000"));
               (js "description", JSON.JString (js "Cube")) ] ]) ].

(** Test 5 of the specification. *)
Definition proseReply : jsstring :=
  js "Here is the result {'name':'X','parts':[]} thanks".

Definition xValue : JSON.value :=
  JSON.JObject [ (js "name", JSON.JString (js "X")); (js "parts", JSON.JArray []) ].

(** A reply without any brace. *)
Definition refusal : jsstring := js "I cannot design that.".

(** A parsed value read at the interface [GeneratedModel], for the
    examples that go on to [normalizeModelData]: the cast of the source
    checks nothing, and this reading is defined on the values that do
    have the declared shape. *)
Definition asText (s : jsstring) : string :=
  string_of_list_ascii (map ascii_of_N s).

Definition asNumber (v : JSON.value) : option Q :=
  match v with JSON.JNumber q => Some q | _ => None end.

Definition asString (v : JSON.value) : option string :=
  match v with JSON.JString s => Some (asText s) | _ => None end.

Definition asVec3 (v : JSON.value) : option vec3 :=
  match v with
  | JSON.JArray [JSON.JNumber a; JSON.JNumber b; JSON.JNumber c] => Some (a, b, c)
  | _ => None
  end.

Definition asShapeType (v : JSON.value) : option ShapeType :=
  match v with
  | JSON.JString s =>
      if decide (s = ofAscii "box") then Some BOX
      else if decide (s = ofAscii "sphere") then Some SPHERE
      else if decide (s = ofAscii "cylinder") then Some CYLINDER
      else if decide (s = ofAscii "cone") then Some CONE
      else if decide (s = ofAscii "torus") then Some TORUS
      else if decide (s = ofAscii "icosahedron") then Some ICOSAHEDRON
      else None
  | _ => None
  end.

Definition fieldOf (ms : list (jsstring * JSON.value)) (name : string) : option JSON.value :=
  JSON.member (ofAscii name) ms.

Definition asPart (v : JSON.value) : option ModelPart :=
  match v with
  | JSON.JObject ms =>
      i ← fieldOf ms "id" ≫= asString;
      t ← fieldOf ms "type" ≫= asShapeType;
      p ← fieldOf ms "position" ≫= asVec3;
      r ← fieldOf ms "rotation" ≫= asVec3;
      s ← fieldOf ms "scale" ≫= asVec3;
      a ← match fieldOf ms "args" with
          | None => Some None
          | Some (JSON.JArray items) => Some <$> mapM asNumber items
          | Some _ => None
          end;
      c ← fieldOf ms "color" ≫= asString;
      d ← fieldOf ms "description" ≫= asString;
      Some (mkPart i t p r s a c d)
  | _ => None
  end.

Definition asModel (v : JSON.value) : option GeneratedModel :=
  match v with
  | JSON.JObject ms =>
      n ← fieldOf ms "name" ≫= asString;
      ps ← match fieldOf ms "parts" with
           | Some (JSON.JArray items) => mapM asPart items
           | _ => None
           end;
      Some (mkModel n ps)
  | _ => None
  end.

(** The reference parser followed by that reading. *)
Definition parseModel (text : jsstring) : option GeneratedModel :=
  JSON.parse text ≫= asModel.

(** An object without [name] and without [parts]. *)
Definition untitled : JSON.value :=
  JSON.JObject [ (js "title", JSON.JString (js "no parts")) ].

End ParseSpec.

Module BoundsSpec.
Import Types GeminiService NormalizeSpec.
Local Open Scope Q_scope.

(** The interval that one part occupies on each axis, as the
    bounding-box pass reads it: [position - size] to [position + size]. *)
Definition lowest (p : ModelPart) : vec3 :=
  let '(x, y, z) := position p in
  let '(sx, sy, sz) := halfExtent p in
  (x - sx, y - sy, z - sz).

Definition highest (p : ModelPart) : vec3 :=
  let '(x, y, z) := position p in
  let '(sx, sy, sz) := halfExtent p in
  (x + sx, y + sy, z + sz).

Definition minCorner (b : Bounds) : vec3 := (minX b, minY b, minZ b).
Definition maxCorner (b : Bounds) : vec3 := (maxX b, maxY b, maxZ b).

(** Componentwise order on triples. *)
Definition le3 (a b : vec3) : Prop :=
  let '(a0, a1, a2) := a in
  let '(b0, b1, b2) := b in
  a0 <= b0 /\ a1 <= b1 /\ a2 <= b2.

(** The [i]-th coordinate (0, 1, 2). *)
Definition coord (i : nat) (v : vec3) : Q :=
  let '(v0, v1, v2) := v in
  match i with O => v0 | S O => v1 | _ => v2 end.

(** [b] contains the interval of [p] on every axis. *)
Definition encloses (b : Bounds) (p : ModelPart) : Prop :=
  le3 (minCorner b) (lowest p) /\ le3 (highest p) (maxCorner b).

(** Every face of [b] is touched by some part of [ps]. *)
Definition tight (b : Bounds) (ps : list ModelPart) : Prop :=
  forall i, (i < 3)%nat ->
    (exists p, p ∈ ps /\ coord i (minCorner b) == coord i (lowest p)) /\
    (exists p, p ∈ ps /\ coord i (maxCorner b) == coord i (highest p)).

(** No dimension that the normalizer reads is negative. *)
Definition nonnegative (p : ModelPart) : Prop :=
  (let '(s0, s1, s2) := scale p in 0 <= s0 /\ 0 <= s1 /\ 0 <= s2) /\
  Forall (fun a => 0 <= a) (default [] (args p)).

(** The same model written in another unit: every position and every
    shape dimension multiplied by [c]. *)
Definition inUnit (c : Q) (m : GeneratedModel) : GeneratedModel :=
  {| name := name m; parts := map (scalePart c) (parts m) |}.

(** Equality of two optional numbers in exact arithmetic. *)
Definition sameDim (a b : option Q) : Prop :=
  match a, b with
  | Some x, Some y => x == y
  | None, None => True
  | _, _ => False
  end.

(** A table: a top and two legs, in millimetres. *)
Definition tableMm : GeneratedModel :=
  {| name := "Table";
     parts := [ {| id := "top"; type := BOX; position := (0, 700, 0);
                   rotation := origin; scale := (1200, 40, 600); args := None;
                   color := "#8B4513"; description := "Top" |};
                {| id := "leg_l"; type := CYLINDER; position := (-500, 340, 0);
                   rotation := origin; scale := unit3; args := Some [25; 25; 680; 32];
                   color := "#8B4513"; description := "Leg" |};
                {| id := "leg_r"; type := CYLINDER; position := (500, 340, 0);
                   rotation := origin; scale := unit3; args := Some [25; 25; 680; 32];
                   color := "#8B4513"; description := "Leg" |} ] |}.

End BoundsSpec.

Module RegExpSpec.
Import JS RegExp GeminiService ParseSpec.
Local Open Scope N_scope.

(** The words of an expression: [matches ic r w] when [w] is a word that
    [r] can consume. *)
Inductive matches (ic : bool) : regex -> jsstring -> Prop :=
| matches_Chr c x : sameChar ic x c = true -> matches ic (Chr c) [x]
| matches_Cls p x : p x = true -> matches ic (Cls p) [x]
| matches_Cat r1 r2 w1 w2 :
    matches ic r1 w1 -> matches ic r2 w2 -> matches ic (Cat r1 r2) (w1 ++ w2)
| matches_Opt_none r : matches ic (Opt r) []
| matches_Opt_some r w : matches ic r w -> matches ic (Opt r) w
| matches_Star p w : Forall (fun x => p x = true) w -> matches ic (Star p) w
| matches_StarLazy p w : Forall (fun x => p x = true) w -> matches ic (StarLazy p) w
| matches_Grp r w : matches ic r w -> matches ic (Grp r) w.

(** An expression without capture group. *)
Fixpoint groupless (r : regex) : bool :=
  match r with
  | Chr _ | Cls _ | Star _ | StarLazy _ => true
  | Cat r1 r2 => groupless r1 && groupless r2
  | Opt r1 => groupless r1
  | Grp _ => false
  end.

(** After optional white space comes a comma that only white space
    separates from a closing bracket. *)
Fixpoint trailingCommaNext (s : jsstring) : bool :=
  match s with
  | x :: s' => if isSpace x then trailingCommaNext s' else (x =? 44) && closesNext s'
  | [] => false
  end.

(** A comma that only white space separates from a closing bracket. *)
Definition trailingComma (s : jsstring) : Prop :=
  exists a b, s = a ++ 44 :: b /\ closesNext b = true.

(** The same, as a test. *)
Fixpoint hasTrailingComma (s : jsstring) : bool :=
  match s with
  | x :: s' => (x =? 44) && closesNext s' || hasTrailingComma s'
  | [] => false
  end.

(** Two commas that only white space separates, the second of them in
    front of a closing bracket. *)
Fixpoint hasDoubledTrailingComma (s : jsstring) : bool :=
  match s with
  | x :: s' => (x =? 44) && trailingCommaNext s' || hasDoubledTrailingComma s'
  | [] => false
  end.

Definition notComma (c : N) : Prop := c <> 44.

(** A well-formed reply: one object, no prose, no fence, pretty-printed. *)
Definition plainReply : jsstring :=
  js "{~  'name': 'X',~  'parts': []~}".


End RegExpSpec.

Module NotificationSpec.
Import App AppNotifications.
Local Open Scope Z_scope.

(** No notification and no timer: the toast when the application mounts. *)
Definition noToast : Toast := {| current := None; pending := [] |}.

(** Time passes in steps, to each of [ticks] in turn. *)
Definition elapseThrough (ticks : list Z) (t : Toast) : Toast :=
  fold_left (fun t' tick => elapseTo tick t') ticks t.

End NotificationSpec.

Module InputPanelSpec.
Import JS RegExp.

(** A character that [trim] does not remove. *)
Definition nonSpace (c : N) : bool := negb (isSpace c).

End InputPanelSpec.

Module RevealClockSpec.
Import Types Viewer3D RevealClock.
Local Open Scope Z_scope.

(** The reveal of [m] under way: [k] parts are visible and the second
    effect last ran at time [t]. *)
Definition running (m : GeneratedModel) (speed : Z) (k : nat) (t : Z) : Clocked :=
  let v := {| model := Some m; visiblePartsCount := k |} in
  {| viewer := v; buildingSpeed := speed; due := arm t v speed |}.

(** The viewer before any model is assigned, with the default
    [buildingSpeed = 100]. *)
Definition idle : Clocked :=
  {| viewer := Viewer3DSpec.emptyViewer; buildingSpeed := 100; due := None |}.

End RevealClockSpec.

Module GeometrySpec.
Import Types.
Local Open Scope Q_scope.

(** Two parts that differ at most in [id], [rotation], [color] and
    [description]. *)
Definition sameGeometry (p q : ModelPart) : Prop :=
  type p = type q /\ position p = position q /\
  scale p = scale q /\ args p = args q.

(** A beam of 10 by 1 by 1 along the x axis, and the same beam turned
    about the z axis. *)
Definition beam : GeneratedModel :=
  {| name := "Beam";
     parts := [ {| id := "part_01"; type := BOX; position := (0, 0, 0);
                   rotation := (0, 0, 0); scale := (10, 1, 1);
                   args := None; color := "#888888"; description := "Beam" |} ] |}.

Definition beamTurned : GeneratedModel :=
  {| name := "Beam";
     parts := [ {| id := "part_01"; type := BOX; position := (0, 0, 0);
                   rotation := (0, 0, 3 # 2); scale := (10, 1, 1);
                   args := None; color := "#FF0000"; description := "Beam, turned" |} ] |}.

End GeometrySpec.

Module ProgressSpec.
Import AppProgress.
Local Open Scope Z_scope.




End ProgressSpec.

Module Binary64Spec.
Import Binary64.
Local Open Scope Q_scope.

(** [x] is a zero or a finite double, and it stands for [q]. *)
Definition hasValue (x : number) (q : Q) : Prop :=
  exists v, valueOf x = Some v /\ v == q.

Definition exactly (r : number) (q : Q) : bool :=
  match valueOf r with
  | Some v => Qeq_bool v q
  | None => false
  end.

(** The operation [f] on the doubles [x] and [y] neither rounds nor
    overflows: its result stands for the result of [g], the operation on
    exact numbers, on the values of [x] and [y]. *)
Definition exact (f : number -> number -> number) (g : Q -> Q -> Q)
    (x y : number) : bool :=
  match valueOf x, valueOf y with
  | Some a, Some b => exactly (f x y) (g a b)
  | _, _ => false
  end.

(** The divisions by 2 of lines 148 and 155 are exact. *)
Definition exactHalves (part : ModelPart) : bool :=
  let '(s0, s1, s2) := scale part in
  match type part with
  | Types.BOX =>
      exact div Qdiv (orElse (Some s0) one) two &&
      exact div Qdiv (orElse (Some s1) one) two &&
      exact div Qdiv (orElse (Some s2) one) two
  | Types.CYLINDER | Types.CONE =>
      exact div Qdiv (orElse (argAt part 2) one) two
  | _ => true
  end.

(** The subtractions and additions of lines 166-171 are exact. *)
Definition exactSides (part : ModelPart) : bool :=
  let '(x, y, z) := position part in
  let '(sizeX, sizeY, sizeZ) := halfExtent part in
  exact sub Qminus x sizeX && exact add Qplus x sizeX &&
  exact sub Qminus y sizeY && exact add Qplus y sizeY &&
  exact sub Qminus z sizeZ && exact add Qplus z sizeZ.

(** The subtractions of lines 174-176 are exact. *)
Definition exactSpans (b : Bounds) : bool :=
  exact sub Qminus (maxX b) (minX b) &&
  exact sub Qminus (maxY b) (minY b) &&
  exact sub Qminus (maxZ b) (minZ b).

(** No operation of the bounding-box pass over [ps] rounds or overflows. *)
Definition exactBounds (ps : list ModelPart) : bool :=
  forallb (fun part => exactHalves part && exactSides part) ps &&
  exactSpans (boundingBox ps).

Definition exactTimes (scaleFactor : number) (a : number) : bool :=
  exact mul Qmult a scaleFactor.

Definition exactAt (scaleFactor : number) (l : list number) (i : nat) : bool :=
  match l !! i with
  | Some a => exactTimes scaleFactor a
  | None => true
  end.

(** The multiplications of lines 188-221 are exact. *)
Definition exactScale (scaleFactor : number) (part : ModelPart) : bool :=
  let '(p0, p1, p2) := position part in
  let '(s0, s1, s2) := scale part in
  let l := default [] (args part) in
  exactTimes scaleFactor p0 && exactTimes scaleFactor p1 && exactTimes scaleFactor p2 &&
  match type part with
  | Types.BOX =>
      exactTimes scaleFactor s0 && exactTimes scaleFactor s1 && exactTimes scaleFactor s2
  | Types.CYLINDER | Types.CONE =>
      exactAt scaleFactor l 0 && exactAt scaleFactor l 1 && exactAt scaleFactor l 2
  | Types.SPHERE | Types.ICOSAHEDRON => exactAt scaleFactor l 0
  | Types.TORUS => exactAt scaleFactor l 0 && exactAt scaleFactor l 1
  end.

(** No operation that leads to the scale factor rounds or overflows: the
    bounding-box pass and the division [8 / maxDim]. *)
Definition exactFactor (model : GeneratedModel) : bool :=
  exactBounds (parts model) &&
  exact div Qdiv eight (computedMaxDim (parts model)).

(** No operation of [normalizeModelData] on [model] rounds or overflows:
    the bounding-box pass, the division [8 / maxDim], the rescaling. *)
Definition exactRun (model : GeneratedModel) : bool :=
  exactFactor model &&
  forallb (exactScale (div eight (computedMaxDim (parts model)))) (parts model).

Definition finite (x : number) : bool :=
  match valueOf x with
  | Some _ => true
  | None => false
  end.

Definition finite3 (v : vec3) : bool :=
  let '(a, b, c) := v in finite a && finite b && finite c.

(** Every number of the position, the scale and the arguments is finite,
    as every number is that [JSON.parse] reads from a literal that does
    not overflow. *)
Definition finitePart (part : ModelPart) : bool :=
  finite3 (position part) && finite3 (scale part) &&
  forallb finite (default [] (args part)).

(** A finite double above zero. *)
Definition positive (x : number) : bool :=
  match x with
  | S754_finite false _ _ => true
  | _ => false
  end.

Definition positiveArg (part : ModelPart) (i : nat) : bool :=
  match argAt part i with
  | Some a => positive a
  | None => false
  end.

(** A part whose size the bounding-box pass reads from the very fields
    that the rescaling pass multiplies, all of them present and positive. *)
Definition wellDimensioned (part : ModelPart) : bool :=
  match type part with
  | Types.BOX =>
      let '(s0, s1, s2) := scale part in positive s0 && positive s1 && positive s2
  | Types.SPHERE | Types.ICOSAHEDRON => positiveArg part 0
  | Types.CYLINDER | Types.CONE =>
      positiveArg part 0 && positiveArg part 1 && positiveArg part 2
  | Types.TORUS => false
  end.

(** A zero or a finite double above zero. *)
Definition notNegative (x : number) : bool :=
  match x with
  | S754_zero _ | S754_finite false _ _ => true
  | _ => false
  end.

(** No dimension that the normalizer reads is negative. *)
Definition nonnegative (part : ModelPart) : bool :=
  let '(s0, s1, s2) := scale part in
  notNegative s0 && notNegative s1 && notNegative s2 &&
  forallb notNegative (default [] (args part)).

(** The same model written in another unit: every position and every
    shape dimension multiplied by [c]. *)
Definition inUnit (c : number) (model : GeneratedModel) : GeneratedModel :=
  {| name := name model; parts := map (scalePart c) (parts model) |}.

(** Two doubles that stand for the same number. *)
Definition sameValue (x y : number) : Prop :=
  exists v w, valueOf x = Some v /\ valueOf y = Some w /\ v == w.

Definition sameValue3 (a b : vec3) : Prop :=
  let '(a0, a1, a2) := a in
  let '(b0, b1, b2) := b in
  sameValue a0 b0 /\ sameValue a1 b1 /\ sameValue a2 b2.

(** Two parts of one type whose positions, scales and arguments stand
    for the same numbers. *)
Definition sameGeometry (p q : ModelPart) : Prop :=
  type p = type q /\
  sameValue3 (position p) (position q) /\
  sameValue3 (scale p) (scale q) /\
  Forall2 sameValue (default [] (args p)) (default [] (args q)).

(** The model on exact numbers that a model on doubles stands for; a
    number without a value is read as 0. *)
Definition exactValue (x : number) : Q := default 0 (valueOf x).

Definition exactVec3 (v : vec3) : Types.vec3 :=
  let '(a, b, c) := v in (exactValue a, exactValue b, exactValue c).

Definition exactPart (part : ModelPart) : Types.ModelPart :=
  {| Types.id := id part;
     Types.type := type part;
     Types.position := exactVec3 (position part);
     Types.rotation := exactVec3 (rotation part);
     Types.scale := exactVec3 (scale part);
     Types.args := map exactValue <$> args part;
     Types.color := color part;
     Types.description := description part |}.

Definition exactModel (model : GeneratedModel) : Types.GeneratedModel :=
  {| Types.name := name model;
     Types.parts := map exactPart (parts model) |}.

(** The numbers of a part on doubles stand for those of a part on exact
    numbers; an absent [args] counts as the empty array. *)
Definition approx3 (v : vec3) (w : Types.vec3) : Prop :=
  let '(a, b, c) := v in
  let '(a', b', c') := w in
  hasValue a a' /\ hasValue b b' /\ hasValue c c'.

Definition approxPart (p : ModelPart) (q : Types.ModelPart) : Prop :=
  type p = Types.type q /\
  approx3 (position p) (Types.position q) /\
  approx3 (scale p) (Types.scale q) /\
  Forall2 hasValue (default [] (args p)) (default [] (Types.args q)).

Definition approxBounds (b : Bounds) (c : GeminiService.Bounds) : Prop :=
  hasValue (minX b) (GeminiService.minX c) /\ hasValue (maxX b) (GeminiService.maxX c) /\
  hasValue (minY b) (GeminiService.minY c) /\ hasValue (maxY b) (GeminiService.maxY c) /\
  hasValue (minZ b) (GeminiService.minZ c) /\ hasValue (maxZ b) (GeminiService.maxZ c).

(** The accumulators: still infinite on both sides, or standing for. *)
Definition approxAcc (b : Bounds) (c : option GeminiService.Bounds) : Prop :=
  match c with
  | None => b = start
  | Some c' => approxBounds b c'
  end.

(** The half-extent and the maximum dimension in the words of the
    specification: "box: half of scale per axis; cylinder/cone:
    max(args[0], args[1]) as half-extent in x/z, args[2]/2 in y;
    sphere/icosahedron: args[0] as a uniform half-extent in all axes; any
    other kind: raw scale", with 1 for a missing argument, and "maxDim =
    the largest of the three axis spans". *)
Definition specHalfExtent (part : ModelPart) : vec3 :=
  let '(s0, s1, s2) := scale part in
  match type part with
  | Types.BOX => (div s0 two, div s1 two, div s2 two)
  | Types.CYLINDER | Types.CONE =>
      let r := Math_max (default one (argAt part 0)) (default one (argAt part 1)) in
      (r, div (default one (argAt part 2)) two, r)
  | Types.SPHERE | Types.ICOSAHEDRON =>
      let rad := default one (argAt part 0) in (rad, rad, rad)
  | Types.TORUS => (s0, s1, s2)
  end.

Definition specAccumulate (acc : Bounds) (part : ModelPart) : Bounds :=
  let '(x, y, z) := position part in
  let '(sizeX, sizeY, sizeZ) := specHalfExtent part in
  {| minX := Math_min (minX acc) (sub x sizeX); maxX := Math_max (maxX acc) (add x sizeX);
     minY := Math_min (minY acc) (sub y sizeY); maxY := Math_max (maxY acc) (add y sizeY);
     minZ := Math_min (minZ acc) (sub z sizeZ); maxZ := Math_max (maxZ acc) (add z sizeZ) |}.

Definition specMaxDim (ps : list ModelPart) : number :=
  let b := fold_left specAccumulate ps start in
  Math_max (Math_max (sub (maxX b) (minX b)) (sub (maxY b) (minY b)))
           (sub (maxZ b) (minZ b)).

(** Example inputs. *)
Definition zero : number := S754_zero false.
Definition origin : vec3 := (zero, zero, zero).
Definition unit3 : vec3 := (one, one, one).

(** A sphere at x = 1 whose optional [args] is absent. *)
Definition bareSphere : GeneratedModel :=
  {| name := "Ball";
     parts := [ {| id := "part_01"; type := Types.SPHERE; position := (one, zero, zero);
                   rotation := origin; scale := unit3; args := None;
                   color := "#FF0000"; description := "Ball" |} ] |}.




(** A box of scale [0, 0, 0] at (1, 2, 3). *)
Definition flatBox : GeneratedModel :=
  {| name := "Flat";
     parts := [ {| id := "part_01"; type := Types.BOX;
                   position := (one, two, ofZ 3);
                   rotation := origin; scale := origin; args := None;
                   color := "#808080"; description := "Flat" |} ] |}.

(** A 2 x 4 x 2 box next to a sphere of radius 1. *)
Definition boxAndBall : GeneratedModel :=
  {| name := "Corner";
     parts := [ {| id := "part_01"; type := Types.BOX; position := (zero, two, zero);
                   rotation := origin; scale := (two, ofZ 4, two); args := Some [];
                   color := "#808080"; description := "Base" |};
                {| id := "part_02"; type := Types.SPHERE; position := (two, one, zero);
                   rotation := origin; scale := unit3; args := Some [one];
                   color := "#404040"; description := "Ball" |} ] |}.

Definition noParts : GeneratedModel := {| name := "Empty"; parts := [] |}.

(** A binary64 value: the mantissa of a finite number has at most 53
    bits and is normalized for its exponent, which is in range. *)
Definition valid (x : number) : bool := valid_binary prec emax x.

Definition valid3 (v : vec3) : bool :=
  let '(a, b, c) := v in valid a && valid b && valid c.

Definition validPart (part : ModelPart) : bool :=
  valid3 (position part) && valid3 (scale part) &&
  forallb valid (default [] (args part)).

(** Two parts with the same fields, an absent [args] counting as the
    empty array. *)
Definition sameFields (p q : ModelPart) : Prop :=
  id p = id q /\ type p = type q /\
  position p = position q /\ rotation p = rotation q /\ scale p = scale q /\
  default [] (args p) = default [] (args q) /\
  color p = color q /\ description p = description q.

(** A single 8 x 4 x 2 box centred at the origin. *)
Definition slab : GeneratedModel :=
  {| name := "Slab";
     parts := [ {| id := "part_01"; type := Types.BOX; position := origin;
                   rotation := (zero, one, zero); scale := (eight, ofZ 4, two);
                   args := None; color := "#00FF00"; description := "Slab" |} ] |}.

End Binary64Spec.

(* ===================================================================== *)
(** * Part III: properties                                                 *)
(* ===================================================================== *)

Module NormalizeFacts.
Import Types GeminiService NormalizeSpec.
Local Open Scope Q_scope.
#[local] Arguments orElse : simpl never.

Lemma orElse_nonzero (v : option Q) (d : Q) : ~ d == 0 -> ~ orElse v d == 0.
Proof.
  intros Hd. unfold orElse. destruct v as [q|]; [|exact Hd].
  destruct (Qeq_bool q 0) eqn:E; [exact Hd|].
  now apply Qeq_bool_neq.
Qed.

Lemma orElse_Some_nonzero (q d : Q) : ~ q == 0 -> orElse (Some q) d = q.
Proof.
  intros Hq. unfold orElse. destruct (Qeq_bool q 0) eqn:E; [|reflexivity].
  apply Qeq_bool_iff in E. contradiction.
Qed.

Lemma Qmax_nonzero (a b : Q) : ~ a == 0 -> ~ b == 0 -> ~ Qmax a b == 0.
Proof.
  intros Ha Hb. destruct (Q.max_spec a b) as [[_ E]|[_ E]]; rewrite E; assumption.
Qed.

Lemma maxDimOf_nonzero (b : Bounds) : ~ maxDimOf b == 0.
Proof.
  unfold maxDimOf. repeat apply Qmax_nonzero; apply orElse_nonzero; lra.
Qed.

Lemma accumulate_Some acc p : exists b, accumulate acc p = Some b.
Proof.
  unfold accumulate. destruct (position p) as [[x y] z].
  destruct (halfExtent p) as [[sx sy] sz]. eauto.
Qed.

Lemma fold_accumulate_Some ps : forall b, exists b', fold_left accumulate ps (Some b) = Some b'.
Proof.
  induction ps as [|p ps IH]; intros b; simpl; [eauto|].
  destruct (accumulate_Some (Some b) p) as [b1 ->]. apply IH.
Qed.

Lemma boundingBox_None (ps : list ModelPart) : boundingBox ps = None <-> ps = [].
Proof.
  split; [|intros ->; reflexivity].
  destruct ps as [|p ps]; [reflexivity|]. unfold boundingBox. simpl.
  destruct (accumulate_Some None p) as [b ->].
  destruct (fold_accumulate_Some ps b) as [b' ->]. discriminate.
Qed.

Lemma normalizePath_nonempty (m : GeneratedModel) :
  parts m <> [] ->
  exists b, boundingBox (parts m) = Some b /\ normalizePath m = Rescaled (maxDimOf b).
Proof.
  intros Hne. unfold normalizePath.
  destruct (boundingBox (parts m)) as [b|] eqn:E.
  - exists b. split; [reflexivity|].
    destruct (Qeq_bool (maxDimOf b) 0) eqn:E0; [|reflexivity].
    apply Qeq_bool_iff in E0. now apply maxDimOf_nonzero in E0.
  - apply boundingBox_None in E. contradiction.
Qed.



(** ** Per-kind rescaling *)

Lemma scalePart_scaledPerKind (k : Q) (p : ModelPart) :
  scaledPerKind k p (scalePart k p).
Proof.
  destruct p as [i t [[x y] z] r [[s0 s1] s2] a c d].
  unfold scaledPerKind, scalePart, scaledAt, keptAt, times.
  destruct t; simpl; repeat split;
    rewrite ?length_alter; try reflexivity;
    try (intros j Hj);
    repeat first
      [ rewrite list_lookup_alter_eq
      | rewrite list_lookup_alter_ne by lia ];
    reflexivity.
Qed.

Lemma normalize_parts_lookup (m : GeneratedModel) (i : nat) (p : ModelPart) :
  parts m !! i = Some p ->
  exists b, boundingBox (parts m) = Some b /\
            parts (normalizeModelData m) !! i = Some (scalePart (8 / maxDimOf b) p).
Proof.
  intros Hp.
  assert (Hne : parts m <> []) by (intros E; rewrite E in Hp; discriminate).
  destruct (normalizePath_nonempty m Hne) as (b & Hb & Hpath).
  exists b. split; [exact Hb|].
  unfold normalizeModelData. rewrite Hpath. simpl.
  rewrite list_lookup_fmap, Hp. reflexivity.
Qed.

(** C7.  Every part of the input reaches the output at the same index,
    rescaled per kind by [scaleFactor = 8 / maxDim]: the position is
    multiplied; a box has its [scale] multiplied and its [args] kept; a
    sphere or icosahedron has [args[0]] multiplied and [scale] kept; a
    cylinder or cone has [args[0..2]] multiplied and every later entry
    (the segment count) kept; a torus has [args[0..1]] multiplied;
    [id], [type], [rotation], [color] and [description] are those of the
    input, as is the [name] of the model.  ([args] is read as
    [part.args || []], which is what the output stores.) *)
Theorem normalize_scales_per_kind (m : GeneratedModel) (i : nat) (p : ModelPart) :
  parts m !! i = Some p ->
  exists maxDim q,
    computedMaxDim (parts m) = Some maxDim /\
    parts (normalizeModelData m) !! i = Some q /\
    scaledPerKind (8 / maxDim) p q /\
    name (normalizeModelData m) = name m /\
    length (parts (normalizeModelData m)) = length (parts m).
Proof.
  intros Hp. destruct (normalize_parts_lookup m i p Hp) as (b & Hb & Hq).
  exists (maxDimOf b), (scalePart (8 / maxDimOf b) p).
  split; [unfold computedMaxDim; rewrite Hb; reflexivity|].
  split; [exact Hq|]. split; [apply scalePart_scaledPerKind|].
  unfold normalizeModelData.
  destruct (normalizePath m); simpl; rewrite ?length_map; split; reflexivity.
Qed.

Lemma normalize_scales_per_kind_witness :
  exists maxDim q,
    computedMaxDim (parts boxAndPost) = Some maxDim /\
    parts (normalizeModelData boxAndPost) !! 1%nat = Some q /\
    scaledPerKind (8 / maxDim) (mkPart "part_02" CYLINDER (3, 3, 0) origin unit3
                                   (Some [1; 1; 6; 32]) "#404040" "Post") q /\
    name (normalizeModelData boxAndPost) = name boxAndPost /\
    length (parts (normalizeModelData boxAndPost)) = length (parts boxAndPost).
Proof.
  apply (normalize_scales_per_kind boxAndPost 1%nat). reflexivity.
Defined.


(** ** The bounding box under a positive rescaling *)

Lemma positive_spec (q : Q) : positive q = true <-> 0 < q.
Proof.
  unfold positive. rewrite negb_true_iff. split.
  - intros E. apply Qnot_le_lt. intros H. apply Qle_bool_iff in H. congruence.
  - intros H. destruct (Qle_bool q 0) eqn:E; [|reflexivity].
    apply Qle_bool_iff in E. lra.
Qed.

Lemma orElse_pos (q d : Q) : 0 < q -> orElse (Some q) d = q.
Proof. intros H. apply orElse_Some_nonzero. lra. Qed.

Lemma Qmult_pos (a k : Q) : 0 < a -> 0 < k -> 0 < a * k.
Proof. intros Ha Hk. nra. Qed.

Lemma Qmax_scale (k a c a' c' : Q) :
  0 < k -> a' == a * k -> c' == c * k -> Qmax a' c' == Qmax a c * k.
Proof.
  intros Hk Ha Hc.
  destruct (Q.max_spec a c) as [[H E]|[H E]];
    destruct (Q.max_spec a' c') as [[H' E']|[H' E']];
    rewrite E, E'; nra.
Qed.

Lemma Qmin_scale (k a c a' c' : Q) :
  0 < k -> a' == a * k -> c' == c * k -> Qmin a' c' == Qmin a c * k.
Proof.
  intros Hk Ha Hc.
  destruct (Q.min_spec a c) as [[H E]|[H E]];
    destruct (Q.min_spec a' c') as [[H' E']|[H' E']];
    rewrite E, E'; nra.
Qed.

Lemma Qmax_pos (a c : Q) : 0 < a -> 0 < c -> 0 < Qmax a c.
Proof.
  intros Ha Hc. destruct (Q.max_spec a c) as [[_ E]|[_ E]]; rewrite E; assumption.
Qed.

Lemma positiveArg_spec (p : ModelPart) (i : nat) :
  positiveArg p i = true ->
  exists l a, args p = Some l /\ l !! i = Some a /\ 0 < a.
Proof.
  unfold positiveArg, argAt. destruct (args p) as [l|]; [|discriminate].
  destruct (l !! i) as [a|] eqn:E; [|discriminate].
  intros H. apply positive_spec in H. eauto.
Qed.

Lemma halfExtent_positive (p : ModelPart) :
  wellDimensioned p = true -> positive3 (halfExtent p).
Proof.
  destruct p as [i t pos r [[s0 s1] s2] a c d].
  unfold wellDimensioned, halfExtent. simpl.
  destruct t; simpl; try discriminate.
  - rewrite !andb_true_iff, !positive_spec. intros [[H0 H1] H2].
    rewrite !orElse_pos by assumption.
    repeat split; apply Qlt_shift_div_l; lra.
  - intros H. apply positiveArg_spec in H as (l & a0 & Hl & H0 & Hp).
    simpl in Hl. subst a. unfold argAt. simpl. rewrite H0, orElse_pos by assumption.
    auto.
  - rewrite !andb_true_iff. intros [[H0 H1] H2].
    apply positiveArg_spec in H0 as (l & a0 & Hl & H0 & Hp0).
    apply positiveArg_spec in H1 as (l1 & a1 & Hl1 & H1 & Hp1).
    apply positiveArg_spec in H2 as (l2 & a2 & Hl2 & H2 & Hp2).
    simpl in Hl, Hl1, Hl2. subst a. injection Hl1 as <-. injection Hl2 as <-.
    unfold argAt. simpl. rewrite H0, H1, H2, !orElse_pos by assumption.
    repeat split; try (apply Qmax_pos; assumption); apply Qlt_shift_div_l; lra.
  - rewrite !andb_true_iff. intros [[H0 H1] H2].
    apply positiveArg_spec in H0 as (l & a0 & Hl & H0 & Hp0).
    apply positiveArg_spec in H1 as (l1 & a1 & Hl1 & H1 & Hp1).
    apply positiveArg_spec in H2 as (l2 & a2 & Hl2 & H2 & Hp2).
    simpl in Hl, Hl1, Hl2. subst a. injection Hl1 as <-. injection Hl2 as <-.
    unfold argAt. simpl. rewrite H0, H1, H2, !orElse_pos by assumption.
    repeat split; try (apply Qmax_pos; assumption); apply Qlt_shift_div_l; lra.
  - intros H. apply positiveArg_spec in H as (l & a0 & Hl & H0 & Hp).
    simpl in Hl. subst a. unfold argAt. simpl. rewrite H0, orElse_pos by assumption.
    auto.
Qed.

Lemma halfExtent_scalePart (k : Q) (p : ModelPart) :
  0 < k -> wellDimensioned p = true ->
  scaled3 k (halfExtent p) (halfExtent (scalePart k p)).
Proof.
  intros Hk.
  destruct p as [i t [[x y] z] r [[s0 s1] s2] a c d].
  unfold wellDimensioned, halfExtent, scalePart, argAt, times. simpl.
  destruct t; simpl; try discriminate.
  - rewrite !andb_true_iff, !positive_spec. intros [[H0 H1] H2].
    rewrite !orElse_pos by (try apply Qmult_pos; assumption).
    repeat split; field.
  - intros H. apply positiveArg_spec in H as (l & a0 & Hl & H0 & Hp).
    simpl in Hl. subst a. simpl.
    rewrite list_lookup_alter_eq, H0. simpl.
    rewrite !orElse_pos by (try apply Qmult_pos; assumption).
    repeat split; reflexivity.
  - rewrite !andb_true_iff. intros [[H0 H1] H2].
    apply positiveArg_spec in H0 as (l & a0 & Hl & H0 & Hp0).
    apply positiveArg_spec in H1 as (l1 & a1 & Hl1 & H1 & Hp1).
    apply positiveArg_spec in H2 as (l2 & a2 & Hl2 & H2 & Hp2).
    simpl in Hl, Hl1, Hl2. subst a. injection Hl1 as <-. injection Hl2 as <-. simpl.
    repeat first [ rewrite list_lookup_alter_eq
                 | rewrite list_lookup_alter_ne by lia ].
    rewrite H0, H1, H2. simpl.
    rewrite !orElse_pos by (try apply Qmult_pos; assumption).
    repeat split; try (apply Qmax_scale; [assumption|reflexivity|reflexivity]); field.
  - rewrite !andb_true_iff. intros [[H0 H1] H2].
    apply positiveArg_spec in H0 as (l & a0 & Hl & H0 & Hp0).
    apply positiveArg_spec in H1 as (l1 & a1 & Hl1 & H1 & Hp1).
    apply positiveArg_spec in H2 as (l2 & a2 & Hl2 & H2 & Hp2).
    simpl in Hl, Hl1, Hl2. subst a. injection Hl1 as <-. injection Hl2 as <-. simpl.
    repeat first [ rewrite list_lookup_alter_eq
                 | rewrite list_lookup_alter_ne by lia ].
    rewrite H0, H1, H2. simpl.
    rewrite !orElse_pos by (try apply Qmult_pos; assumption).
    repeat split; try (apply Qmax_scale; [assumption|reflexivity|reflexivity]); field.
  - intros H. apply positiveArg_spec in H as (l & a0 & Hl & H0 & Hp).
    simpl in Hl. subst a. simpl.
    rewrite list_lookup_alter_eq, H0. simpl.
    rewrite !orElse_pos by (try apply Qmult_pos; assumption).
    repeat split; reflexivity.
Qed.


Lemma position_scalePart (k : Q) (p : ModelPart) :
  position (scalePart k p) = (let '(x, y, z) := position p in (x * k, y * k, z * k)).
Proof. destruct p as [i t [[x y] z] r [[s0 s1] s2] a c d]. destruct t; reflexivity. Qed.

Lemma accumulate_scaled (k : Q) (p : ModelPart) (b b' : Bounds) :
  0 < k -> wellDimensioned p = true -> scaledBounds k b b' ->
  exists c c', accumulate (Some b) p = Some c /\
               accumulate (Some b') (scalePart k p) = Some c' /\
               scaledBounds k c c'.
Proof.
  intros Hk Hp (H1 & H2 & H3 & H4 & H5 & H6).
  pose proof (halfExtent_scalePart k p Hk Hp) as Hs.
  unfold accumulate. rewrite position_scalePart.
  destruct (halfExtent (scalePart k p)) as [[sx' sy'] sz'].
  destruct (halfExtent p) as [[sx sy] sz]. destruct Hs as (Hx & Hy & Hz).
  destruct (position p) as [[x y] z].
  eexists _, _. split; [reflexivity|]. split; [reflexivity|].
  unfold scaledBounds; simpl.
  repeat split;
    first [ apply Qmin_scale | apply Qmax_scale ];
    try assumption; rewrite ?Hx, ?Hy, ?Hz; ring.
Qed.

Lemma accumulate_first_scaled (k : Q) (p : ModelPart) :
  0 < k -> wellDimensioned p = true ->
  exists c c', accumulate None p = Some c /\
               accumulate None (scalePart k p) = Some c' /\
               scaledBounds k c c' /\ positiveSpans c.
Proof.
  intros Hk Hp.
  pose proof (halfExtent_scalePart k p Hk Hp) as Hs.
  pose proof (halfExtent_positive p Hp) as Hpos.
  unfold accumulate. rewrite position_scalePart.
  destruct (halfExtent (scalePart k p)) as [[sx' sy'] sz'].
  destruct (halfExtent p) as [[sx sy] sz].
  destruct Hs as (Hx & Hy & Hz). destruct Hpos as (Px & Py & Pz).
  destruct (position p) as [[x y] z].
  eexists _, _. split; [reflexivity|]. split; [reflexivity|]. split.
  - unfold scaledBounds; simpl. repeat split; rewrite ?Hx, ?Hy, ?Hz; ring.
  - unfold positiveSpans; simpl. repeat split; lra.
Qed.

Lemma accumulate_positiveSpans (p : ModelPart) (b c : Bounds) :
  positiveSpans b -> accumulate (Some b) p = Some c -> positiveSpans c.
Proof.
  intros (Hx & Hy & Hz). unfold accumulate.
  destruct (position p) as [[x y] z]. destruct (halfExtent p) as [[sx sy] sz].
  intros [= <-]. unfold positiveSpans; simpl.
  repeat split.
  - pose proof (Q.le_min_l (minX b) (x - sx)). pose proof (Q.le_max_l (maxX b) (x + sx)). lra.
  - pose proof (Q.le_min_l (minY b) (y - sy)). pose proof (Q.le_max_l (maxY b) (y + sy)). lra.
  - pose proof (Q.le_min_l (minZ b) (z - sz)). pose proof (Q.le_max_l (maxZ b) (z + sz)). lra.
Qed.

Lemma fold_accumulate_scaled (k : Q) (ps : list ModelPart) :
  0 < k -> Forall (fun p => wellDimensioned p = true) ps ->
  forall b b', scaledBounds k b b' -> positiveSpans b ->
  exists c c', fold_left accumulate ps (Some b) = Some c /\
               fold_left accumulate (map (scalePart k) ps) (Some b') = Some c' /\
               scaledBounds k c c' /\ positiveSpans c.
Proof.
  intros Hk Hall. induction Hall as [|p ps Hp _ IH]; intros b b' Hs Hpos; simpl.
  - exists b, b'. auto.
  - destruct (accumulate_scaled k p b b' Hk Hp Hs) as (c & c' & E & E' & Hs').
    rewrite E, E'. apply IH; [exact Hs'|].
    exact (accumulate_positiveSpans p b c Hpos E).
Qed.

Lemma boundingBox_scaled (k : Q) (ps : list ModelPart) :
  0 < k -> ps <> [] -> Forall (fun p => wellDimensioned p = true) ps ->
  exists c c', boundingBox ps = Some c /\
               boundingBox (map (scalePart k) ps) = Some c' /\
               scaledBounds k c c' /\ positiveSpans c.
Proof.
  intros Hk Hne Hall. destruct ps as [|p ps]; [contradiction|].
  apply Forall_cons in Hall as [Hp Hall].
  unfold boundingBox. simpl.
  destruct (accumulate_first_scaled k p Hk Hp) as (c & c' & -> & -> & Hs & Hpos).
  now apply fold_accumulate_scaled.
Qed.

Lemma maxDimOf_positive (b : Bounds) :
  positiveSpans b ->
  0 < maxDimOf b /\
  maxDimOf b = Qmax (Qmax (maxX b - minX b) (maxY b - minY b)) (maxZ b - minZ b).
Proof.
  intros (Hx & Hy & Hz). unfold maxDimOf.
  rewrite !orElse_pos by lra. split; [|reflexivity].
  repeat apply Qmax_pos; lra.
Qed.

Lemma maxDimOf_scaled (k : Q) (b b' : Bounds) :
  0 < k -> positiveSpans b -> scaledBounds k b b' ->
  maxDimOf b' == maxDimOf b * k.
Proof.
  intros Hk Hpos (H1 & H2 & H3 & H4 & H5 & H6).
  assert (Hpos' : positiveSpans b').
  { destruct Hpos as (Hx & Hy & Hz). unfold positiveSpans.
    rewrite H1, H2, H3, H4, H5, H6. repeat split; nra. }
  destruct (maxDimOf_positive b Hpos) as [_ ->].
  destruct (maxDimOf_positive b' Hpos') as [_ ->].
  repeat apply Qmax_scale; try assumption;
    rewrite ?H1, ?H2, ?H3, ?H4, ?H5, ?H6; ring.
Qed.

(** On exact numbers: for a non-empty model whose parts are boxes with
    a positive [scale], spheres and icosahedra with a positive [args[0]],
    cylinders and cones with positive [args[0..2]], the bounding box of
    the result is the bounding box of the input times [8 / maxDim], so
    that the maximum axis span recomputed after [normalizeModelData] is 8. *)
Lemma bounding_invariant_on_exact_numbers (m : GeneratedModel) :
  parts m <> [] ->
  Forall (fun p => wellDimensioned p = true) (parts m) ->
  boundingInvariant m.
Proof.
  intros Hne Hall.
  destruct (normalizePath_nonempty m Hne) as (b & Hb & Hpath).
  destruct (boundingBox_scaled 1 (parts m)) as (c & _ & Hc & _ & _ & Hpos);
    [lra|assumption|assumption|].
  assert (c = b) by congruence. subst c.
  destruct (maxDimOf_positive b Hpos) as [Hd _].
  assert (Hk : 0 < 8 / maxDimOf b) by (apply Qlt_shift_div_l; lra).
  destruct (boundingBox_scaled (8 / maxDimOf b) (parts m) Hk Hne Hall)
    as (c & c' & Hc1 & Hc' & Hs & _).
  assert (c = b) by congruence. subst c.
  unfold boundingInvariant, normalizeModelData. rewrite Hpath. simpl.
  exists (maxDimOf c'). split.
  - unfold computedMaxDim. rewrite Hc'. reflexivity.
  - rewrite (maxDimOf_scaled _ b c' Hk Hpos Hs). field. lra.
Qed.

Example box_and_post_span : boundingInvariant boxAndPost.
Proof.
  apply bounding_invariant_on_exact_numbers.
  - discriminate.
  - repeat constructor.
Qed.

(** A sphere without [args] is outside that hypothesis: its extent is
    the fallback radius 1 before and after the rescaling (there is no
    [args[0]] to multiply), so the recomputed maximum span is 2. *)
Example bare_sphere_span :
  parts bareSphere <> [] /\ ~ boundingInvariant bareSphere.
Proof.
  split; [discriminate|].
  intros (d & Hd & H8). vm_compute in Hd. injection Hd as <-.
  vm_compute in H8. discriminate.
Qed.


(** Two more models outside that hypothesis: a cone with a pointed
    top ([args[0] = 0] is read as the fallback 1 by the bounding-box pass),
    and a torus (its extent is read from [scale], while the rescaling
    multiplies [args[0..1]]). *)
Example pointed_cone_span :
  exists d, computedMaxDim (parts (normalizeModelData pointedCone)) = Some d /\ d == 4.
Proof. eexists. split; [vm_compute; reflexivity|reflexivity]. Qed.

Example torus_span :
  exists d, computedMaxDim (parts (normalizeModelData ring)) = Some d /\ d == 2.
Proof. eexists. split; [vm_compute; reflexivity|reflexivity]. Qed.

(** ** Rescaling by a factor equal to 1 *)

Lemma Forall2_Qeq_refl (l : list Q) : Forall2 Qeq l l.
Proof. induction l; constructor; [reflexivity|assumption]. Qed.

Lemma alter_times_one (k : Q) (i : nat) (l : list Q) :
  k == 1 -> Forall2 Qeq (alter (times k) i l) l.
Proof.
  intros Hk. revert i. induction l as [|a l IH]; intros [|i]; simpl.
  - constructor.
  - constructor.
  - constructor; [unfold times; rewrite Hk; ring|apply Forall2_Qeq_refl].
  - constructor; [reflexivity|apply IH].
Qed.

Lemma Forall2_Qeq_trans (l1 l2 l3 : list Q) :
  Forall2 Qeq l1 l2 -> Forall2 Qeq l2 l3 -> Forall2 Qeq l1 l3.
Proof.
  intros H. revert l3. induction H as [|a b l1 l2 Hab _ IH]; intros l3 H3.
  - exact H3.
  - inversion H3 as [|? c ? l3' Hbc Hl]; subst. constructor.
    + now rewrite Hab.
    + now apply IH.
Qed.

Lemma scalePart_one (k : Q) (p : ModelPart) : k == 1 -> part_eq (scalePart k p) p.
Proof.
  intros Hk. destruct p as [i t [[x y] z] [[r0 r1] r2] [[s0 s1] s2] a c d].
  assert (Hm : forall q, q * k == q) by (intros q; rewrite Hk; ring).
  pose proof (alter_times_one k) as Ha.
  unfold part_eq, scalePart.
  destruct t; simpl; repeat split; try reflexivity; try apply Hm;
    try apply Forall2_Qeq_refl; try (apply Ha; exact Hk).
  all: repeat (eapply Forall2_Qeq_trans; [apply Ha; exact Hk|]);
    apply Forall2_Qeq_refl.
Qed.

Lemma map_scalePart_one (k : Q) (ps : list ModelPart) :
  k == 1 -> Forall2 part_eq (map (scalePart k) ps) ps.
Proof.
  intros Hk. induction ps as [|p ps IH]; simpl; constructor.
  - apply scalePart_one, Hk.
  - apply IH.
Qed.

Lemma normalize_at_8 (m : GeneratedModel) (d : Q) :
  computedMaxDim (parts m) = Some d -> d == 8 ->
  model_eq (normalizeModelData m) m.
Proof.
  unfold computedMaxDim. intros Hd H8.
  destruct (boundingBox (parts m)) as [b|] eqn:Hb; [|discriminate].
  injection Hd as <-.
  assert (Hne : parts m <> []).
  { intros E. apply boundingBox_None in E. congruence. }
  destruct (normalizePath_nonempty m Hne) as (b' & Hb' & Hpath).
  assert (b' = b) by congruence. subst b'.
  unfold normalizeModelData. rewrite Hpath.
  split; [reflexivity|]. simpl.
  apply map_scalePart_one. rewrite H8. reflexivity.
Qed.

(** C6, as the code has it.  Normalizing a model whose computed maximum
    bounding dimension is already 8 gives back a model equal to it
    (exact arithmetic; an absent [args] comes back as the empty array);
    so a second normalization changes nothing whenever the first one
    reached a maximum bounding dimension of 8. *)
Theorem normalize_idempotent_at_8 (m : GeneratedModel) :
  (forall d, computedMaxDim (parts m) = Some d -> d == 8 ->
             model_eq (normalizeModelData m) m) /\
  (boundingInvariant m -> idempotentAt m).
Proof.
  split.
  - apply normalize_at_8.
  - intros (d & Hd & H8). exact (normalize_at_8 _ d Hd H8).
Qed.

Lemma normalize_idempotent_at_8_witness :
  model_eq (normalizeModelData slab) slab.
Proof.
  apply (proj1 (normalize_idempotent_at_8 slab) (32 # 4)); reflexivity.
Defined.

(** C6, as stated for every model, fails: the sphere without [args] at
    x = 1 goes to x = 4 under one normalization and to x = 16 under two. *)
Lemma normalize_idempotent_fails :
  Forall2 vec3_eq (position <$> parts (normalizeModelData bareSphere)) [(4, 0, 0)] /\
  Forall2 vec3_eq (position <$> parts (normalizeModelData (normalizeModelData bareSphere)))
          [(16, 0, 0)] /\
  ~ idempotentAt bareSphere.
Proof.
  split; [|split].
  - repeat constructor.
  - repeat constructor.
  - intros [_ H]. inversion H as [|p q ps qs Hp _]; subst.
    destruct Hp as (_ & _ & Hpos & _). vm_compute in Hpos.
    destruct Hpos as [Hx _]. discriminate.
Qed.

End NormalizeFacts.

Module AppFacts.
Import Types App AppSpec.
Local Open Scope Z_scope.

Lemma partCountOf_max (g : GeneratedModel) :
  partCountOf g = Z.max 1 (Z.of_nat (length (parts g))).
Proof.
  unfold partCountOf. destruct (Z.eqb_spec (Z.of_nat (length (parts g))) 0); lia.
Qed.

Lemma speedOf_specSpeed (g : GeneratedModel) : speedOf (partCountOf g) = specSpeed g.
Proof. unfold specSpeed. rewrite <- partCountOf_max. reflexivity. Qed.

Lemma Qfloor_quotient (p : positive) :
  Qfloor (2000 / inject_Z (Z.pos p)) = 2000 / Z.pos p.
Proof. reflexivity. Qed.

Lemma floor_speed (partCount : Z) :
  2 <= partCount ->
  Qfloor (Qmin 500 (2000 / inject_Z partCount)) = Z.min 500 (2000 / partCount).
Proof.
  intros Hp. destruct partCount as [|p|p]; try lia.
  destruct (Q.min_spec 500 (2000 / inject_Z (Z.pos p))) as [[Hlt E]|[Hle E]];
    rewrite E.
  - change (Qfloor 500) with 500.
    assert (500 <= 2000 / Z.pos p); [|lia].
    rewrite <- Qfloor_quotient. change 500 with (Qfloor 500) at 1.
    apply Qfloor_resp_le, Qlt_le_weak, Hlt.
  - rewrite Qfloor_quotient.
    assert (2000 / Z.pos p <= 500); [|lia].
    rewrite <- Qfloor_quotient. change 500 with (Qfloor 500) at 1.
    apply Qfloor_resp_le, Hle.
Qed.

Lemma exact_quotient (partCount : Z) :
  0 < partCount -> (partCount | 2000) ->
  (inject_Z (2000 / partCount) == 2000 / inject_Z partCount)%Q.
Proof.
  intros Hp [q Hq].
  replace (2000 / partCount) with q by (rewrite Hq; symmetry; apply Z.div_mul; lia).
  assert (E : 2000%Q = inject_Z (q * partCount)) by (rewrite <- Hq; reflexivity).
  rewrite E, inject_Z_mult. field.
  intros E0. unfold Qeq in E0. simpl in E0. lia.
Qed.

(** C4, as the code has it.  After a successful generation the build
    speed handed to the viewer is the floor of the specified value:
    100 for one part (or none), otherwise
    [floor(min(500, 2000 / partCount))], which is
    [min(500, 2000 div partCount)] in integer division and is the
    specified value itself whenever [partCount] divides 2000; 4 parts
    give 500, 20 give 100 and 40 give 50. *)
Theorem build_speed_formula (g : GeneratedModel) (s : AppState) :
  let partCount := Z.max 1 (Z.of_nat (length (parts g))) in
  let speed := buildingSpeed (handleGenerate (JS.Returned g) s) in
  partCountOf g = partCount /\
  speed = Qfloor (specSpeed g) /\
  (partCount = 1 -> speed = 100) /\
  (partCount <> 1 -> speed = Z.min 500 (2000 / partCount)) /\
  ((partCount | 2000) -> (inject_Z speed == specSpeed g)%Q) /\
  (partCount = 4 -> speed = 500) /\
  (partCount = 20 -> speed = 100) /\
  (partCount = 40 -> speed = 50).
Proof.
  intros partCount speed.
  assert (Hpc : partCountOf g = partCount) by apply partCountOf_max.
  assert (Hs : speed = Qfloor (specSpeed g)).
  { unfold speed. simpl. rewrite speedOf_specSpeed. reflexivity. }
  assert (H1 : partCount = 1 -> speed = 100).
  { intros E. rewrite Hs. unfold specSpeed. fold partCount. rewrite E. reflexivity. }
  assert (Hn : partCount <> 1 -> speed = Z.min 500 (2000 / partCount)).
  { intros N. rewrite Hs. unfold specSpeed. fold partCount.
    destruct (Z.eqb_spec partCount 1); [contradiction|].
    apply floor_speed. lia. }
  repeat split; try assumption.
  - intros Hdiv. destruct (Z.eq_dec partCount 1) as [E|N].
    + rewrite (H1 E). unfold specSpeed. fold partCount. rewrite E. reflexivity.
    + rewrite (Hn N). unfold specSpeed. fold partCount.
      destruct (Z.eqb_spec partCount 1); [contradiction|].
      assert (Hp : 0 < partCount) by lia.
      destruct (Q.min_spec 500 (2000 / inject_Z partCount)) as [[Hlt E]|[Hle E]];
        rewrite E; rewrite <- (exact_quotient partCount Hp Hdiv) in *.
      * change 500%Q with (inject_Z 500) in Hlt. rewrite <- Zlt_Qlt in Hlt.
        rewrite Z.min_l by lia. reflexivity.
      * change 500%Q with (inject_Z 500) in Hle. rewrite <- Zle_Qle in Hle.
        rewrite Z.min_r by lia. reflexivity.
  - intros E. rewrite Hn, E by lia. reflexivity.
  - intros E. rewrite Hn, E by lia. reflexivity.
  - intros E. rewrite Hn, E by lia. reflexivity.
Qed.

Lemma build_speed_formula_witness :
  buildingSpeed (handleGenerate (JS.Returned (pegs 40)) (initialState 0)) = 50.
Proof.
  apply (build_speed_formula (pegs 40) (initialState 0)). reflexivity.
Defined.

(** C4, as stated, fails: for 7 parts the specified speed is 2000/7,
    and the build speed that [handleGenerate] sets is 285. *)
Lemma build_speed_formula_fails :
  buildingSpeed (handleGenerate (JS.Returned (pegs 7)) (initialState 0)) = 285 /\
  (specSpeed (pegs 7) == 2000 # 7)%Q /\
  ~ (inject_Z (buildingSpeed (handleGenerate (JS.Returned (pegs 7)) (initialState 0)))
     == specSpeed (pegs 7))%Q.
Proof.
  split; [reflexivity|]. split; [reflexivity|].
  intros H. vm_compute in H. discriminate.
Qed.

End AppFacts.

Module Viewer3DFacts.
Import Types Viewer3D Viewer3DSpec.

(** ** The progressive reveal *)

Lemma elapse_model (v : Viewer) : model (elapse v) = model v.
Proof. unfold elapse. destruct (timerPending v); reflexivity. Qed.

Lemma elapse_count (m : GeneratedModel) (v : Viewer) :
  model v = Some m ->
  visiblePartsCount (elapse v) =
    if (visiblePartsCount v <? length (parts m))%nat
    then S (visiblePartsCount v) else visiblePartsCount v.
Proof.
  intros Hm. unfold elapse, timerPending. rewrite Hm.
  destruct (visiblePartsCount v <? length (parts m))%nat; reflexivity.
Qed.

Lemma elapseN_count (m : GeneratedModel) (n : nat) :
  forall v, model v = Some m ->
    (visiblePartsCount v <= length (parts m))%nat ->
    model (elapseN n v) = Some m /\
    visiblePartsCount (elapseN n v) =
      Nat.min (visiblePartsCount v + n) (length (parts m)).
Proof.
  induction n as [|n IH]; intros v Hm Hle; simpl.
  - split; [exact Hm|lia].
  - pose proof (elapse_count m v Hm) as Hc.
    destruct (IH (elapse v)) as [Hm' Hc'].
    + rewrite elapse_model. exact Hm.
    + rewrite Hc. destruct (Nat.ltb_spec (visiblePartsCount v) (length (parts m))); lia.
    + split; [exact Hm'|]. rewrite Hc', Hc.
      destruct (Nat.ltb_spec (visiblePartsCount v) (length (parts m))); lia.
Qed.

Lemma reveal_count (m : GeneratedModel) (v0 : Viewer) (n : nat) :
  visiblePartsCount (elapseN n (assignModel (Some m) v0)) = Nat.min n (length (parts m)).
Proof.
  destruct (elapseN_count m n (assignModel (Some m) v0)) as [_ H];
    [reflexivity|simpl; lia|]. exact H.
Qed.

(** C3.  Assigning a model sets the count of revealed parts to 0; while
    the count is below the number of parts, each elapsed build-speed
    delay raises it by exactly 1, and afterwards it stays; the part at
    index [i] is visible exactly when [i] is below the count.  So after
    [n] delays the part at index [i] is visible exactly when
    [i < min n N]: after [N] delays all [N] parts are visible, and in no
    state of the viewer is a part visible while a part of smaller index
    is not. *)
Theorem reveal_ordering (m : GeneratedModel) (v0 : Viewer) :
  let N := length (parts m) in
  let at_ n := elapseN n (assignModel (Some m) v0) in
  visiblePartsCount (at_ 0%nat) = 0%nat /\
  (forall v i, isVisible i v = true <-> (i < visiblePartsCount v)%nat) /\
  (forall n, (visiblePartsCount (at_ n) < N)%nat ->
             visiblePartsCount (at_ (S n)) = S (visiblePartsCount (at_ n))) /\
  (forall n, (N <= n)%nat -> visiblePartsCount (at_ n) = N) /\
  (forall n i, isVisible i (at_ n) = true <-> (i < Nat.min n N)%nat) /\
  (forall i, (i < N)%nat -> isVisible i (at_ N) = true) /\
  (forall v i j, (j < i)%nat -> isVisible i v = true -> isVisible j v = true).
Proof.
  intros N at_.
  assert (Hc : forall n, visiblePartsCount (at_ n) = Nat.min n N)
    by (intros n; apply reveal_count).
  assert (Hv : forall v i, isVisible i v = true <-> (i < visiblePartsCount v)%nat)
    by (intros v i; unfold isVisible; apply Nat.ltb_lt).
  split; [reflexivity|]. split; [exact Hv|].
  split; [intros n; rewrite !Hc; lia|].
  split; [intros n Hn; rewrite Hc; lia|].
  split; [intros n i; rewrite Hv, Hc; reflexivity|].
  split; [intros i Hi; apply Hv; rewrite Hc; lia|].
  intros v i j Hji Hi. apply Hv. apply Hv in Hi. lia.
Qed.

Lemma reveal_ordering_witness :
  isVisible 2 (elapseN 3 (assignModel (Some (AppSpec.pegs 3)) emptyViewer)) = true.
Proof.
  apply (reveal_ordering (AppSpec.pegs 3) emptyViewer). simpl. lia.
Defined.

(** ** The camera *)

Lemma handleViewChange_fresh (viewMode : string) (now : Z) (s : App.AppState) :
  AppSpec.wellFormed s ->
  viewStateChanged (App.viewState s) (App.viewState (App.handleViewChange viewMode now s)) = true /\
  AppSpec.wellFormed (App.handleViewChange viewMode now s).
Proof.
  unfold AppSpec.wellFormed, viewStateChanged. simpl. intros H. split; [|lia].
  apply negb_true_iff, Nat.eqb_neq. lia.
Qed.

(** C9, as the code has it.  With the orbit controls in place, a view
    command sets the camera position to the fixed offset of its mode
    and the look-at target to the origin: 15 along +Y, -Y, +Z, +X for
    TOP, BOTTOM, FRONT, SIDE, and (10, 10, 10) for ISO and for any other
    mode string (distance 10 * sqrt 3, not 15).  Every view command makes a
    new view-state object, so the effect runs again when the mode is the
    one already selected, whatever the two clock readings are and
    wherever the camera was moved in between. *)
Theorem view_change_recomputes (s : App.AppState) (viewMode : string) (now1 now2 : Z)
    (c c' : Camera) :
  AppSpec.wellFormed s ->
  let s1 := App.handleViewChange viewMode now1 s in
  let s2 := App.handleViewChange viewMode now2 s1 in
  let placed := {| cameraPosition := positionFor viewMode; target := (0, 0, 0)%Z |} in
  rerender true (App.viewState s) (App.viewState s1) c = placed /\
  rerender true (App.viewState s1) (App.viewState s2) c' = placed /\
  rerender false (App.viewState s1) (App.viewState s2) c' = c' /\
  positionFor "TOP" = (0, 15, 0)%Z /\
  positionFor "BOTTOM" = (0, -15, 0)%Z /\
  positionFor "FRONT" = (0, 0, 15)%Z /\
  positionFor "SIDE" = (15, 0, 0)%Z /\
  positionFor "ISO" = (10, 10, 10)%Z /\
  (forall md, sqDistance (positionFor md) = 225%Z \/ positionFor md = (10, 10, 10)%Z).
Proof.
  intros Hwf s1 s2 placed.
  destruct (handleViewChange_fresh viewMode now1 s Hwf) as [H1 Hwf1].
  destruct (handleViewChange_fresh viewMode now2 s1 Hwf1) as [H2 _].
  unfold rerender. fold s1 in H1. fold s2 in H2. rewrite H1, H2.
  repeat split; try reflexivity.
  intros md. unfold positionFor.
  repeat match goal with |- context [String.eqb ?a ?b] => destruct (String.eqb a b) end;
    auto.
Qed.

Lemma view_change_recomputes_witness :
  let s1 := App.handleViewChange "TOP" 1000 (AppSpec.initialState 0) in
  let s2 := App.handleViewChange "TOP" 1000 s1 in
  rerender true (App.viewState s1) (App.viewState s2)
           {| cameraPosition := (3, 4, 5)%Z; target := (1, 1, 1)%Z |}
  = {| cameraPosition := (0, 15, 0)%Z; target := (0, 0, 0)%Z |}.
Proof.
  apply (view_change_recomputes (AppSpec.initialState 0) "TOP" 1000 1000 initialCamera).
  unfold AppSpec.wellFormed. simpl. lia.
Defined.

(** C9, as stated, fails for the "constant distance from the origin":
    the ISO position is not at the distance of the other four. *)
Lemma view_distance_not_constant :
  sqDistance (positionFor "ISO") = 300%Z /\
  sqDistance (positionFor "TOP") = 225%Z /\
  ~ (exists d, forall md, sqDistance (positionFor md) = d).
Proof.
  split; [reflexivity|]. split; [reflexivity|].
  intros [d H]. pose proof (H "ISO"%string) as H1. pose proof (H "TOP"%string) as H2.
  vm_compute in H1, H2. congruence.
Qed.

End Viewer3DFacts.

Module ParseFacts.
Import Types JS RegExp GeminiService ParseSpec.
Local Open Scope N_scope.

(** ** Characters *)

Lemma anyChar_true (c : N) : anyChar c = true.
Proof. unfold anyChar. apply orb_negb_r. Qed.

Lemma sameChar_backtick (x : N) : sameChar true x 96 = (x =? 96).
Proof.
  unfold sameChar. change (canonicalize 96) with 96. unfold canonicalize.
  destruct (N.leb_spec 97 x), (N.leb_spec x 122); simpl;
    destruct (N.eqb_spec x 96), (N.eqb_spec (x - 32) 96); try reflexivity; lia.
Qed.

Lemma space_not_backtick (x : N) : isSpace x = true -> (x =? 96) = false.
Proof. intros H. destruct (N.eqb_spec x 96) as [->|]; [discriminate H|reflexivity]. Qed.

Lemma space_not_closing (x : N) : isSpace x = true -> isClosing x = false.
Proof.
  intros H. unfold isClosing.
  destruct (N.eqb_spec x 125) as [->|]; [discriminate H|].
  destruct (N.eqb_spec x 93) as [->|]; [discriminate H|reflexivity].
Qed.

Lemma space_not_comma (x : N) : isSpace x = true -> (x =? 44) = false.
Proof. intros H. destruct (N.eqb_spec x 44) as [->|]; [discriminate H|reflexivity]. Qed.

Lemma closing_not_comma (x : N) : isClosing x = true -> (x =? 44) = false.
Proof. intros H. destruct (N.eqb_spec x 44) as [->|]; [discriminate H|reflexivity]. Qed.

Lemma space_not_j (x : N) : isSpace x = true -> sameChar true x 106 = false.
Proof.
  intros H. unfold sameChar. change (canonicalize 106) with 74. unfold canonicalize.
  destruct (N.leb_spec 97 x), (N.leb_spec x 122); simpl.
  - destruct (N.eqb_spec (x - 32) 74) as [E|]; [|reflexivity].
    assert (x = 106) by lia. subst x. discriminate H.
  - destruct (N.eqb_spec x 74) as [->|]; [discriminate H|reflexivity].
  - destruct (N.eqb_spec x 74) as [->|]; [discriminate H|reflexivity].
  - destruct (N.eqb_spec x 74) as [->|]; [discriminate H|reflexivity].
Qed.

(** ** The stars *)

Section Stars.
Context {R : Type}.

(** A greedy star whose continuation fails on every text that begins
    with a character of the class stops at the end of the run. *)
Lemma starGreedy_run (p : N -> bool) (ws rest : jsstring) (k : jsstring -> option R) :
  Forall (fun x => p x = true) ws ->
  (forall x t, p x = true -> k (x :: t) = None) ->
  match rest with x :: _ => p x = false | [] => True end ->
  starGreedy p (ws ++ rest) k = k rest.
Proof.
  intros Hws Hk Hrest. induction Hws as [|w ws Hw _ IH]; simpl.
  - destruct rest as [|x t]; [reflexivity|]. simpl. rewrite Hrest. reflexivity.
  - rewrite Hw, IH. destruct (k rest) eqn:E; [reflexivity|]. apply Hk, Hw.
Qed.

(** A lazy star over [[\s\S]] passes over every position at which the
    continuation fails. *)
Lemma starLazy_skip (a rest : jsstring) (k : jsstring -> option R) :
  (forall a1 x a2, a = a1 ++ x :: a2 -> k (x :: a2 ++ rest) = None) ->
  starLazy anyChar (a ++ rest) k = starLazy anyChar rest k.
Proof.
  induction a as [|x a IH]; intros Hk; [reflexivity|].
  simpl. rewrite (Hk [] x a eq_refl), anyChar_true.
  apply IH. intros a1 y a2 E. apply (Hk (x :: a1) y a2). rewrite E. reflexivity.
Qed.

Lemma starLazy_here (p : N -> bool) (s : jsstring) (k : jsstring -> option R) (r : R) :
  k s = Some r -> starLazy p s k = Some r.
Proof. intros H. destruct s; simpl; rewrite H; reflexivity. Qed.

End Stars.


(** ** The code-block expression *)

Lemma take_prefix (a b : jsstring) : take (length (a ++ b) - length b) (a ++ b) = a.
Proof.
  rewrite length_app. replace (length a + length b - length b)%nat with (length a) by lia.
  apply take_app_length.
Qed.

Section Fence.
Context {R : Type}.

Local Abbreviation backticks := (Cat (Chr 96) (Cat (Chr 96) (Chr 96))).
Local Abbreviation tail := (Cat (Star isSpace) backticks).
Local Abbreviation object := (Cat (Chr 123) (Cat (StarLazy anyChar) (Chr 125))).
Local Abbreviation word := (Cat (Chr 106) (Cat (Chr 115) (Cat (Chr 111) (Chr 110)))).

Lemma backticks_fail (x : N) (u : jsstring) (cap : option jsstring)
    (k : jsstring -> option jsstring -> option R) :
  (x =? 96) = false -> run true backticks (x :: u) cap k = None.
Proof. intros H. cbn [run]. rewrite sameChar_backtick, H. reflexivity. Qed.

Lemma backticks_match (u : jsstring) (cap : option jsstring)
    (k : jsstring -> option jsstring -> option R) :
  run true backticks (fence ++ u) cap k = k u cap.
Proof. reflexivity. Qed.

(** [\s*```] on white space followed by a fence. *)
Lemma tail_match (ws post : jsstring) (cap : option jsstring)
    (k : jsstring -> option jsstring -> option R) :
  allSpace ws ->
  run true tail (ws ++ fence ++ post) cap k = k post cap.
Proof.
  intros Hws. change (run true tail (ws ++ fence ++ post) cap k)
    with (starGreedy isSpace (ws ++ fence ++ post)
            (fun s' => run true backticks s' cap k)).
  rewrite starGreedy_run; [reflexivity|exact Hws| |reflexivity].
  intros x t Hx. apply backticks_fail, space_not_backtick, Hx.
Qed.

(** [\s*```] fails in front of a [}] that no backtick precedes. *)
Lemma tail_fail (b t : jsstring) (cap : option jsstring)
    (k : jsstring -> option jsstring -> option R) :
  without 96 b -> run true tail (b ++ 125 :: t) cap k = None.
Proof.
  intros Hb. change (run true tail (b ++ 125 :: t) cap k)
    with (starGreedy isSpace (b ++ 125 :: t) (fun s' => run true backticks s' cap k)).
  induction Hb as [|x b Hx _ IH].
  - reflexivity.
  - assert (E : (x =? 96) = false) by (now apply N.eqb_neq).
    cbn [app starGreedy]. rewrite IH, (backticks_fail x _ cap k E).
    destruct (isSpace x); reflexivity.
Qed.

(** [(\{[\s\S]*?\})\s*```] on an object without backticks, white space
    and a fence: the group is the object. *)
Lemma object_match (inner ws post : jsstring) (cap : option jsstring)
    (k : jsstring -> option jsstring -> option R) (r : R) :
  without 96 inner -> allSpace ws ->
  k post (Some (123 :: inner ++ [125])) = Some r ->
  run true (Cat (Grp object) tail) (123 :: inner ++ 125 :: ws ++ fence ++ post) cap k = Some r.
Proof.
  intros Hin Hws Hk.
  set (s := 123 :: inner ++ 125 :: ws ++ fence ++ post).
  change (run true (Cat (Grp object) tail) s cap k)
    with (starLazy anyChar (inner ++ 125 :: ws ++ fence ++ post)
            (fun s1 => run true (Chr 125) s1 cap
               (fun s2 _ => run true tail s2 (Some (take (length s - length s2) s)) k))).
  rewrite starLazy_skip.
  - apply starLazy_here.
    change (run true tail (ws ++ fence ++ post)
              (Some (take (length s - length (ws ++ fence ++ post)) s)) k = Some r).
    rewrite tail_match by exact Hws.
    replace (take (length s - length (ws ++ fence ++ post)) s) with (123 :: inner ++ [125]);
      [exact Hk|].
    symmetry. unfold s.
    replace (123 :: inner ++ 125 :: ws ++ fence ++ post)
      with ((123 :: inner ++ [125]) ++ (ws ++ fence ++ post))
      by (simpl; rewrite <- app_assoc; reflexivity).
    apply take_prefix.
  - intros a1 x a2 E.
    change ((if sameChar true x 125
             then run true tail (a2 ++ 125 :: ws ++ fence ++ post)
                    (Some (take (length s - length (a2 ++ 125 :: ws ++ fence ++ post)) s)) k
             else None) = None).
    destruct (sameChar true x 125); [|reflexivity].
    apply tail_fail. rewrite E in Hin.
    apply Forall_app in Hin as [_ Hin]. now apply Forall_cons in Hin as [_ Hin].
Qed.

(** [(?:json)?] in front of white space or of a brace: nothing to take. *)
Lemma word_fail (s : jsstring) (cap : option jsstring)
    (k : jsstring -> option jsstring -> option R) :
  match s with x :: _ => isSpace x = true \/ x = 123 | [] => True end ->
  run true word s cap k = None.
Proof.
  destruct s as [|x s]; [reflexivity|]. intros [H| ->]; [|reflexivity].
  cbn [run]. rewrite (space_not_j x H). reflexivity.
Qed.

Lemma word_match (tag s : jsstring) (cap : option jsstring)
    (k : jsstring -> option jsstring -> option R) :
  map canonicalize tag = map canonicalize (ofAscii "json") ->
  run true word (tag ++ s) cap k = k s cap.
Proof.
  destruct tag as [|j [|s0 [|o [|n [|]]]]]; try discriminate.
  intros [= Hj Hs Ho Hn]. cbn [run app]. unfold sameChar.
  rewrite Hj, Hs, Ho, Hn. reflexivity.
Qed.

End Fence.

(** A reply that holds a fenced object: [match[1]] is the object. *)
Lemma codeBlock_here (tag ws1 inner ws2 post : jsstring) :
  fenceTag tag -> allSpace ws1 -> without 96 inner -> allSpace ws2 ->
  matchHere true codeBlockRegex
    (fence ++ tag ++ ws1 ++ 123 :: inner ++ 125 :: ws2 ++ fence ++ post)
  = Some (post, Some (123 :: inner ++ [125])).
Proof.
  intros Htag Hws1 Hin Hws2. unfold matchHere, codeBlockRegex.
  set (k := fun (rest : jsstring) (cap : option jsstring) => Some (rest, cap)).
  set (object := Cat (Chr 123) (Cat (StarLazy anyChar) (Chr 125))).
  set (tail := Cat (Star isSpace) (Cat (Chr 96) (Cat (Chr 96) (Chr 96)))).
  set (word := Cat (Chr 106) (Cat (Chr 115) (Cat (Chr 111) (Chr 110)))).
  set (body := Cat (Star isSpace) (Cat (Grp object) tail)).
  assert (Hbody : forall cap,
    run true body (ws1 ++ 123 :: inner ++ 125 :: ws2 ++ fence ++ post) cap k
    = Some (post, Some (123 :: inner ++ [125]))).
  { intros cap.
    change (run true body (ws1 ++ 123 :: inner ++ 125 :: ws2 ++ fence ++ post) cap k)
      with (starGreedy isSpace (ws1 ++ 123 :: inner ++ 125 :: ws2 ++ fence ++ post)
              (fun s' => run true (Cat (Grp object) tail) s' cap k)).
    rewrite starGreedy_run; [|exact Hws1| |reflexivity].
    - apply object_match; [exact Hin|exact Hws2|reflexivity].
    - intros x t Hx. cbn [run]. unfold object. cbn [run].
      assert (E : sameChar true x 123 = false).
      { unfold sameChar. change (canonicalize 123) with 123. unfold canonicalize.
        destruct (N.leb_spec 97 x), (N.leb_spec x 122); simpl.
        - destruct (N.eqb_spec (x - 32) 123); [lia|reflexivity].
        - destruct (N.eqb_spec x 123) as [->|]; [discriminate Hx|reflexivity].
        - destruct (N.eqb_spec x 123) as [->|]; [discriminate Hx|reflexivity].
        - destruct (N.eqb_spec x 123) as [->|]; [discriminate Hx|reflexivity]. }
      rewrite E. reflexivity. }
  change (run true _ (fence ++ ?s) None k)
    with (match run true word s None (fun s' cap' => run true body s' cap' k) with
          | Some res => Some res
          | None => run true body s None k
          end).
  destruct Htag as [-> | Htag].
  - rewrite word_fail.
    + apply Hbody.
    + simpl. destruct Hws1 as [|x ws1 Hx _]; simpl; auto.
  - rewrite (word_match tag _ None _ Htag), Hbody. reflexivity.
Qed.

Lemma firstMatch_skip (pre s : jsstring) :
  without 96 pre ->
  firstMatch true codeBlockRegex (pre ++ s) = firstMatch true codeBlockRegex s.
Proof.
  intros Hpre. induction Hpre as [|x pre Hx _ IH]; [reflexivity|].
  cbn [app firstMatch].
  replace (matchHere true codeBlockRegex (x :: pre ++ s)) with (@None (jsstring * option jsstring)).
  - exact IH.
  - symmetry. unfold matchHere, codeBlockRegex. cbn [run].
    rewrite sameChar_backtick. apply N.eqb_neq in Hx. rewrite Hx. reflexivity.
Qed.

Lemma firstMatch_none (s : jsstring) :
  without 96 s -> firstMatch true codeBlockRegex s = None.
Proof.
  intros H. rewrite <- (app_nil_r s), firstMatch_skip by exact H. reflexivity.
Qed.

Lemma codeBlock_capture (pre tag ws1 inner ws2 post : jsstring) :
  without 96 pre -> fenceTag tag -> allSpace ws1 -> without 96 inner -> allSpace ws2 ->
  firstMatch true codeBlockRegex
    (pre ++ fence ++ tag ++ ws1 ++ 123 :: inner ++ 125 :: ws2 ++ fence ++ post)
  = Some (Some (123 :: inner ++ [125])).
Proof.
  intros Hpre Htag Hws1 Hin Hws2. rewrite firstMatch_skip by exact Hpre.
  pose proof (codeBlock_here tag ws1 inner ws2 post Htag Hws1 Hin Hws2) as H.
  destruct (fence ++ tag ++ ws1 ++ 123 :: inner ++ 125 :: ws2 ++ fence ++ post) eqn:E;
    [discriminate E|].
  cbn [firstMatch]. rewrite H. reflexivity.
Qed.


(** ** [indexOf], [lastIndexOf], [substring] *)

Lemma indexOf_range (s : jsstring) (c : N) :
  (indexOf s c = -1 \/ 0 <= indexOf s c < Z.of_nat (length s))%Z.
Proof.
  induction s as [|x s IH]; simpl; [left; reflexivity|].
  destruct (x =? c); [right; lia|].
  destruct (Z.eqb_spec (indexOf s c) (-1)); [left; reflexivity|right; lia].
Qed.

Lemma lastIndexOf_range (s : jsstring) (c : N) :
  (lastIndexOf s c = -1 \/ 0 <= lastIndexOf s c < Z.of_nat (length s))%Z.
Proof.
  induction s as [|x s IH]; simpl; [left; reflexivity|].
  destruct (Z.eqb_spec (lastIndexOf s c) (-1)).
  - destruct (x =? c); [right; lia|left; reflexivity].
  - right; lia.
Qed.

Lemma indexOf_app (a b : jsstring) (c : N) :
  without c a ->
  indexOf (a ++ b) c =
    (if (indexOf b c =? -1)%Z then -1 else Z.of_nat (length a) + indexOf b c)%Z.
Proof.
  intros Ha. induction Ha as [|x a Hx _ IH]; simpl.
  - destruct (Z.eqb_spec (indexOf b c) (-1)); lia.
  - apply N.eqb_neq in Hx. rewrite Hx, IH.
    destruct (Z.eqb_spec (indexOf b c) (-1)); [reflexivity|].
    destruct (indexOf_range b c) as [E|E]; [contradiction|].
    destruct (Z.eqb_spec (Z.of_nat (length a) + indexOf b c) (-1)); lia.
Qed.

Lemma lastIndexOf_without (s : jsstring) (c : N) : without c s -> lastIndexOf s c = (-1)%Z.
Proof.
  intros H. induction H as [|x s Hx _ IH]; simpl; [reflexivity|].
  apply N.eqb_neq in Hx. rewrite IH, Hx. reflexivity.
Qed.

Lemma lastIndexOf_app (a b : jsstring) (c : N) :
  without c b -> lastIndexOf (a ++ b) c = lastIndexOf a c.
Proof.
  intros Hb. induction a as [|x a IH]; simpl.
  - apply lastIndexOf_without, Hb.
  - rewrite IH. reflexivity.
Qed.

Lemma indexOf_first (pre rest : jsstring) (c : N) :
  without c pre -> indexOf (pre ++ c :: rest) c = Z.of_nat (length pre).
Proof.
  intros H. rewrite indexOf_app by exact H. simpl. rewrite N.eqb_refl. simpl. lia.
Qed.

Lemma lastIndexOf_last (pre post : jsstring) (c : N) :
  without c post -> lastIndexOf (pre ++ c :: post) c = Z.of_nat (length pre).
Proof.
  intros H. induction pre as [|x pre IH]; simpl.
  - rewrite (lastIndexOf_without post c H), N.eqb_refl. reflexivity.
  - rewrite IH. destruct (Z.eqb_spec (Z.of_nat (length pre)) (-1)); lia.
Qed.

Lemma substring_middle (pre mid post : jsstring) :
  substring (pre ++ mid ++ post) (Z.of_nat (length pre))
    (Z.of_nat (length pre) + Z.of_nat (length mid)) = mid.
Proof.
  unfold substring. rewrite !length_app.
  replace (Z.to_nat _) with (length mid) by lia.
  replace (Z.to_nat _) with (length pre) by lia.
  rewrite drop_app_length. apply take_app_length.
Qed.

(** ** Lines 248-252: the outermost braces *)

Lemma extractText_braces (pre mid post : jsstring) :
  firstMatch true codeBlockRegex (pre ++ 123 :: mid ++ 125 :: post) = None ->
  without 123 pre -> without 125 post ->
  extractText (pre ++ 123 :: mid ++ 125 :: post) = 123 :: mid ++ [125].
Proof.
  intros Hno Hpre Hpost. unfold extractText. rewrite Hno.
  rewrite (indexOf_first pre _ 123 Hpre).
  replace (pre ++ 123 :: mid ++ 125 :: post) with ((pre ++ 123 :: mid) ++ 125 :: post)
    by (rewrite <- app_assoc; reflexivity).
  rewrite (lastIndexOf_last _ post 125 Hpost), length_app. simpl length.
  destruct (Z.eqb_spec (Z.of_nat (length pre)) (-1)); [lia|].
  destruct (Z.eqb_spec (Z.of_nat (length pre + S (length mid))) (-1)); [lia|].
  destruct (Z.gtb_spec (Z.of_nat (length pre + S (length mid))) (Z.of_nat (length pre)));
    [|lia].
  simpl negb. cbv iota. simpl andb. cbv iota.
  replace ((pre ++ 123 :: mid) ++ 125 :: post) with (pre ++ (123 :: mid ++ [125]) ++ post)
    by (simpl; rewrite <- !app_assoc; reflexivity).
  set (object := 123 :: mid ++ [125]).
  replace (Z.of_nat (length pre + S (length mid)) + 1)%Z
    with (Z.of_nat (length pre) + Z.of_nat (length object))%Z
    by (unfold object; simpl length; rewrite length_app; simpl; lia).
  apply substring_middle.
Qed.

(** No [{] before the last [}]: the whole text goes on. *)
Lemma extractText_whole (a b : jsstring) :
  firstMatch true codeBlockRegex (a ++ b) = None ->
  without 123 a -> without 125 b ->
  extractText (a ++ b) = a ++ b.
Proof.
  intros Hno Ha Hb. unfold extractText. rewrite Hno.
  rewrite (indexOf_app a b 123 Ha), (lastIndexOf_app a b 125 Hb).
  destruct (Z.eqb_spec (indexOf b 123) (-1)); [reflexivity|].
  destruct (indexOf_range b 123) as [E|E]; [contradiction|].
  destruct (lastIndexOf_range a 125) as [L|L].
  - rewrite L. simpl. rewrite andb_false_r. reflexivity.
  - destruct (Z.gtb_spec (lastIndexOf a 125) (Z.of_nat (length a) + indexOf b 123)); [lia|].
    rewrite andb_false_r. reflexivity.
Qed.

(** ** Line 257: the trailing commas *)

Lemma closesNext_split (s : jsstring) :
  closesNext s = true ->
  exists ws c t, s = ws ++ c :: t /\ allSpace ws /\ isSpace c = false /\ isClosing c = true.
Proof.
  induction s as [|x s IH]; simpl; [discriminate|].
  destruct (isSpace x) eqn:E.
  - intros H. destruct (IH H) as (ws & c & t & -> & Hws & Hc).
    exists (x :: ws), c, t. split; [reflexivity|]. split; [|exact Hc].
    constructor; assumption.
  - intros H. exists [], x, s. repeat split; try assumption. constructor.
Qed.

Lemma closesNext_app (ws : jsstring) (c : N) (t : jsstring) :
  allSpace ws -> isSpace c = false -> closesNext (ws ++ c :: t) = isClosing c.
Proof.
  intros Hws Hc. induction Hws as [|w ws Hw _ IH]; simpl.
  - rewrite Hc. reflexivity.
  - rewrite Hw. exact IH.
Qed.

Lemma comma_match (ws : jsstring) (c : N) (t : jsstring) :
  allSpace ws -> isSpace c = false -> isClosing c = true ->
  matchHere false trailingCommaRegex (44 :: ws ++ c :: t) = Some (t, Some (ws ++ [c])).
Proof.
  intros Hws Hs Hc. unfold matchHere.
  set (k := fun (rest : jsstring) (cap : option jsstring) => Some (rest, cap)).
  change (run false trailingCommaRegex (44 :: ws ++ c :: t) None k)
    with (starGreedy isSpace (ws ++ c :: t)
            (fun s1 => run false (Cls isClosing) s1 None
               (fun s2 _ => k s2 (Some (take (length (ws ++ c :: t) - length s2) (ws ++ c :: t)))))).
  rewrite starGreedy_run; [|exact Hws| |exact Hs].
  - cbn [run]. rewrite Hc. unfold k.
    replace (ws ++ c :: t) with ((ws ++ [c]) ++ t) by (rewrite <- app_assoc; reflexivity).
    rewrite take_prefix. reflexivity.
  - intros x u Hx. cbn [run]. rewrite (space_not_closing x Hx). reflexivity.
Qed.

Lemma comma_no_match (s : jsstring) :
  closesNext s = false -> matchHere false trailingCommaRegex (44 :: s) = None.
Proof.
  intros H. unfold matchHere.
  set (k := fun (rest : jsstring) (cap : option jsstring) => Some (rest, cap)).
  change (run false trailingCommaRegex (44 :: s) None k)
    with (starGreedy isSpace s
            (fun s1 => run false (Cls isClosing) s1 None
               (fun s2 _ => k s2 (Some (take (length s - length s2) s))))).
  generalize (fun s2 (_ : option jsstring) =>
                k s2 (Some (take (length s - length s2) s))) as k'.
  intros k'. induction s as [|x s IH]; [reflexivity|].
  simpl in H. cbn [starGreedy]. destruct (isSpace x) eqn:E.
  - rewrite (IH H). cbn [run]. rewrite (space_not_closing x E). reflexivity.
  - cbn [run]. rewrite H. reflexivity.
Qed.

Lemma other_no_match (x : N) (s : jsstring) :
  (x =? 44) = false -> matchHere false trailingCommaRegex (x :: s) = None.
Proof. intros H. unfold matchHere, trailingCommaRegex. cbn [run]. unfold sameChar. rewrite H. reflexivity. Qed.

Lemma replaceAll_inside (ic : bool) (r : regex) (a t : jsstring) :
  t <> [] \/ matchHere ic r [] = None ->
  replaceAll ic r (a ++ t) (length a) = replaceAll ic r t 0.
Proof.
  intros Ht. induction a as [|x a IH]; simpl; [|exact IH].
  destruct t; reflexivity.
Qed.

Lemma stripTrailingCommas_closing (ws : jsstring) (c : N) (t : jsstring) :
  allSpace ws -> isClosing c = true ->
  stripTrailingCommas (ws ++ c :: t) = ws ++ c :: stripTrailingCommas t.
Proof.
  intros Hws Hc. induction Hws as [|w ws Hw _ IH]; simpl.
  - rewrite (closing_not_comma c Hc). reflexivity.
  - rewrite (space_not_comma w Hw), IH. reflexivity.
Qed.

Lemma removeTrailingCommas_bounded (n : nat) :
  forall s, (length s <= n)%nat ->
    replaceAll false trailingCommaRegex s 0 = stripTrailingCommas s.
Proof.
  induction n as [|n IH]; intros s Hlen.
  - destruct s; [reflexivity|simpl in Hlen; lia].
  - destruct s as [|x s]; [reflexivity|]. simpl in Hlen.
    cbn [replaceAll stripTrailingCommas].
    destruct (N.eqb_spec x 44) as [->|Hx].
    + destruct (closesNext s) eqn:Hc; cbn [andb].
      * destruct (closesNext_split s Hc) as (ws & c & t & -> & Hws & Hsp & Hcl).
        rewrite (comma_match ws c t Hws Hsp Hcl).
        assert (Hlt : (length t <? length (44%N :: ws ++ c :: t))%nat = true).
        { apply Nat.ltb_lt. simpl. rewrite length_app. simpl. lia. }
        rewrite Hlt. cbn [default].
        replace (length (ws ++ c :: t) - length t)%nat with (length (ws ++ [c]))
          by (rewrite !length_app; simpl; lia).
        replace (ws ++ c :: t) with ((ws ++ [c]) ++ t) at 1
          by (rewrite <- app_assoc; reflexivity).
        rewrite replaceAll_inside by (right; reflexivity).
        rewrite IH by (rewrite length_app in Hlen; simpl in Hlen; lia).
        rewrite (stripTrailingCommas_closing ws c t Hws Hcl).
        unfold Datatypes.id. rewrite <- app_assoc. reflexivity.
      * rewrite (comma_no_match s Hc), IH by lia. reflexivity.
    + apply N.eqb_neq in Hx. rewrite (other_no_match x s Hx). cbn [andb].
      rewrite IH by lia. reflexivity.
Qed.

(** The cleanup of the source is the cleanup of the specification. *)
Lemma removeTrailingCommas_spec (s : jsstring) :
  removeTrailingCommas s = stripTrailingCommas s.
Proof. apply (removeTrailingCommas_bounded (length s)). lia. Qed.


(** ** The claims on [cleanAndParseJSON] *)

(** C2.  The extraction is ordered, and the first match wins.  (1) When
    the code-block expression matches, the text to parse is its group,
    whatever braces the rest of the reply holds; for a reply of the shape
    [pre ```tag ws {inner} ws ``` post] (no backtick in [pre] and
    [inner], [tag] empty or [json] in any case) that group is
    [{inner}].  (2) Otherwise, when a [{] comes before the last [}], it
    is the substring from the first [{] through the last [}]; when not,
    it is the whole text.  (3) The cleanup then removes exactly the
    commas that only white space separates from a closing [}] or []].
    (4) What the parser makes of the cleaned text is returned.  So the
    fenced reply with a trailing comma and a preamble, and the object
    inside prose, both parse to their model. *)
Theorem extraction_is_ordered (text : jsstring) :
  (forall object, firstMatch true codeBlockRegex text = Some (Some object) ->
                  extractText text = object) /\
  (forall pre tag ws1 inner ws2 post,
      text = pre ++ fence ++ tag ++ ws1 ++ 123 :: inner ++ 125 :: ws2 ++ fence ++ post ->
      without 96 pre -> fenceTag tag -> allSpace ws1 -> without 96 inner -> allSpace ws2 ->
      extractText text = 123 :: inner ++ [125]) /\
  (forall pre mid post,
      firstMatch true codeBlockRegex text = None ->
      text = pre ++ 123 :: mid ++ 125 :: post ->
      without 123 pre -> without 125 post ->
      extractText text = 123 :: mid ++ [125]) /\
  (forall a b,
      firstMatch true codeBlockRegex text = None ->
      text = a ++ b -> without 123 a -> without 125 b ->
      extractText text = text) /\
  cleanedText text = stripTrailingCommas (extractText text) /\
  (forall (T : Type) (JSON_parse : jsstring -> option T) (data : T),
      JSON_parse (cleanedText text) = Some data ->
      cleanAndParseJSON JSON_parse text = (Returned data, [])) /\
  fst (cleanAndParseJSON JSON.parse fencedReply) = Returned cubeValue /\
  fst (cleanAndParseJSON JSON.parse proseReply) = Returned xValue.
Proof.
  split; [|split; [|split; [|split; [|split; [|split; [|split]]]]]].
  - intros object H. unfold extractText. rewrite H. reflexivity.
  - intros pre tag ws1 inner ws2 post -> Hpre Htag Hws1 Hin Hws2.
    unfold extractText.
    rewrite (codeBlock_capture pre tag ws1 inner ws2 post Hpre Htag Hws1 Hin Hws2).
    reflexivity.
  - intros pre mid post Hno -> Hpre Hpost. now apply extractText_braces.
  - intros a b Hno -> Ha Hb. now apply extractText_whole.
  - apply removeTrailingCommas_spec.
  - intros T JSON_parse data H. unfold cleanAndParseJSON. rewrite H. reflexivity.
  - vm_compute. reflexivity.
  - vm_compute. reflexivity.
Qed.

Lemma extraction_is_ordered_witness :
  extractText (js "Model: ```JSON {'name':'X',} ``` and {'other':1}") = js "{'name':'X',}".
Proof.
  apply (proj1 (proj2 (extraction_is_ordered _))
           (js "Model: ") (js "JSON") (js " ") (js "'name':'X',") (js " ") (js " and {'other':1}")).
  - reflexivity.
  - repeat constructor; discriminate.
  - right. reflexivity.
  - repeat constructor.
  - repeat constructor; discriminate.
  - repeat constructor.
Defined.

(** C5.  When the parser fails on the cleaned text, [cleanAndParseJSON]
    throws the error "Could not interpret the model data. The design was
    too abstract." after logging the raw and the cleaned text; the parser
    has been asked about the cleaned text and nothing else (no second
    attempt); [generate3DModel] throws the same error, and
    [handleGenerate] ends the request in the state ERROR with progress 0,
    the message as an error notification and no model.  A reply without
    braces that is not itself JSON, such as [refusal], fails this way. *)
Theorem parse_failure_is_terminal
    (JSON_parse : jsstring -> option GeneratedModel) (text : jsstring) (s : App.AppState) :
  JSON_parse (cleanedText text) = None ->
  cleanAndParseJSON JSON_parse text =
    (Thrown interpretationMessage,
     [ mkConsoleError "JSON Parse Error. Raw Text:" text;
       mkConsoleError "Cleaned Text:" (cleanedText text) ]) /\
  (forall other : jsstring -> option GeneratedModel,
      other (cleanedText text) = JSON_parse (cleanedText text) ->
      cleanAndParseJSON other text = cleanAndParseJSON JSON_parse text) /\
  (text <> [] ->
   generate3DModel_onResponse JSON_parse (Some text) = Thrown interpretationMessage) /\
  (let s' := App.handleGenerate (Thrown interpretationMessage) s in
   App.generationState s' = App.mkGenerationState false 0 "ERROR" /\
   App.notification s' = Some (App.mkNotification App.error interpretationMessage) /\
   App.model s' = None /\
   App.buildingSpeed s' = App.buildingSpeed s) /\
  fst (cleanAndParseJSON JSON.parse refusal) = Thrown interpretationMessage /\
  interpretationMessage =
    String.append "Could not interpret the model data. " "The design was too abstract.".
Proof.
  intros Hfail.
  assert (E : cleanAndParseJSON JSON_parse text =
              (Thrown interpretationMessage,
               [ mkConsoleError "JSON Parse Error. Raw Text:" text;
                 mkConsoleError "Cleaned Text:" (cleanedText text) ])).
  { unfold cleanAndParseJSON. rewrite Hfail. reflexivity. }
  split; [exact E|]. split; [|split; [|split; [|split]]].
  - intros other H. unfold cleanAndParseJSON. rewrite H. reflexivity.
  - intros Hne. unfold generate3DModel_onResponse. rewrite E.
    destruct text; [contradiction|reflexivity].
  - repeat split; reflexivity.
  - vm_compute. reflexivity.
  - reflexivity.
Qed.

Lemma parse_failure_is_terminal_witness :
  generate3DModel_onResponse parseModel (Some refusal) = Thrown interpretationMessage.
Proof.
  apply (parse_failure_is_terminal parseModel refusal (AppSpec.initialState 0)).
  - vm_compute. reflexivity.
  - discriminate.
Defined.

(** C10.  [cleanAndParseJSON] throws exactly when the parser fails on the
    cleaned text, and otherwise returns what the parser returned without
    looking into it (it is polymorphic in the type of the parsed value):
    [null], a bare number, an array and an object without [name] and
    [parts] all come back as the "model".  The guard of
    [normalizeModelData] then returns an object without [parts] (and a
    number or an array) as it is, and its field access throws a
    TypeError on [null]. *)
Theorem parse_step_validates_nothing {T : Type}
    (JSON_parse : jsstring -> option T) (text : jsstring) :
  ((exists message, fst (cleanAndParseJSON JSON_parse text) = Thrown message) <->
   JSON_parse (cleanedText text) = None) /\
  (forall data, JSON_parse (cleanedText text) = Some data ->
                fst (cleanAndParseJSON JSON_parse text) = Returned data) /\
  fst (cleanAndParseJSON JSON.parse (js "null")) = Returned JSON.JNull /\
  fst (cleanAndParseJSON JSON.parse (js "42")) = Returned (JSON.JNumber 42) /\
  fst (cleanAndParseJSON JSON.parse (js "[1, 2,]"))
    = Returned (JSON.JArray [JSON.JNumber 1; JSON.JNumber 2]) /\
  fst (cleanAndParseJSON JSON.parse (js "{'title':'no parts'}")) = Returned untitled /\
  partsGuard untitled = ReturnsModel /\
  partsGuard (JSON.JNumber 42) = ReturnsModel /\
  partsGuard (JSON.JArray [JSON.JNumber 1; JSON.JNumber 2]) = ReturnsModel /\
  partsGuard JSON.JNull = ThrowsTypeError.
Proof.
  split; [|split].
  - unfold cleanAndParseJSON.
    destruct (JSON_parse (cleanedText text)) as [data|]; simpl; split.
    + intros [message H]. discriminate.
    + discriminate.
    + reflexivity.
    + intros _. eexists. reflexivity.
  - intros data H. unfold cleanAndParseJSON. rewrite H. reflexivity.
  - repeat split; vm_compute; reflexivity.
Qed.

End ParseFacts.

Module BoundsFacts.
Import Types GeminiService NormalizeSpec BoundsSpec.
Local Open Scope Q_scope.
#[local] Arguments orElse : simpl never.

(** ** Folds of [Math.min] and [Math.max] *)

Lemma fold_Qmin_below (l : list Q) : forall a,
  fold_left Qmin l a <= a /\ (forall x, x ∈ l -> fold_left Qmin l a <= x).
Proof.
  induction l as [|y l IH]; intros a; simpl.
  - split; [lra|]. intros x Hx. inversion Hx.
  - destruct (IH (Qmin a y)) as [H1 H2].
    pose proof (Q.le_min_l a y). pose proof (Q.le_min_r a y).
    split; [lra|]. intros x Hx. apply elem_of_cons in Hx as [->|Hx]; [lra|auto].
Qed.

Lemma fold_Qmin_attained (l : list Q) : forall a,
  fold_left Qmin l a == a \/ (exists x, x ∈ l /\ fold_left Qmin l a == x).
Proof.
  induction l as [|y l IH]; intros a; simpl.
  - left. reflexivity.
  - destruct (IH (Qmin a y)) as [H|(x & Hx & H)].
    + destruct (Q.min_spec a y) as [[_ E]|[_ E]].
      * left. exact (Qeq_trans _ _ _ H E).
      * right. exists y. split; [left|exact (Qeq_trans _ _ _ H E)].
    + right. exists x. split; [right; exact Hx|exact H].
Qed.

Lemma fold_Qmax_above (l : list Q) : forall a,
  a <= fold_left Qmax l a /\ (forall x, x ∈ l -> x <= fold_left Qmax l a).
Proof.
  induction l as [|y l IH]; intros a; simpl.
  - split; [lra|]. intros x Hx. inversion Hx.
  - destruct (IH (Qmax a y)) as [H1 H2].
    pose proof (Q.le_max_l a y). pose proof (Q.le_max_r a y).
    split; [lra|]. intros x Hx. apply elem_of_cons in Hx as [->|Hx]; [lra|auto].
Qed.

Lemma fold_Qmax_attained (l : list Q) : forall a,
  fold_left Qmax l a == a \/ (exists x, x ∈ l /\ fold_left Qmax l a == x).
Proof.
  induction l as [|y l IH]; intros a; simpl.
  - left. reflexivity.
  - destruct (IH (Qmax a y)) as [H|(x & Hx & H)].
    + destruct (Q.max_spec a y) as [[_ E]|[_ E]].
      * right. exists y. split; [left|exact (Qeq_trans _ _ _ H E)].
      * left. exact (Qeq_trans _ _ _ H E).
    + right. exists x. split; [right; exact Hx|exact H].
Qed.

(** ** The accumulators, one coordinate at a time *)

Lemma accumulate_first (p : ModelPart) :
  exists b, accumulate None p = Some b /\
            minCorner b = lowest p /\ maxCorner b = highest p.
Proof.
  unfold accumulate, lowest, highest, minCorner, maxCorner.
  destruct (position p) as [[x y] z]. destruct (halfExtent p) as [[sx sy] sz].
  eexists. split; [reflexivity|]. split; reflexivity.
Qed.

Lemma accumulate_next (b : Bounds) (p : ModelPart) :
  exists c, accumulate (Some b) p = Some c /\
    forall i, coord i (minCorner c) = Qmin (coord i (minCorner b)) (coord i (lowest p)) /\
              coord i (maxCorner c) = Qmax (coord i (maxCorner b)) (coord i (highest p)).
Proof.
  unfold accumulate, lowest, highest, minCorner, maxCorner.
  destruct (position p) as [[x y] z]. destruct (halfExtent p) as [[sx sy] sz].
  eexists. split; [reflexivity|].
  intros [|[|i]]; split; reflexivity.
Qed.

Lemma fold_accumulate_coord (ps : list ModelPart) : forall b0,
  exists b, fold_left accumulate ps (Some b0) = Some b /\
    forall i,
      coord i (minCorner b) =
        fold_left Qmin (map (fun p => coord i (lowest p)) ps) (coord i (minCorner b0)) /\
      coord i (maxCorner b) =
        fold_left Qmax (map (fun p => coord i (highest p)) ps) (coord i (maxCorner b0)).
Proof.
  induction ps as [|p ps IH]; intros b0; cbn [fold_left map].
  - exists b0. split; [reflexivity|]. intros i. split; reflexivity.
  - destruct (accumulate_next b0 p) as (c & -> & Hc).
    destruct (IH c) as (b & Hb & Hi). exists b. split; [exact Hb|].
    intros i. destruct (Hi i) as [H1 H2]. destruct (Hc i) as [C1 C2].
    rewrite H1, H2, C1, C2. split; reflexivity.
Qed.

Lemma le3_coord (a b : vec3) : (forall i, coord i a <= coord i b) -> le3 a b.
Proof.
  destruct a as [[a0 a1] a2], b as [[b0 b1] b2]. intros H.
  repeat split; [apply (H 0%nat)|apply (H 1%nat)|apply (H 2%nat)].
Qed.

(** The box of a non-empty list: below every lowest point and attained,
    above every highest point and attained, on each coordinate. *)
Lemma boundingBox_extremes (ps : list ModelPart) (b : Bounds) :
  boundingBox ps = Some b ->
  forall i,
    (forall p, p ∈ ps -> coord i (minCorner b) <= coord i (lowest p)) /\
    (exists p, p ∈ ps /\ coord i (minCorner b) == coord i (lowest p)) /\
    (forall p, p ∈ ps -> coord i (highest p) <= coord i (maxCorner b)) /\
    (exists p, p ∈ ps /\ coord i (maxCorner b) == coord i (highest p)).
Proof.
  destruct ps as [|p0 ps]; [discriminate|]. unfold boundingBox. cbn [fold_left].
  destruct (accumulate_first p0) as (b0 & -> & Hlo & Hhi).
  destruct (fold_accumulate_coord ps b0) as (b' & -> & Hi).
  intros [= <-] i. destruct (Hi i) as [H1 H2]. rewrite H1, H2, Hlo, Hhi.
  set (los := map (fun p => coord i (lowest p)) ps).
  set (his := map (fun p => coord i (highest p)) ps).
  destruct (fold_Qmin_below los (coord i (lowest p0))) as [L0 L].
  destruct (fold_Qmax_above his (coord i (highest p0))) as [U0 U].
  split; [|split; [|split]].
  - intros p Hp. apply elem_of_cons in Hp as [->|Hp]; [exact L0|].
    apply L. unfold los. apply list_elem_of_fmap. exists p. split; [reflexivity|exact Hp].
  - destruct (fold_Qmin_attained los (coord i (lowest p0))) as [E|(x & Hx & E)].
    + exists p0. split; [left|exact E].
    + unfold los in Hx. apply list_elem_of_fmap in Hx as (p & -> & Hp).
      exists p. split; [right; exact Hp|exact E].
  - intros p Hp. apply elem_of_cons in Hp as [->|Hp]; [exact U0|].
    apply U. unfold his. apply list_elem_of_fmap. exists p. split; [reflexivity|exact Hp].
  - destruct (fold_Qmax_attained his (coord i (highest p0))) as [E|(x & Hx & E)].
    + exists p0. split; [left|exact E].
    + unfold his in Hx. apply list_elem_of_fmap in Hx as (p & -> & Hp).
      exists p. split; [right; exact Hp|exact E].
Qed.

(** X1.  The box that the bounding-box pass computes for a non-empty list
    of parts contains the interval [position - size, position + size] of
    every part on every axis, and each of its six faces is reached by
    some part: it is the smallest such box. *)
Theorem boundingBox_is_smallest (ps : list ModelPart) (b : Bounds) :
  boundingBox ps = Some b ->
  (forall p, p ∈ ps -> encloses b p) /\ tight b ps.
Proof.
  intros Hb. pose proof (boundingBox_extremes ps b Hb) as H. split.
  - intros p Hp. split; apply le3_coord; intros i; destruct (H i) as (L & _ & U & _); auto.
  - intros i _. destruct (H i) as (_ & A & _ & B). split; assumption.
Qed.

Lemma boundingBox_is_smallest_witness :
  (forall p, p ∈ parts boxAndPost ->
             encloses (mkBounds (-2 # 2) 4 (0 # 2) (12 # 2) (-2 # 2) (2 # 2)) p) /\
  tight (mkBounds (-2 # 2) 4 (0 # 2) (12 # 2) (-2 # 2) (2 # 2)) (parts boxAndPost).
Proof.
  apply (boundingBox_is_smallest (parts boxAndPost)). vm_compute. reflexivity.
Defined.


(** ** The order of the parts *)

Lemma orElse_compat (v v' : Q) : v == v' -> orElse (Some v) 1 == orElse (Some v') 1.
Proof.
  intros E. unfold orElse.
  destruct (Qeq_bool v 0) eqn:A, (Qeq_bool v' 0) eqn:B; try reflexivity; try exact E.
  - apply Qeq_bool_iff in A. apply Qeq_bool_neq in B. rewrite <- E in B. contradiction.
  - apply Qeq_bool_iff in B. apply Qeq_bool_neq in A. rewrite E in A. contradiction.
Qed.

Lemma maxDimOf_compat (b b' : Bounds) :
  (forall i, coord i (minCorner b) == coord i (minCorner b')) ->
  (forall i, coord i (maxCorner b) == coord i (maxCorner b')) ->
  maxDimOf b == maxDimOf b'.
Proof.
  intros Hmin Hmax. unfold maxDimOf.
  pose proof (Hmin 0%nat) as X0. pose proof (Hmin 1%nat) as Y0. pose proof (Hmin 2%nat) as Z0.
  pose proof (Hmax 0%nat) as X1. pose proof (Hmax 1%nat) as Y1. pose proof (Hmax 2%nat) as Z1.
  simpl in X0, Y0, Z0, X1, Y1, Z1.
  repeat apply Q.max_compat; apply orElse_compat.
  - rewrite X0, X1. reflexivity.
  - rewrite Y0, Y1. reflexivity.
  - rewrite Z0, Z1. reflexivity.
Qed.

Lemma boundingBox_Some (ps : list ModelPart) :
  ps <> [] -> exists b, boundingBox ps = Some b.
Proof.
  intros Hne. destruct (boundingBox ps) as [b|] eqn:E; [eauto|].
  apply NormalizeFacts.boundingBox_None in E. contradiction.
Qed.

(** X2.  The computed maximum dimension, and with it the scale factor,
    does not depend on the order in which the parts are listed. *)
Theorem maxDim_order_independent (ps ps' : list ModelPart) :
  ps ≡ₚ ps' -> sameDim (computedMaxDim ps) (computedMaxDim ps').
Proof.
  intros Hperm. unfold computedMaxDim.
  destruct ps as [|p0 ps].
  - apply Permutation_nil in Hperm. subst ps'. exact I.
  - destruct (boundingBox_Some (p0 :: ps)) as [b Hb]; [discriminate|].
    destruct (boundingBox_Some ps') as [b' Hb'].
    { intros ->. apply Permutation_nil_r in Hperm. discriminate. }
    rewrite Hb, Hb'. simpl.
    pose proof (boundingBox_extremes _ b Hb) as H.
    pose proof (boundingBox_extremes _ b' Hb') as H'.
    apply maxDimOf_compat; intros i;
      destruct (H i) as (L & (p & Hp & A) & U & (q & Hq & B));
      destruct (H' i) as (L' & (p' & Hp' & A') & U' & (q' & Hq' & B')).
    + apply Qle_antisym.
      * rewrite A'. apply L. rewrite Hperm. exact Hp'.
      * rewrite A. apply L'. rewrite <- Hperm. exact Hp.
    + apply Qle_antisym.
      * rewrite B. apply U'. rewrite <- Hperm. exact Hq.
      * rewrite B'. apply U. rewrite Hperm. exact Hq'.
Qed.

Lemma maxDim_order_independent_witness :
  sameDim (computedMaxDim (parts boxAndPost)) (computedMaxDim (rev (parts boxAndPost))).
Proof.
  apply maxDim_order_independent. symmetry. apply Permutation_rev.
Defined.

(** ** Dimensions that are not negative *)

Lemma orElse_nonnegative (v : option Q) :
  match v with Some q => 0 <= q | None => True end -> 0 < orElse v 1.
Proof.
  unfold orElse. destruct v as [q|]; [|lra].
  intros Hq. destruct (Qeq_bool q 0) eqn:E; [lra|].
  apply Qeq_bool_neq in E. destruct (Qlt_le_dec 0 q) as [H|H]; [exact H|].
  exfalso. apply E. lra.
Qed.

Lemma argAt_nonnegative (p : ModelPart) (i : nat) :
  nonnegative p -> match argAt p i with Some q => 0 <= q | None => True end.
Proof.
  intros [_ H]. unfold argAt. destruct (args p) as [l|]; [|exact I]. simpl in H.
  destruct (l !! i) as [q|] eqn:E; [|exact I].
  exact (Forall_lookup_1 _ _ _ _ H E).
Qed.

Lemma halfExtent_nonnegative (p : ModelPart) :
  nonnegative p -> positive3 (halfExtent p).
Proof.
  intros Hp.
  pose proof (orElse_nonnegative (argAt p 0) (argAt_nonnegative p 0 Hp)) as A0.
  pose proof (orElse_nonnegative (argAt p 1) (argAt_nonnegative p 1 Hp)) as A1.
  pose proof (orElse_nonnegative (argAt p 2) (argAt_nonnegative p 2 Hp)) as A2.
  destruct Hp as [Hs _]. unfold halfExtent.
  destruct (scale p) as [[s0 s1] s2]. destruct Hs as (H0 & H1 & H2).
  pose proof (orElse_nonnegative (Some s0) H0) as S0.
  pose proof (orElse_nonnegative (Some s1) H1) as S1.
  pose proof (orElse_nonnegative (Some s2) H2) as S2.
  destruct (type p); simpl; repeat split;
    try assumption; try (apply Qlt_shift_div_l; lra);
    apply NormalizeFacts.Qmax_pos; assumption.
Qed.

Lemma boundingBox_positiveSpans (ps : list ModelPart) (b : Bounds) :
  boundingBox ps = Some b ->
  Forall (fun p => positive3 (halfExtent p)) ps ->
  positiveSpans b.
Proof.
  intros Hb Hall. pose proof (boundingBox_extremes ps b Hb) as H.
  destruct ps as [|p ps]; [discriminate|].
  apply Forall_cons in Hall as [Hp _].
  assert (Hin : p ∈ p :: ps) by left.
  assert (Hi : forall i, coord i (minCorner b) < coord i (maxCorner b)).
  { intros i. destruct (H i) as (L & _ & U & _).
    specialize (L p Hin). specialize (U p Hin).
    assert (coord i (lowest p) < coord i (highest p)); [|lra].
    unfold lowest, highest. destruct (position p) as [[x y] z].
    destruct (halfExtent p) as [[sx sy] sz]. destruct Hp as (Px & Py & Pz).
    destruct i as [|[|i]]; simpl; lra. }
  repeat split; [apply (Hi 0%nat)|apply (Hi 1%nat)|apply (Hi 2%nat)].
Qed.

(** On exact numbers: in a model in which no scale component and no
    argument is negative every axis span is positive, and so is the
    maximum dimension. *)
Lemma maxDim_positive_on_exact_numbers (ps : list ModelPart) (b : Bounds) :
  Forall nonnegative ps -> boundingBox ps = Some b -> 0 < maxDimOf b.
Proof.
  intros Hall Hb.
  assert (Hpos : positiveSpans b).
  { apply (boundingBox_positiveSpans _ _ Hb).
    eapply Forall_impl; [exact Hall|]. intros p. apply halfExtent_nonnegative. }
  apply (NormalizeFacts.maxDimOf_positive b Hpos).
Qed.


(** ** Rescaling twice, and the unit of the input *)

Lemma Forall2_Qeq_lookup (l k : list Q) :
  length l = length k ->
  (forall i x y, l !! i = Some x -> k !! i = Some y -> x == y) ->
  Forall2 Qeq l k.
Proof. apply Forall2_same_length_lookup_2. Qed.

Lemma lookup_alter1 (f : Q -> Q) (l : list Q) (i : nat) :
  alter f 0%nat l !! i = if (i <? 1)%nat then f <$> l !! i else l !! i.
Proof.
  destruct i as [|i]; simpl Nat.ltb; cbv iota;
    [apply list_lookup_alter_eq|apply list_lookup_alter_ne; lia].
Qed.

Lemma lookup_alter2 (f : Q -> Q) (l : list Q) (i : nat) :
  alter f 1%nat (alter f 0%nat l) !! i = if (i <? 2)%nat then f <$> l !! i else l !! i.
Proof.
  destruct i as [|[|i]]; simpl Nat.ltb; cbv iota.
  - rewrite list_lookup_alter_ne by lia. apply list_lookup_alter_eq.
  - rewrite list_lookup_alter_eq, list_lookup_alter_ne by lia. reflexivity.
  - rewrite !list_lookup_alter_ne by lia. reflexivity.
Qed.

Lemma lookup_alter3 (f : Q -> Q) (l : list Q) (i : nat) :
  alter f 2%nat (alter f 1%nat (alter f 0%nat l)) !! i =
    if (i <? 3)%nat then f <$> l !! i else l !! i.
Proof.
  destruct i as [|[|[|i]]]; simpl Nat.ltb; cbv iota.
  - rewrite !list_lookup_alter_ne by lia. apply list_lookup_alter_eq.
  - rewrite list_lookup_alter_ne, list_lookup_alter_eq, list_lookup_alter_ne by lia.
    reflexivity.
  - rewrite list_lookup_alter_eq, !list_lookup_alter_ne by lia. reflexivity.
  - rewrite !list_lookup_alter_ne by lia. reflexivity.
Qed.

Ltac args_pointwise :=
  apply Forall2_Qeq_lookup; [rewrite !length_alter; reflexivity|];
  let i := fresh "i" in let x := fresh "x" in let y := fresh "y" in
  let Hx := fresh "Hx" in let Hy := fresh "Hy" in
  intros i x y Hx Hy;
  repeat first [ rewrite lookup_alter3 in Hx | rewrite lookup_alter2 in Hx
               | rewrite lookup_alter1 in Hx ];
  repeat first [ rewrite lookup_alter3 in Hy | rewrite lookup_alter2 in Hy
               | rewrite lookup_alter1 in Hy ];
  revert Hx Hy;
  match goal with |- context [(?j <? ?n)%nat] => destruct (j <? n)%nat | _ => idtac end;
  match goal with |- context [?l !! ?j] => destruct (l !! j) end;
  simpl; intros Hx Hy; simplify_eq; unfold times.

Lemma scalePart_scalePart (c d : Q) (p : ModelPart) :
  part_eq (scalePart d (scalePart c p)) (scalePart (c * d) p).
Proof.
  destruct p as [i t [[x y] z] [[r0 r1] r2] [[s0 s1] s2] a co de].
  unfold part_eq, scalePart.
  destruct t; simpl; repeat split; try reflexivity; try ring;
    try apply NormalizeFacts.Forall2_Qeq_refl; args_pointwise; try reflexivity; ring.
Qed.

Lemma scalePart_factor (k k' : Q) (p : ModelPart) :
  k == k' -> part_eq (scalePart k p) (scalePart k' p).
Proof.
  intros E. destruct p as [i t [[x y] z] [[r0 r1] r2] [[s0 s1] s2] a co de].
  unfold part_eq, scalePart.
  destruct t; simpl; repeat split; try reflexivity; try (rewrite E; reflexivity);
    try apply NormalizeFacts.Forall2_Qeq_refl; args_pointwise; rewrite ?E; reflexivity.
Qed.

Lemma vec3_eq_trans (a b c : vec3) : vec3_eq a b -> vec3_eq b c -> vec3_eq a c.
Proof.
  destruct a as [[a0 a1] a2], b as [[b0 b1] b2], c as [[c0 c1] c2].
  intros (A0 & A1 & A2) (B0 & B1 & B2).
  repeat split; [rewrite A0|rewrite A1|rewrite A2]; assumption.
Qed.

Lemma part_eq_trans (p q r : ModelPart) : part_eq p q -> part_eq q r -> part_eq p r.
Proof.
  intros (A1 & A2 & A3 & A4 & A5 & A6 & A7 & A8) (B1 & B2 & B3 & B4 & B5 & B6 & B7 & B8).
  repeat split; try congruence; try (eapply vec3_eq_trans; eassumption).
  eapply NormalizeFacts.Forall2_Qeq_trans; eassumption.
Qed.

(** X4.  Rescaling composes: a model rescaled by [c] and then by [d] is
    the model rescaled by [c * d] (exact arithmetic), kind by kind and
    field by field. *)
Theorem rescaling_composes (c d : Q) (m : GeneratedModel) :
  model_eq (inUnit d (inUnit c m)) (inUnit (c * d) m).
Proof.
  split; [reflexivity|]. simpl.
  induction (parts m) as [|p ps IH]; simpl; constructor.
  - apply scalePart_scalePart.
  - exact IH.
Qed.

(** On exact numbers: for a non-empty model of boxes, spheres,
    icosahedra, cylinders and cones with positive dimensions, the model
    written in another unit (everything multiplied by [c > 0], as with
    millimetres for metres) normalizes to the same model. *)
Lemma unit_independence_on_exact_numbers (c : Q) (m : GeneratedModel) :
  0 < c -> parts m <> [] ->
  Forall (fun p => wellDimensioned p = true) (parts m) ->
  model_eq (normalizeModelData (inUnit c m)) (normalizeModelData m).
Proof.
  intros Hc Hne Hall.
  destruct (NormalizeFacts.boundingBox_scaled c (parts m) Hc Hne Hall)
    as (b & b' & Hb & Hb' & Hs & Hpos).
  destruct (NormalizeFacts.maxDimOf_positive b Hpos) as [Hd _].
  pose proof (NormalizeFacts.maxDimOf_scaled c b b' Hc Hpos Hs) as Hd'.
  destruct (NormalizeFacts.normalizePath_nonempty m Hne) as (b1 & Hb1 & Hpath).
  assert (b1 = b) by congruence. subst b1.
  assert (Hne' : parts (inUnit c m) <> []).
  { simpl. destruct (parts m); [contradiction|discriminate]. }
  destruct (NormalizeFacts.normalizePath_nonempty (inUnit c m) Hne') as (b2 & Hb2 & Hpath').
  simpl in Hb2. assert (b2 = b') by congruence. subst b2.
  unfold normalizeModelData. rewrite Hpath, Hpath'. split; [reflexivity|]. simpl.
  assert (Hk : c * (8 / maxDimOf b') == 8 / maxDimOf b).
  { rewrite Hd'. field. split; lra. }
  clear Hb Hb' Hb2 Hne Hne' Hpath Hpath' Hall Hb1.
  induction (parts m) as [|p ps IH]; simpl; constructor; [|exact IH].
  eapply part_eq_trans; [apply scalePart_scalePart|apply scalePart_factor, Hk].
Qed.

Example table_in_metres :
  model_eq (normalizeModelData (inUnit (1 # 1000) tableMm)) (normalizeModelData tableMm).
Proof.
  apply unit_independence_on_exact_numbers.
  - reflexivity.
  - discriminate.
  - repeat constructor.
Qed.

End BoundsFacts.

Module RegExpFacts.
Import Types JS RegExp GeminiService ParseSpec RegExpSpec.
Local Open Scope N_scope.

(** ** The matcher consumes a word of the expression *)

Section Soundness.
Context {R : Type}.

Lemma starGreedy_sound (p : N -> bool) (k : jsstring -> option R) (res : R) :
  forall s, starGreedy p s k = Some res ->
    exists w s', s = w ++ s' /\ Forall (fun x => p x = true) w /\ k s' = Some res.
Proof.
  induction s as [|x s IH]; cbn [starGreedy]; intros H.
  - exists [], []. auto.
  - destruct (p x) eqn:Hp.
    + destruct (starGreedy p s k) as [r|] eqn:E.
      * destruct (IH H) as (w & s' & -> & Hw & Hk).
        exists (x :: w), s'. repeat split; [constructor; assumption|exact Hk].
      * exists [], (x :: s). auto.
    + exists [], (x :: s). auto.
Qed.

Lemma starLazy_sound (p : N -> bool) (k : jsstring -> option R) (res : R) :
  forall s, starLazy p s k = Some res ->
    exists w s', s = w ++ s' /\ Forall (fun x => p x = true) w /\ k s' = Some res.
Proof.
  induction s as [|x s IH]; cbn [starLazy]; intros H.
  - destruct (k []) eqn:E; [|discriminate]. exists [], []. rewrite E. auto.
  - destruct (k (x :: s)) eqn:E.
    + exists [], (x :: s). rewrite E. auto.
    + destruct (p x) eqn:Hp; [|discriminate].
      destruct (IH H) as (w & s' & -> & Hw & Hk).
      exists (x :: w), s'. repeat split; [constructor; assumption|exact Hk].
Qed.

Lemma run_sound (ic : bool) (r : regex) :
  groupless r = true ->
  forall s cap (k : jsstring -> option jsstring -> option R) res,
    run ic r s cap k = Some res ->
    exists w s', s = w ++ s' /\ matches ic r w /\ k s' cap = Some res.
Proof.
  induction r as [c|p|r1 IH1 r2 IH2|r1 IH1|p|p|r1 IH1]; cbn [groupless run]; intros Hg s cap k res H.
  - destruct s as [|x s]; [discriminate|]. destruct (sameChar ic x c) eqn:E; [|discriminate].
    exists [x], s. repeat split; [constructor; exact E|exact H].
  - destruct s as [|x s]; [discriminate|]. destruct (p x) eqn:E; [|discriminate].
    exists [x], s. repeat split; [constructor; exact E|exact H].
  - apply andb_true_iff in Hg as [G1 G2].
    destruct (IH1 G1 _ _ _ _ H) as (w1 & s1 & -> & M1 & H1).
    destruct (IH2 G2 _ _ _ _ H1) as (w2 & s2 & -> & M2 & H2).
    exists (w1 ++ w2), s2. rewrite <- app_assoc. repeat split; [constructor; assumption|exact H2].
  - destruct (run ic r1 s cap k) as [res'|] eqn:E.
    + injection H as ->. destruct (IH1 Hg _ _ _ _ E) as (w & s' & -> & M & Hk).
      exists w, s'. repeat split; [apply matches_Opt_some; exact M|exact Hk].
    + exists [], s. repeat split; [constructor|exact H].
  - destruct (starGreedy_sound p _ res s H) as (w & s' & -> & Hw & Hk).
    exists w, s'. repeat split; [constructor; exact Hw|exact Hk].
  - destruct (starLazy_sound p _ res s H) as (w & s' & -> & Hw & Hk).
    exists w, s'. repeat split; [constructor; exact Hw|exact Hk].
  - discriminate.
Qed.

End Soundness.

(** ** What the code-block expression can match *)

Lemma sameChar_exact (x c : N) :
  c < 65 \/ 122 < c \/ (90 < c /\ c < 97) ->
  sameChar true x c = true -> x = c.
Proof.
  intros Hc. unfold sameChar, canonicalize.
  destruct (N.leb_spec 97 c), (N.leb_spec c 122),
           (N.leb_spec 97 x), (N.leb_spec x 122); simpl;
    intros E; apply N.eqb_eq in E; lia.
Qed.

Ltac invert H := inversion H; subst; clear H.

Lemma matches_backticks (w : jsstring) :
  matches true (Cat (Chr 96) (Cat (Chr 96) (Chr 96))) w -> w = fence.
Proof.
  intros H. invert H.
  match goal with H : matches _ (Chr _) _ |- _ => invert H end.
  match goal with H : matches _ (Cat _ _) _ |- _ => invert H end.
  repeat match goal with H : matches _ (Chr _) _ |- _ => invert H end.
  repeat match goal with
         | H : sameChar true _ 96 = true |- _ =>
             apply sameChar_exact in H; [subst|lia]
         end.
  reflexivity.
Qed.

Lemma matches_tag (w : jsstring) :
  matches true (Opt (Cat (Chr 106) (Cat (Chr 115) (Cat (Chr 111) (Chr 110))))) w ->
  fenceTag w.
Proof.
  intros H. invert H; [left; reflexivity|]. right.
  repeat match goal with
         | H : matches _ (Cat _ _) _ |- _ => invert H
         | H : matches _ (Chr _) _ |- _ => invert H
         end.
  unfold sameChar in *. simpl map.
  repeat match goal with
         | H : (_ =? _) = true |- _ => apply N.eqb_eq in H; rewrite H
         end.
  reflexivity.
Qed.

Lemma matches_object (w : jsstring) :
  matches true (Cat (Chr 123) (Cat (StarLazy anyChar) (Chr 125))) w ->
  exists mid, w = 123 :: mid ++ [125].
Proof.
  intros H.
  repeat match goal with
         | H : matches _ (Cat _ _) _ |- _ => invert H
         | H : matches _ (Chr _) _ |- _ => invert H
         | H : matches _ (StarLazy _) _ |- _ => invert H
         end.
  repeat match goal with
         | H : sameChar true _ _ = true |- _ =>
             apply sameChar_exact in H; [subst|lia]
         end.
  eexists. reflexivity.
Qed.

Lemma matches_tail (w : jsstring) :
  matches true (Cat (Star isSpace) (Cat (Chr 96) (Cat (Chr 96) (Chr 96)))) w ->
  exists ws, w = ws ++ fence /\ allSpace ws.
Proof.
  intros H. invert H.
  match goal with H : matches _ (Star _) _ |- _ => invert H end.
  match goal with H : matches _ (Cat _ _) _ |- _ => apply matches_backticks in H; subst end.
  eexists. split; [reflexivity|assumption].
Qed.

Lemma matchHere_codeBlock (s rest : jsstring) (cap : option jsstring) :
  matchHere true codeBlockRegex s = Some (rest, cap) ->
  exists tag ws1 mid ws2,
    s = fence ++ tag ++ ws1 ++ (123 :: mid ++ [125]) ++ ws2 ++ fence ++ rest /\
    fenceTag tag /\ allSpace ws1 /\ allSpace ws2 /\
    cap = Some (123 :: mid ++ [125]).
Proof.
  unfold matchHere, codeBlockRegex. cbv zeta. intros H.
  set (F := Cat (Chr 96) (Cat (Chr 96) (Chr 96))) in *.
  set (O := Opt (Cat (Chr 106) (Cat (Chr 115) (Cat (Chr 111) (Chr 110))))) in *.
  set (G := Cat (Chr 123) (Cat (StarLazy anyChar) (Chr 125))) in *.
  set (T := Cat (Star isSpace) F) in *.
  change (run true F s None (fun s1 c1 =>
            run true O s1 c1 (fun s2 c2 =>
              run true (Star isSpace) s2 c2 (fun s3 c3 =>
                run true G s3 c3 (fun s4 _ =>
                  run true T s4 (Some (take (length s3 - length s4) s3))
                    (fun r c => Some (r, c))))))
          = Some (rest, cap)) in H.
  apply run_sound in H as (wF & s1 & -> & MF & H); [|reflexivity].
  apply run_sound in H as (wO & s2 & -> & MO & H); [|reflexivity].
  apply run_sound in H as (wS & s3 & -> & MS & H); [|reflexivity].
  apply run_sound in H as (wG & s4 & -> & MG & H); [|reflexivity].
  apply run_sound in H as (wT & s5 & -> & MT & H); [|reflexivity].
  rewrite ParseFacts.take_prefix in H. injection H as -> <-.
  apply matches_backticks in MF. apply matches_tag in MO.
  invert MS. apply matches_object in MG as [mid ->].
  apply matches_tail in MT as (ws2 & -> & Hws2).
  exists wO, wS, mid, ws2. rewrite <- !app_assoc. simpl. rewrite <- !app_assoc.
  repeat split; try assumption; reflexivity.
Qed.


Lemma firstMatch_here (ignoreCase : bool) (r : regex) (text : jsstring)
    (group1 : option jsstring) :
  firstMatch ignoreCase r text = Some group1 ->
  exists pre s rest, text = pre ++ s /\ matchHere ignoreCase r s = Some (rest, group1).
Proof.
  induction text as [|x text IH]; cbn [firstMatch].
  - destruct (matchHere ignoreCase r []) as [[rest cap]|] eqn:E; [|discriminate].
    intros [= <-]. exists [], [], rest. auto.
  - destruct (matchHere ignoreCase r (x :: text)) as [[rest cap]|] eqn:E.
    + intros [= <-]. exists [], (x :: text), rest. auto.
    + intros H. destruct (IH H) as (pre & s & rest & -> & Hm).
      exists (x :: pre), s, rest. auto.
Qed.

(** X6.  Whenever the code-block expression matches a reply, the reply
    holds two fences of three backticks; between them come an optional
    tag [json] (in any case), optional white space, the captured text,
    and optional white space; and the captured text begins with [{] and
    ends with [}]. *)
Theorem codeBlock_capture_shape (text : jsstring) (group1 : option jsstring) :
  firstMatch true codeBlockRegex text = Some group1 ->
  exists pre tag ws1 mid ws2 post,
    text = pre ++ fence ++ tag ++ ws1 ++ (123 :: mid ++ [125]) ++ ws2 ++ fence ++ post /\
    fenceTag tag /\ allSpace ws1 /\ allSpace ws2 /\
    group1 = Some (123 :: mid ++ [125]).
Proof.
  intros H. destruct (firstMatch_here _ _ _ _ H) as (pre & s & rest & -> & Hm).
  destruct (matchHere_codeBlock _ _ _ Hm) as (tag & ws1 & mid & ws2 & -> & Ht & H1 & H2 & Hc).
  exists pre, tag, ws1, mid, ws2, rest. auto.
Qed.

Lemma codeBlock_capture_shape_witness :
  exists pre tag ws1 mid ws2 post,
    fencedReply = pre ++ fence ++ tag ++ ws1 ++ (123 :: mid ++ [125]) ++ ws2 ++ fence ++ post /\
    fenceTag tag /\ allSpace ws1 /\ allSpace ws2 /\
    Some (extractText fencedReply) = Some (123 :: mid ++ [125]).
Proof.
  apply (codeBlock_capture_shape fencedReply (Some (extractText fencedReply))).
  vm_compute. reflexivity.
Defined.

(** ** The braces branch, read backwards *)

Lemma indexOf_split (s : jsstring) (c : N) :
  indexOf s c <> (-1)%Z ->
  exists pre rest, s = pre ++ c :: rest /\ without c pre /\
                   indexOf s c = Z.of_nat (length pre).
Proof.
  induction s as [|x s IH]; simpl; [contradiction|].
  destruct (N.eqb_spec x c) as [->|Hx].
  - intros _. exists [], s. repeat split. constructor.
  - destruct (Z.eqb_spec (indexOf s c) (-1)) as [E|E]; [contradiction|].
    intros _. destruct (IH E) as (pre & rest & -> & Hpre & Hi).
    exists (x :: pre), rest. repeat split.
    + constructor; assumption.
    + rewrite Hi. simpl length. lia.
Qed.

Lemma lastIndexOf_none (s : jsstring) (c : N) :
  lastIndexOf s c = (-1)%Z -> without c s.
Proof.
  induction s as [|y s IH]; simpl; [constructor|].
  destruct (Z.eqb_spec (lastIndexOf s c) (-1)) as [E|E].
  - destruct (N.eqb_spec y c); [discriminate|]. intros _.
    constructor; [assumption|exact (IH E)].
  - intros H. destruct (ParseFacts.lastIndexOf_range s c); lia.
Qed.

Lemma lastIndexOf_split (s : jsstring) (c : N) :
  lastIndexOf s c <> (-1)%Z ->
  exists pre post, s = pre ++ c :: post /\ without c post /\
                   lastIndexOf s c = Z.of_nat (length pre).
Proof.
  induction s as [|x s IH]; simpl; [contradiction|].
  destruct (Z.eqb_spec (lastIndexOf s c) (-1)) as [E|E].
  - destruct (N.eqb_spec x c) as [->|Hx]; [|contradiction].
    intros _. exists [], s. repeat split. apply lastIndexOf_none, E.
  - intros _. destruct (IH E) as (pre & post & -> & Hpost & Hi).
    exists (x :: pre), post. repeat split; [assumption|].
    rewrite Hi. simpl length. lia.
Qed.

Lemma app_split_later (pre pre2 : jsstring) (x y : N) (rest post : jsstring) :
  pre ++ x :: rest = pre2 ++ y :: post -> (length pre < length pre2)%nat ->
  exists mid, pre2 = pre ++ x :: mid.
Proof.
  revert pre2. induction pre as [|a pre IH]; intros [|z pre2]; simpl; intros E Hlen;
    try lia; injection E as -> E.
  - exists pre2. reflexivity.
  - destruct (IH pre2 E) as [mid ->]; [lia|]. exists mid. reflexivity.
Qed.

(** X7.  The text that goes on to the cleanup is the reply itself or a
    contiguous piece of it that begins with [{] and ends with [}]. *)
Theorem extractText_is_object_or_whole (text : jsstring) :
  extractText text = text \/
  exists pre mid post,
    text = pre ++ (123 :: mid ++ [125]) ++ post /\
    extractText text = 123 :: mid ++ [125].
Proof.
  destruct (firstMatch true codeBlockRegex text) as [group1|] eqn:E.
  - right.
    destruct (firstMatch_here _ _ _ _ E) as (pre & s & post & Ht & Hm).
    destruct (matchHere_codeBlock _ _ _ Hm) as (tag & ws1 & mid & ws2 & -> & _ & _ & _ & ->).
    exists (pre ++ fence ++ tag ++ ws1), mid, (ws2 ++ fence ++ post). split.
    + rewrite Ht, <- !app_assoc. reflexivity.
    + unfold extractText. rewrite E. reflexivity.
  - destruct (Z.eq_dec (indexOf text 123) (-1)%Z) as [A|A].
    { left. unfold extractText. rewrite E, A. reflexivity. }
    destruct (Z.eq_dec (lastIndexOf text 125) (-1)%Z) as [B|B].
    { left. unfold extractText. rewrite E, B. simpl. rewrite andb_false_r. reflexivity. }
    destruct (Z.gtb_spec (lastIndexOf text 125) (indexOf text 123)) as [C|C].
    2:{ left. unfold extractText. rewrite E.
        destruct (Z.gtb_spec (lastIndexOf text 125) (indexOf text 123)); [lia|].
        rewrite andb_false_r. reflexivity. }
    right.
    destruct (indexOf_split text 123 A) as (pre & rest & Ht & Hpre & Hi).
    destruct (lastIndexOf_split text 125 B) as (pre2 & post & Ht2 & Hpost & Hj).
    rewrite Hi, Hj in C.
    assert (Hmid : exists mid, pre2 = pre ++ 123 :: mid).
    { apply (app_split_later pre pre2 123 125 rest post); [congruence|lia]. }
    destruct Hmid as [mid ->].
    exists pre, mid, post. split.
    + rewrite Ht2, <- !app_assoc. simpl. rewrite <- app_assoc. reflexivity.
    + rewrite Ht2, <- app_assoc. simpl.
      apply ParseFacts.extractText_braces; try assumption.
      rewrite Ht2, <- app_assoc in E. exact E.
Qed.

(** ** What the cleanup deletes *)

Lemma stripTrailingCommas_sublist (s : jsstring) : stripTrailingCommas s `sublist_of` s.
Proof.
  induction s as [|x s IH]; simpl; [constructor|].
  destruct ((x =? 44) && closesNext s); [apply sublist_cons|apply sublist_skip]; exact IH.
Qed.

Lemma stripTrailingCommas_keeps (s : list N) :
  filter notComma (stripTrailingCommas s : list N) = filter notComma s.
Proof.
  induction s as [|x s IH]; [reflexivity|]. cbn [stripTrailingCommas].
  destruct (N.eqb_spec x 44) as [->|Hx]; cbn [andb].
  - destruct (closesNext s).
    + rewrite filter_cons_False by (unfold notComma; tauto). exact IH.
    + rewrite !filter_cons_False by (unfold notComma; tauto). exact IH.
  - rewrite !filter_cons_True by exact Hx. rewrite IH. reflexivity.
Qed.

(** X8.  The cleanup deletes commas and nothing else: the cleaned text
    is a subsequence of the extracted text, and both hold the same
    characters other than commas, in the same order. *)
Theorem cleanup_deletes_only_commas (text : jsstring) :
  cleanedText text `sublist_of` extractText text /\
  filter notComma (cleanedText text) = filter notComma (extractText text).
Proof.
  unfold cleanedText. rewrite ParseFacts.removeTrailingCommas_spec.
  split; [apply stripTrailingCommas_sublist|apply stripTrailingCommas_keeps].
Qed.


Lemma stripTrailingCommas_fixed (s : jsstring) :
  ~ trailingComma s -> stripTrailingCommas s = s.
Proof.
  induction s as [|x s IH]; intros H; [reflexivity|]. cbn [stripTrailingCommas].
  destruct ((x =? 44) && closesNext s) eqn:E.
  - apply andb_true_iff in E as [Ex Ec]. apply N.eqb_eq in Ex. subst x.
    exfalso. apply H. exists [], s. auto.
  - rewrite IH; [reflexivity|]. intros (a & b & -> & Hb).
    apply H. exists (x :: a), b. auto.
Qed.

Lemma hasTrailingComma_spec (s : jsstring) :
  hasTrailingComma s = true <-> trailingComma s.
Proof.
  induction s as [|x s IH]; cbn [hasTrailingComma].
  - split; [discriminate|]. intros (a & b & E & _). destruct a; discriminate.
  - rewrite orb_true_iff, andb_true_iff, N.eqb_eq, IH. split.
    + intros [[-> H]|(a & b & -> & H)]; [exists [], s|exists (x :: a), b]; auto.
    + intros (a & b & E & H). destruct a as [|y a]; simpl in E; injection E as -> ->.
      * left. auto.
      * right. exists a, b. auto.
Qed.

(** X9.  A reply that is one object and nothing else (it begins with [{],
    ends with [}], holds no backtick and no comma in front of a closing
    bracket) reaches the parser unchanged, and the outcome of
    [cleanAndParseJSON] is the outcome of the parser on the reply. *)
Theorem plain_object_is_parsed_verbatim {T : Type}
    (JSON_parse : jsstring -> option T) (mid : jsstring) :
  let text := 123 :: mid ++ [125] in
  without 96 mid -> hasTrailingComma text = false ->
  cleanedText text = text /\
  fst (cleanAndParseJSON JSON_parse text) =
    match JSON_parse text with
    | Some data => Returned data
    | None => Thrown interpretationMessage
    end.
Proof.
  intros text Hmid Hb.
  assert (Hcomma : ~ trailingComma text).
  { intros H. apply hasTrailingComma_spec in H. congruence. }
  assert (Hno : firstMatch true codeBlockRegex text = None).
  { apply ParseFacts.firstMatch_none. unfold text.
    constructor; [discriminate|]. apply Forall_app. split; [exact Hmid|].
    constructor; [discriminate|constructor]. }
  assert (He : extractText text = text).
  { apply (ParseFacts.extractText_braces [] mid []); [exact Hno|constructor|constructor]. }
  assert (Hc : cleanedText text = text).
  { unfold cleanedText. rewrite ParseFacts.removeTrailingCommas_spec, He.
    apply stripTrailingCommas_fixed, Hcomma. }
  split; [exact Hc|]. unfold cleanAndParseJSON. rewrite Hc.
  destruct (JSON_parse text); reflexivity.
Qed.

Lemma plain_object_is_parsed_verbatim_witness :
  cleanedText plainReply = plainReply /\
  fst (cleanAndParseJSON JSON.parse plainReply) =
    match JSON.parse plainReply with
    | Some data => Returned data
    | None => Thrown interpretationMessage
    end.
Proof.
  apply (plain_object_is_parsed_verbatim JSON.parse
           (js "~  'name': 'X',~  'parts': []~")).
  - repeat constructor; discriminate.
  - reflexivity.
Defined.

(** ** Commas that survive the cleanup *)

Lemma closesNext_not_comma (s : jsstring) :
  closesNext s = true -> trailingCommaNext s = false.
Proof.
  induction s as [|x s IH]; [reflexivity|]. cbn [closesNext trailingCommaNext].
  destruct (isSpace x); [exact IH|]. intros H.
  rewrite (ParseFacts.closing_not_comma x H). reflexivity.
Qed.

Lemma closesNext_kept (s : jsstring) :
  closesNext s = true -> closesNext (stripTrailingCommas s) = true.
Proof.
  induction s as [|x s IH]; [discriminate|]. cbn [closesNext stripTrailingCommas].
  destruct (isSpace x) eqn:Hs.
  - intros H. rewrite (ParseFacts.space_not_comma x Hs). cbn [andb closesNext].
    rewrite Hs. exact (IH H).
  - intros H. rewrite (ParseFacts.closing_not_comma x H). cbn [andb closesNext].
    rewrite Hs. exact H.
Qed.

Lemma closesNext_after_cleanup (s : jsstring) :
  closesNext s = false -> closesNext (stripTrailingCommas s) = trailingCommaNext s.
Proof.
  induction s as [|x s IH]; [reflexivity|].
  cbn [closesNext trailingCommaNext stripTrailingCommas].
  destruct (isSpace x) eqn:Hs.
  - intros H. rewrite (ParseFacts.space_not_comma x Hs). cbn [andb closesNext].
    rewrite Hs. exact (IH H).
  - intros Hx. destruct ((x =? 44) && closesNext s) eqn:E.
    + apply andb_true_iff in E as [_ E]. apply closesNext_kept, E.
    + cbn [closesNext]. rewrite Hs. exact Hx.
Qed.

(** In ["[1,,2,]"] the two adjacent commas are not in front of a closing
    bracket, and the cleanup leaves no trailing comma; in ["[1, ,]"] they
    are, and the first of them stays. *)
Example doubled_comma_examples :
  removeTrailingCommas (js "[1,,2,]") = js "[1,,2]" /\
  removeTrailingCommas (js "[1, ,]") = js "[1, ]".
Proof. split; reflexivity. Qed.

(** X10.  After the cleanup a comma stands in front of a closing bracket
    exactly when the input holds two commas that only white space
    separates, the second of them in front of a closing bracket: of such
    a pair the second goes and the first stays.  In every other case one
    pass leaves no trailing comma. *)
Theorem trailing_comma_survives_iff_doubled (s : jsstring) :
  hasTrailingComma (removeTrailingCommas s) = hasDoubledTrailingComma s.
Proof.
  rewrite ParseFacts.removeTrailingCommas_spec.
  induction s as [|x s IH]; [reflexivity|].
  cbn [stripTrailingCommas hasDoubledTrailingComma].
  destruct (N.eqb_spec x 44) as [->|Hx]; cbn [andb orb].
  - destruct (closesNext s) eqn:E.
    + rewrite (closesNext_not_comma s E). exact IH.
    + cbn [hasTrailingComma]. rewrite N.eqb_refl, IH. cbn [andb].
      rewrite (closesNext_after_cleanup s E). reflexivity.
  - cbn [hasTrailingComma]. apply N.eqb_neq in Hx. rewrite Hx. exact IH.
Qed.

End RegExpFacts.

Module BuildSpeedFacts.
Import Types App AppSpec.
Local Open Scope Z_scope.

Lemma buildingSpeed_cases (g : GeneratedModel) (s : AppState) :
  let n := Z.of_nat (length (parts g)) in
  buildingSpeed (handleGenerate (JS.Returned g) s) =
  if n <=? 1 then 100 else Z.min 500 (2000 / n).
Proof.
  intros n. simpl. unfold partCountOf. fold n.
  destruct (Z.eqb_spec n 0) as [E|E].
  - rewrite E. reflexivity.
  - unfold speedOf. destruct (Z.eqb_spec n 1) as [E1|E1].
    + rewrite E1. reflexivity.
    + destruct (Z.leb_spec n 1); [lia|]. apply AppFacts.floor_speed. lia.
Qed.

(** X11.  Whatever the model, the build speed that [handleGenerate] sets
    lies between 0 and 500, and the delays of all the parts together
    never exceed 2000 ms; from 4 parts on they fall short of 2000 ms by
    less than one millisecond per part; and the speed is 0, so that
    nothing is delayed, exactly for models of more than 2000 parts. *)
Theorem total_build_time_bounded (g : GeneratedModel) (s : AppState) :
  let n := Z.of_nat (length (parts g)) in
  let speed := buildingSpeed (handleGenerate (JS.Returned g) s) in
  0 <= speed <= 500 /\
  n * speed <= 2000 /\
  (4 <= n -> 2000 - n < n * speed) /\
  (speed = 0 <-> 2000 < n).
Proof.
  intros n speed. unfold speed. rewrite buildingSpeed_cases. fold n.
  destruct (Z.leb_spec n 1) as [Hn|Hn].
  - repeat split; try lia.
  - pose proof (Z.div_mod 2000 n ltac:(lia)) as Hd.
    pose proof (Z.mod_pos_bound 2000 n ltac:(lia)) as Hm.
    assert (Hq : 0 <= 2000 / n) by (apply Z.div_pos; lia).
    repeat split.
    + lia.
    + lia.
    + destruct (Z.min_spec 500 (2000 / n)) as [[? ->]|[? ->]]; nia.
    + intros H4. assert (2000 / n <= 500) by (apply Z.div_le_upper_bound; lia).
      rewrite Z.min_r by assumption. nia.
    + intros E. destruct (Z.min_spec 500 (2000 / n)) as [[_ E']|[_ E']];
        rewrite E' in E; [lia|]. rewrite E in Hd. lia.
    + intros H. rewrite Z.div_small by lia. reflexivity.
Qed.

(** X12.  From two parts on, a model of more parts is never built at a
    slower pace: the build speed does not increase with the number of
    parts. *)
Theorem build_speed_antitone (g g' : GeneratedModel) (s s' : AppState) :
  (2 <= length (parts g) <= length (parts g'))%nat ->
  buildingSpeed (handleGenerate (JS.Returned g') s') <=
  buildingSpeed (handleGenerate (JS.Returned g) s).
Proof.
  intros [H2 Hle]. rewrite !buildingSpeed_cases.
  destruct (Z.leb_spec (Z.of_nat (length (parts g))) 1); [lia|].
  destruct (Z.leb_spec (Z.of_nat (length (parts g'))) 1); [lia|].
  apply Z.min_le_compat_l, Z.div_le_compat_l; lia.
Qed.

Lemma build_speed_antitone_witness :
  buildingSpeed (handleGenerate (JS.Returned (pegs 40)) (initialState 0)) <=
  buildingSpeed (handleGenerate (JS.Returned (pegs 4)) (initialState 0)).
Proof.
  apply (build_speed_antitone (pegs 4) (pegs 40)). simpl. lia.
Defined.

End BuildSpeedFacts.

Module NotificationFacts.
Import App AppNotifications NotificationSpec.
Local Open Scope Z_scope.

Lemma forallb_false {A : Type} (f : A -> bool) (x : A) (l : list A) :
  In x l -> f x = false -> forallb f l = false.
Proof.
  intros Hin Hx. destruct (forallb f l) eqn:E; [|reflexivity].
  rewrite forallb_forall in E. rewrite (E x Hin) in Hx. discriminate.
Qed.

Lemma pending_showNotification (type : NotificationType) (message : string)
    (now due : Z) (t : Toast) :
  In due (pending t) -> In due (pending (showNotification type message now t)).
Proof.
  intros H. destruct type; simpl; try assumption; apply in_or_app; left; assumption.
Qed.

(** X13.  A notification that is shown less than 3000 ms after a success
    or info notification is taken down by the timer of that earlier
    notification, 3000 ms after the earlier one was shown; an error
    notification is no exception. *)
Theorem earlier_timer_takes_down_later_notification
    (type type' : NotificationType) (message message' : string) (t0 t1 : Z) (t : Toast) :
  type <> error -> t0 <= t1 < t0 + 3000 ->
  let shown :=
    showNotification type' message' t1
      (elapseTo t1 (showNotification type message t0 t)) in
  current shown = Some (mkNotification type' message') /\
  current (elapseTo (t0 + 3000) shown) = None.
Proof.
  intros Hty Ht shown. split; [reflexivity|].
  assert (Hin : In (t0 + 3000) (pending shown)).
  { apply pending_showNotification. simpl. apply filter_In. split.
    - destruct type; [contradiction| |]; simpl; apply in_or_app; right; left; reflexivity.
    - apply Z.ltb_lt. lia. }
  unfold elapseTo. cbn [current].
  rewrite (forallb_false _ (t0 + 3000) _ Hin); [reflexivity|].
  apply Z.ltb_irrefl.
Qed.

Lemma earlier_timer_takes_down_later_notification_witness :
  current (elapseTo 3000
             (showNotification error "NO MODEL TO SAVE" 1000
                (elapseTo 1000 (showNotification info "Scene cleared" 0 noToast))))
  = None.
Proof.
  exact (proj2 (earlier_timer_takes_down_later_notification
                  info error "Scene cleared" "NO MODEL TO SAVE" 0 1000 noToast
                  ltac:(discriminate) ltac:(lia))).
Defined.

Lemma elapseThrough_idle (ticks : list Z) (t : Toast) :
  pending t = [] -> current (elapseThrough ticks t) = current t.
Proof.
  unfold elapseThrough. revert t.
  induction ticks as [|tick ticks IH]; intros t Hp; [reflexivity|].
  cbn [fold_left]. rewrite IH; unfold elapseTo; simpl; rewrite Hp; reflexivity.
Qed.

(** X14.  An error notification that is shown while no dismissal timer
    is pending is not taken down by the passing of time, however long. *)
Theorem error_outlasts_time (message : string) (now : Z) (ticks : list Z) (t : Toast) :
  pending t = [] ->
  current (elapseThrough ticks (showNotification error message now t))
  = Some (mkNotification error message).
Proof.
  intros Hp. rewrite elapseThrough_idle; [reflexivity|exact Hp].
Qed.

Lemma error_outlasts_time_witness :
  current (elapseThrough [3000; 60000] (showNotification error "NO MODEL TO SAVE" 0 noToast))
  = Some (mkNotification error "NO MODEL TO SAVE").
Proof.
  apply (error_outlasts_time "NO MODEL TO SAVE" 0 [3000; 60000] noToast). reflexivity.
Defined.

End NotificationFacts.

Module InputPanelFacts.
Import JS RegExp App InputPanel ParseSpec InputPanelSpec.

Lemma truthy_rev (s : jsstring) : truthy (rev s) = truthy s.
Proof.
  destruct s as [|x s]; [reflexivity|]. simpl.
  destruct (rev s ++ [x]) eqn:E; [|reflexivity].
  apply app_eq_nil in E as [_ E]. discriminate.
Qed.

Lemma truthy_trimStart (s : jsstring) : truthy (trimStart s) = existsb nonSpace s.
Proof.
  induction s as [|x s IH]; [reflexivity|]. simpl. unfold nonSpace at 1.
  destruct (isSpace x); [exact IH|reflexivity].
Qed.

Lemma existsb_trimStart (s : jsstring) : existsb nonSpace (trimStart s) = existsb nonSpace s.
Proof.
  induction s as [|x s IH]; [reflexivity|]. simpl. unfold nonSpace at 2.
  destruct (isSpace x) eqn:E; [exact IH|]. simpl. unfold nonSpace at 1. rewrite E. reflexivity.
Qed.

Lemma existsb_rev {A : Type} (f : A -> bool) (l : list A) : existsb f (rev l) = existsb f l.
Proof.
  induction l as [|x l IH]; [reflexivity|]. simpl.
  rewrite existsb_app, IH. simpl. rewrite orb_false_r. apply orb_comm.
Qed.

Lemma truthy_trim (s : jsstring) : truthy (trim s) = existsb nonSpace s.
Proof.
  unfold trim.
  rewrite truthy_rev, truthy_trimStart, existsb_rev, existsb_trimStart. reflexivity.
Qed.

Lemma existsb_nonSpace (s : jsstring) : existsb nonSpace s = false <-> allSpace s.
Proof.
  unfold allSpace. induction s as [|x s IH]; simpl.
  - split; [constructor|reflexivity].
  - rewrite orb_false_iff, IH, Forall_cons. unfold nonSpace.
    destruct (isSpace x); simpl; intuition discriminate.
Qed.

(** X15.  The form submits under exactly the condition under which the
    button is enabled, which is that the prompt holds a character that is
    not white space and that no generation is running; what is submitted
    is the prompt as typed, not trimmed, and the field is then emptied;
    and a submission that is refused leaves the field as it is. *)
Theorem submit_guard (isGenerating : bool) (prompt : jsstring) :
  (fst (handleSubmit isGenerating prompt) = None <->
   buttonDisabled isGenerating prompt = true) /\
  (buttonDisabled isGenerating prompt = true <->
   allSpace prompt \/ isGenerating = true) /\
  (buttonDisabled isGenerating prompt = false ->
   handleSubmit isGenerating prompt = (Some prompt, [])) /\
  (buttonDisabled isGenerating prompt = true ->
   handleSubmit isGenerating prompt = (None, prompt)).
Proof.
  unfold handleSubmit, buttonDisabled. rewrite truthy_trim.
  pose proof (existsb_nonSpace prompt) as Hs.
  destruct (existsb nonSpace prompt), isGenerating; simpl;
    repeat split; try discriminate; try reflexivity; intros; auto;
    try (right; reflexivity); try (left; apply Hs; reflexivity).
  destruct H as [H|H]; [apply Hs in H|]; discriminate.
Qed.

(** X16.  From the start of a generation until it settles no prompt is
    submitted, whatever it is; once the generation has settled, with a
    model or with an error, a prompt that is not blank is submitted
    again. *)
Theorem one_generation_at_a_time (s : AppState) (prompt : jsstring) :
  handleSubmit (isGenerating (generationState (handleGenerate_start s))) prompt
  = (None, prompt) /\
  forall r : JS.Outcome Types.GeneratedModel,
    handleSubmit (isGenerating (generationState (handleGenerate r s))) prompt
    = if existsb nonSpace prompt then (Some prompt, []) else (None, prompt).
Proof.
  split.
  - unfold handleSubmit. simpl. rewrite andb_false_r. reflexivity.
  - intros r. unfold handleSubmit. rewrite truthy_trim.
    destruct r; simpl; rewrite andb_true_r; reflexivity.
Qed.

End InputPanelFacts.

Module RevealClockFacts.
Import Types Viewer3D RevealClock RevealClockSpec.
Local Open Scope Z_scope.

Lemma assignAt_running (t0 : Z) (m : GeneratedModel) (speed : Z) (c : Clocked) :
  assignAt t0 (Some m) speed c = running m speed 0 t0.
Proof. reflexivity. Qed.

Lemma due_running (m : GeneratedModel) (speed : Z) (k : nat) (t : Z) :
  due (running m speed k t) =
  if (k <? length (parts m))%nat then Some (t + speed) else None.
Proof. reflexivity. Qed.

Lemma fire_running (m : GeneratedModel) (speed : Z) (k : nat) (t : Z) :
  (k < length (parts m))%nat ->
  fire (running m speed k t) = running m speed (S k) (t + speed).
Proof.
  intros Hk. apply Nat.ltb_lt in Hk. unfold fire. rewrite due_running, Hk.
  unfold running, elapse, timerPending. simpl. rewrite Hk. reflexivity.
Qed.

Lemma fireDue_running (m : GeneratedModel) (speed now : Z) (fuel k : nat) (t : Z) :
  (length (parts m) - k <= fuel)%nat -> (k <= length (parts m))%nat ->
  0 < speed -> t <= now ->
  visiblePartsCount (viewer (fireDue fuel now (running m speed k t))) =
  Z.to_nat (Z.min (Z.of_nat (length (parts m))) (Z.of_nat k + (now - t) / speed)).
Proof.
  revert k t. induction fuel as [|fuel IH]; intros k t Hf Hk Hd Ht.
  - assert (0 <= (now - t) / speed) by (apply Z.div_pos; lia). simpl. lia.
  - cbn [fireDue]. rewrite due_running.
    destruct (Nat.ltb_spec k (length (parts m))) as [Hlt|Hge].
    + destruct (Z.leb_spec (t + speed) now) as [Hdue|Hnot].
      * rewrite fire_running by assumption. rewrite IH by lia.
        replace (now - t) with (now - (t + speed) + 1 * speed) by lia.
        rewrite Z.div_add by lia. f_equal. lia.
      * rewrite Z.div_small by lia. simpl. lia.
    + assert (0 <= (now - t) / speed) by (apply Z.div_pos; lia). simpl. lia.
Qed.

Lemma fireDue_running_at_once (m : GeneratedModel) (now : Z) (fuel k : nat) (t : Z) :
  (length (parts m) - k <= fuel)%nat -> (k <= length (parts m))%nat -> t <= now ->
  visiblePartsCount (viewer (fireDue fuel now (running m 0 k t))) = length (parts m).
Proof.
  revert k t. induction fuel as [|fuel IH]; intros k t Hf Hk Ht.
  - simpl. lia.
  - cbn [fireDue]. rewrite due_running.
    destruct (Nat.ltb_spec k (length (parts m))) as [Hlt|Hge].
    + destruct (Z.leb_spec (t + 0) now) as [Hdue|Hnot]; [|lia].
      rewrite fire_running by assumption. apply IH; lia.
    + simpl. lia.
Qed.

Lemma advanceTo_assignAt (t0 now : Z) (m : GeneratedModel) (speed : Z) (c : Clocked) :
  advanceTo now (assignAt t0 (Some m) speed c) =
  fireDue (length (parts m)) now (running m speed 0 t0).
Proof.
  rewrite assignAt_running. unfold advanceTo, partsOf. simpl.
  rewrite Nat.sub_0_r. reflexivity.
Qed.

(** X17.  With timeouts that fire when they are due, [elapsed] ms after
    a model of [n] parts has arrived with a positive build speed the
    viewer shows [min(n, floor(elapsed / speed))] parts: part [i] is
    visible exactly from [(i + 1) * speed] ms on. *)
Theorem reveal_schedule (m : GeneratedModel) (speed t0 elapsed : Z) (c : Clocked) :
  0 < speed -> 0 <= elapsed ->
  let shown := viewer (advanceTo (t0 + elapsed) (assignAt t0 (Some m) speed c)) in
  visiblePartsCount shown =
    Z.to_nat (Z.min (Z.of_nat (length (parts m))) (elapsed / speed)) /\
  forall i : nat, (i < length (parts m))%nat ->
    isVisible i shown = ((Z.of_nat i + 1) * speed <=? elapsed).
Proof.
  intros Hs He shown.
  assert (Hc : visiblePartsCount shown =
               Z.to_nat (Z.min (Z.of_nat (length (parts m))) (elapsed / speed))).
  { unfold shown. rewrite advanceTo_assignAt, fireDue_running by lia.
    replace (t0 + elapsed - t0) with elapsed by lia. reflexivity. }
  split; [exact Hc|]. intros i Hi. unfold isVisible. rewrite Hc.
  assert (0 <= elapsed / speed) by (apply Z.div_pos; lia).
  destruct (Z.leb_spec ((Z.of_nat i + 1) * speed) elapsed) as [Hle|Hgt].
  - apply Nat.ltb_lt.
    assert (Z.of_nat i + 1 <= elapsed / speed) by (apply Z.div_le_lower_bound; lia).
    lia.
  - apply Nat.ltb_ge.
    assert (elapsed / speed < Z.of_nat i + 1) by (apply Z.div_lt_upper_bound; lia).
    lia.
Qed.

Lemma reveal_schedule_witness :
  visiblePartsCount
    (viewer (advanceTo (1000 + 1250) (assignAt 1000 (Some (AppSpec.pegs 4)) 500 idle)))
  = 2%nat.
Proof.
  exact (proj1 (reveal_schedule (AppSpec.pegs 4) 500 1000 1250 idle
                  ltac:(lia) ltac:(lia))).
Defined.

Lemma total_delay (g : GeneratedModel) (s : App.AppState) :
  let speed := App.buildingSpeed (App.handleGenerate (JS.Returned g) s) in
  0 <= speed /\ Z.of_nat (length (parts g)) * speed <= 2000.
Proof.
  intros speed. unfold speed. rewrite BuildSpeedFacts.buildingSpeed_cases.
  set (n := Z.of_nat (length (parts g))).
  destruct (Z.leb_spec n 1) as [Hn|Hn]; [lia|].
  pose proof (Z.mul_div_le 2000 n ltac:(lia)).
  assert (0 <= 2000 / n) by (apply Z.div_pos; lia).
  split; [lia|]. destruct (Z.min_spec 500 (2000 / n)) as [[? ->]|[? ->]]; nia.
Qed.

(** X18.  With timeouts that fire when they are due, and with the build
    speed that [handleGenerate] sets for the model, every part of the
    model is visible 2000 ms after the model has arrived, whatever the
    number of parts. *)
Theorem built_within_two_seconds (g : GeneratedModel) (s : App.AppState)
    (t0 elapsed : Z) (c : Clocked) :
  2000 <= elapsed ->
  let speed := App.buildingSpeed (App.handleGenerate (JS.Returned g) s) in
  visiblePartsCount (viewer (advanceTo (t0 + elapsed) (assignAt t0 (Some g) speed c)))
  = length (parts g).
Proof.
  intros He speed. destruct (total_delay g s) as [H0 Ht]. fold speed in H0, Ht.
  rewrite advanceTo_assignAt.
  destruct (Z.eq_dec speed 0) as [E|E].
  - rewrite E. apply fireDue_running_at_once; lia.
  - rewrite fireDue_running by lia.
    replace (t0 + elapsed - t0) with elapsed by lia.
    assert (Z.of_nat (length (parts g)) <= elapsed / speed)
      by (apply Z.div_le_lower_bound; lia).
    lia.
Qed.

Lemma built_within_two_seconds_witness :
  visiblePartsCount
    (viewer (advanceTo (0 + 2000)
               (assignAt 0 (Some (AppSpec.pegs 7))
                  (App.buildingSpeed
                     (App.handleGenerate (JS.Returned (AppSpec.pegs 7)) (AppSpec.initialState 0)))
                  idle)))
  = length (parts (AppSpec.pegs 7)).
Proof.
  apply (built_within_two_seconds (AppSpec.pegs 7) (AppSpec.initialState 0) 0 2000 idle).
  lia.
Defined.

End RevealClockFacts.

Module ProgressFacts.
Import App AppProgress ProgressSpec.
Local Open Scope Z_scope.









End ProgressFacts.

Module GeometryFacts.
Import Types GeminiService GeometrySpec.
Local Open Scope Q_scope.

Lemma halfExtent_sameGeometry (p q : ModelPart) :
  sameGeometry p q -> halfExtent p = halfExtent q.
Proof.
  intros (Ht & _ & Hs & Ha). unfold halfExtent, argAt. rewrite Ht, Hs, Ha. reflexivity.
Qed.

Lemma accumulate_sameGeometry (acc : option Bounds) (p q : ModelPart) :
  sameGeometry p q -> accumulate acc p = accumulate acc q.
Proof.
  intros H. unfold accumulate. rewrite (halfExtent_sameGeometry p q H).
  destruct H as (_ & -> & _). reflexivity.
Qed.

Lemma fold_accumulate_sameGeometry (ps qs : list ModelPart) (acc : option Bounds) :
  Forall2 sameGeometry ps qs ->
  fold_left accumulate ps acc = fold_left accumulate qs acc.
Proof.
  intros H. revert acc. induction H as [|p q ps qs Hpq _ IH]; intros acc; [reflexivity|].
  simpl. rewrite (accumulate_sameGeometry acc p q Hpq). apply IH.
Qed.

Lemma scalePart_sameGeometry (scaleFactor : Q) (p q : ModelPart) :
  sameGeometry p q -> sameGeometry (scalePart scaleFactor p) (scalePart scaleFactor q).
Proof.
  intros (Ht & Hp & Hs & Ha). unfold scalePart. rewrite Ht, Hp, Hs, Ha.
  destruct (position q) as [[p0 p1] p2], (scale q) as [[s0 s1] s2], (type q);
    repeat split.
Qed.

(** X20.  The size estimate reads the type, the position, the scale and
    the arguments of a part and nothing else: two models whose parts
    differ only in rotation, colour, id or description take the same
    path with the same maximum dimension, and their normalized parts
    again differ only there.  A part that is turned is measured as if it
    were not. *)
Theorem estimate_ignores_rotation (m m' : GeneratedModel) :
  Forall2 sameGeometry (parts m) (parts m') ->
  normalizePath m = normalizePath m' /\
  Forall2 sameGeometry (parts (normalizeModelData m)) (parts (normalizeModelData m')).
Proof.
  intros H.
  assert (Hp : normalizePath m = normalizePath m').
  { unfold normalizePath, boundingBox.
    rewrite (fold_accumulate_sameGeometry _ _ None H). reflexivity. }
  split; [exact Hp|]. unfold normalizeModelData. rewrite Hp.
  destruct (normalizePath m') as [|maxDim]; [exact H|]. simpl.
  induction H as [|p q ps qs Hpq _ IH]; simpl; constructor;
    [apply scalePart_sameGeometry, Hpq|exact IH].
Qed.

Lemma estimate_ignores_rotation_witness :
  normalizePath beam = normalizePath beamTurned /\
  Forall2 sameGeometry (parts (normalizeModelData beam)) (parts (normalizeModelData beamTurned)).
Proof.
  apply (estimate_ignores_rotation beam beamTurned).
  repeat constructor.
Defined.

End GeometryFacts.

Module Binary64Facts.
Import Binary64 Binary64Spec.
Local Open Scope Q_scope.

(** ** Values *)


Lemma hasValue_exactValue (x : number) : finite x = true -> hasValue x (exactValue x).
Proof.
  unfold finite, exactValue. destruct (valueOf x) as [v|] eqn:E; [|discriminate].
  intros _. exists v. split; [exact E|reflexivity].
Qed.

Lemma hasValue_one : hasValue one 1.
Proof. eexists. split; [reflexivity|reflexivity]. Qed.

Lemma hasValue_two : hasValue two 2.
Proof. eexists. split; [reflexivity|reflexivity]. Qed.

Lemma hasValue_eight : hasValue eight 8.
Proof. eexists. split; [reflexivity|reflexivity]. Qed.

Lemma value_finite (s : bool) (m : BinNums.positive) (e : Z) (v : Q) :
  valueOf (S754_finite s m e) = Some v -> if s then v < 0 else 0 < v.
Proof.
  intros [= <-].
  assert (H2 : 0 < 2 ^ e) by (apply Qpower_0_lt; reflexivity).
  assert (Hm : 0 < inject_Z (Z.pos m)) by reflexivity.
  destruct s; nra.
Qed.

Lemma falsy_value (x : number) (q : Q) :
  hasValue x q -> falsy x = Qeq_bool q 0.
Proof.
  intros (v & Hv & E). destruct x as [s|s| |s m e]; try discriminate.
  - injection Hv as <-. simpl. symmetry. apply Qeq_bool_iff. now rewrite <- E.
  - apply value_finite in Hv. simpl. symmetry.
    destruct (Qeq_bool q 0) eqn:E0; [|reflexivity].
    apply Qeq_bool_iff in E0. rewrite E0 in E. destruct s; lra.
Qed.

Lemma positive_value (x : number) :
  positive x = true -> finite x = true /\ 0 < exactValue x.
Proof.
  destruct x as [s|s| |[|] m e]; try discriminate. intros _.
  split; [reflexivity|]. unfold exactValue. simpl.
  exact (value_finite false m e _ eq_refl).
Qed.

Lemma orElse_approx (x : number) (q : Q) :
  hasValue x q ->
  hasValue (orElse (Some x) one) (GeminiService.orElse (Some q) 1).
Proof.
  intros H. unfold orElse, GeminiService.orElse. rewrite (falsy_value x q H).
  destruct (Qeq_bool q 0); [exact hasValue_one|exact H].
Qed.

Lemma orElse_lookup_approx (l : list number) (l' : list Q) (i : nat) :
  Forall2 hasValue l l' ->
  hasValue (orElse (l !! i) one) (GeminiService.orElse (l' !! i) 1).
Proof.
  intros H. destruct (proj1 (Forall2_lookup _ _ _) H i) as [x q Hxq|].
  - apply orElse_approx, Hxq.
  - exact hasValue_one.
Qed.

(** ** [Math.min] and [Math.max] *)

Lemma compare_value (a b : number) (va vb : Q) :
  valueOf a = Some va -> valueOf b = Some vb -> compare a b = Some (va ?= vb).
Proof.
  intros Ha Hb. destruct a as [s|s| |s m e], b as [s'|s'| |s' m' e'];
    try discriminate; unfold compare; rewrite Ha, Hb; reflexivity.
Qed.

Lemma Math_max_approx (a b : number) (qa qb : Q) :
  hasValue a qa -> hasValue b qb -> hasValue (Math_max a b) (Qmax qa qb).
Proof.
  intros (va & Ha & Ea) (vb & Hb & Eb). unfold Math_max.
  rewrite (compare_value a b va vb Ha Hb).
  destruct (Qcompare_spec va vb) as [E|E|E].
  - assert (Hm : Qmax qa qb == qa) by (apply Q.max_l; rewrite <- Ea, <- Eb, E; apply Qle_refl).
    assert (Hm' : Qmax qa qb == qb) by (rewrite Hm, <- Ea, <- Eb; exact E).
    destruct a as [[|]|s| |s m e]; try discriminate.
    + exists vb. split; [exact Hb|]. rewrite Hm'. exact Eb.
    + exists va. split; [exact Ha|]. rewrite Hm. exact Ea.
    + exists va. split; [exact Ha|]. rewrite Hm. exact Ea.
  - exists vb. split; [exact Hb|]. rewrite Eb. symmetry. apply Q.max_r.
    rewrite <- Ea, <- Eb. now apply Qlt_le_weak.
  - exists va. split; [exact Ha|]. rewrite Ea. symmetry. apply Q.max_l.
    rewrite <- Ea, <- Eb. now apply Qlt_le_weak.
Qed.

Lemma Math_min_approx (a b : number) (qa qb : Q) :
  hasValue a qa -> hasValue b qb -> hasValue (Math_min a b) (Qmin qa qb).
Proof.
  intros (va & Ha & Ea) (vb & Hb & Eb). unfold Math_min.
  rewrite (compare_value a b va vb Ha Hb).
  destruct (Qcompare_spec va vb) as [E|E|E].
  - assert (Hm : Qmin qa qb == qa) by (apply Q.min_l; rewrite <- Ea, <- Eb, E; apply Qle_refl).
    assert (Hm' : Qmin qa qb == qb) by (rewrite Hm, <- Ea, <- Eb; exact E).
    destruct a as [[|]|s| |s m e]; try discriminate.
    + exists va. split; [exact Ha|]. rewrite Hm. exact Ea.
    + exists vb. split; [exact Hb|]. rewrite Hm'. exact Eb.
    + exists va. split; [exact Ha|]. rewrite Hm. exact Ea.
  - exists va. split; [exact Ha|]. rewrite Ea. symmetry. apply Q.min_l.
    rewrite <- Ea, <- Eb. now apply Qlt_le_weak.
  - exists vb. split; [exact Hb|]. rewrite Eb. symmetry. apply Q.min_r.
    rewrite <- Ea, <- Eb. now apply Qlt_le_weak.
Qed.

Lemma Math_min_Infinity (b : number) (q : Q) : hasValue b q -> Math_min Infinity b = b.
Proof. intros (v & Hv & _). destruct b; try discriminate; reflexivity. Qed.

Lemma Math_max_minusInfinity (b : number) (q : Q) :
  hasValue b q -> Math_max minusInfinity b = b.
Proof. intros (v & Hv & _). destruct b; try discriminate; reflexivity. Qed.

(** ** Exact operations *)

Lemma exact_approx (f : number -> number -> number) (g : Q -> Q -> Q)
    (x y : number) (qx qy : Q) :
  Proper (Qeq ==> Qeq ==> Qeq) g ->
  exact f g x y = true -> hasValue x qx -> hasValue y qy ->
  hasValue (f x y) (g qx qy).
Proof.
  intros Hg He (vx & Hx & Ex) (vy & Hy & Ey). unfold exact, exactly in He.
  rewrite Hx, Hy in He. destruct (valueOf (f x y)) as [v|] eqn:Ev; [|discriminate].
  apply Qeq_bool_iff in He. exists v. split; [exact Ev|].
  rewrite He. apply Hg; assumption.
Qed.

(** ** The two passes, operation by operation *)

Ltac conjs := repeat match goal with |- _ /\ _ => split end.

Lemma argAt_default (p : ModelPart) (i : nat) : argAt p i = default [] (args p) !! i.
Proof. unfold argAt. destruct (args p); reflexivity. Qed.

Lemma argAt_default_exact (q : Types.ModelPart) (i : nat) :
  GeminiService.argAt q i = default [] (Types.args q) !! i.
Proof. unfold GeminiService.argAt. destruct (Types.args q); reflexivity. Qed.

Lemma orElse_argAt_approx (p : ModelPart) (q : Types.ModelPart) (i : nat) :
  approxPart p q ->
  hasValue (orElse (argAt p i) one) (GeminiService.orElse (GeminiService.argAt q i) 1).
Proof.
  intros (_ & _ & _ & H). rewrite argAt_default, argAt_default_exact.
  apply orElse_lookup_approx, H.
Qed.

Lemma halfExtent_approx (p : ModelPart) (q : Types.ModelPart) :
  approxPart p q -> exactHalves p = true ->
  approx3 (halfExtent p) (GeminiService.halfExtent q).
Proof.
  intros Hpq. pose proof (fun i => orElse_argAt_approx p q i Hpq) as Ha.
  destruct Hpq as (Ht & _ & Hs & _).
  unfold exactHalves, halfExtent, GeminiService.halfExtent. rewrite <- Ht.
  destruct (scale p) as [[s0 s1] s2], (Types.scale q) as [[t0 t1] t2].
  destruct Hs as (H0 & H1 & H2).
  apply orElse_approx in H0, H1, H2.
  destruct (type p); rewrite ?andb_true_iff; intros He; unfold approx3.
  - destruct He as [[E0 E1] E2].
    conjs.
    + exact (exact_approx div Qdiv _ _ _ _ _ E0 H0 hasValue_two).
    + exact (exact_approx div Qdiv _ _ _ _ _ E1 H1 hasValue_two).
    + exact (exact_approx div Qdiv _ _ _ _ _ E2 H2 hasValue_two).
  - conjs; apply Ha.
  - conjs; try (apply Math_max_approx; apply Ha).
    exact (exact_approx div Qdiv _ _ _ _ _ He (Ha 2%nat) hasValue_two).
  - conjs; try (apply Math_max_approx; apply Ha).
    exact (exact_approx div Qdiv _ _ _ _ _ He (Ha 2%nat) hasValue_two).
  - conjs; assumption.
  - conjs; apply Ha.
Qed.

Lemma accumulate_approx (acc : Bounds) (acc' : option GeminiService.Bounds)
    (p : ModelPart) (q : Types.ModelPart) :
  approxAcc acc acc' -> approxPart p q ->
  exactHalves p = true -> exactSides p = true ->
  approxAcc (accumulate acc p) (GeminiService.accumulate acc' q).
Proof.
  intros Hacc Hpq Hh Hs. pose proof (halfExtent_approx p q Hpq Hh) as He.
  destruct Hpq as (_ & Hp & _ & _).
  unfold exactSides in Hs. unfold accumulate, GeminiService.accumulate.
  destruct (position p) as [[x y] z], (Types.position q) as [[x' y'] z'].
  destruct (halfExtent p) as [[sx sy] sz], (GeminiService.halfExtent q) as [[sx' sy'] sz'].
  destruct Hp as (Px & Py & Pz). destruct He as (Ex & Ey & Ez).
  rewrite !andb_true_iff in Hs. destruct Hs as [[[[[S1 S2] S3] S4] S5] S6].
  assert (A1 := exact_approx sub Qminus x sx x' sx' _ S1 Px Ex).
  assert (A2 := exact_approx add Qplus x sx x' sx' _ S2 Px Ex).
  assert (A3 := exact_approx sub Qminus y sy y' sy' _ S3 Py Ey).
  assert (A4 := exact_approx add Qplus y sy y' sy' _ S4 Py Ey).
  assert (A5 := exact_approx sub Qminus z sz z' sz' _ S5 Pz Ez).
  assert (A6 := exact_approx add Qplus z sz z' sz' _ S6 Pz Ez).
  destruct acc' as [c|]; simpl in Hacc |- *.
  - destruct Hacc as (B1 & B2 & B3 & B4 & B5 & B6). unfold approxBounds. simpl.
    conjs; first [ apply Math_min_approx | apply Math_max_approx ]; assumption.
  - subst acc. unfold approxBounds. simpl.
    rewrite (Math_min_Infinity _ _ A1), (Math_min_Infinity _ _ A3), (Math_min_Infinity _ _ A5).
    rewrite (Math_max_minusInfinity _ _ A2), (Math_max_minusInfinity _ _ A4),
      (Math_max_minusInfinity _ _ A6).
    conjs; assumption.
Qed.

Lemma fold_accumulate_approx (ps : list ModelPart) (qs : list Types.ModelPart) :
  Forall2 approxPart ps qs ->
  forallb (fun part => exactHalves part && exactSides part) ps = true ->
  forall acc acc', approxAcc acc acc' ->
  approxAcc (fold_left accumulate ps acc) (fold_left GeminiService.accumulate qs acc').
Proof.
  intros H. induction H as [|p q ps qs Hpq _ IH]; intros He acc acc' Hacc; [exact Hacc|].
  simpl in He. apply andb_true_iff in He as [Hp He].
  apply andb_true_iff in Hp as [Hh Hs].
  simpl. apply IH; [exact He|]. apply accumulate_approx; assumption.
Qed.

Lemma boundingBox_approx (ps : list ModelPart) (qs : list Types.ModelPart) :
  Forall2 approxPart ps qs ->
  forallb (fun part => exactHalves part && exactSides part) ps = true ->
  approxAcc (boundingBox ps) (GeminiService.boundingBox qs).
Proof.
  intros H He. apply fold_accumulate_approx; [exact H|exact He|reflexivity].
Qed.

Lemma maxDimOf_approx (b : Bounds) (c : GeminiService.Bounds) :
  approxBounds b c -> exactSpans b = true ->
  hasValue (maxDimOf b) (GeminiService.maxDimOf c).
Proof.
  intros (B1 & B2 & B3 & B4 & B5 & B6) He. unfold exactSpans in He.
  rewrite !andb_true_iff in He. destruct He as [[S1 S2] S3].
  unfold maxDimOf, GeminiService.maxDimOf.
  repeat apply Math_max_approx; apply orElse_approx.
  - exact (exact_approx sub Qminus _ _ _ _ _ S1 B2 B1).
  - exact (exact_approx sub Qminus _ _ _ _ _ S2 B4 B3).
  - exact (exact_approx sub Qminus _ _ _ _ _ S3 B6 B5).
Qed.

Lemma computedMaxDim_approx (ps : list ModelPart) (qs : list Types.ModelPart) (d : Q) :
  Forall2 approxPart ps qs -> exactBounds ps = true ->
  GeminiService.computedMaxDim qs = Some d ->
  hasValue (computedMaxDim ps) d.
Proof.
  intros H He Hd. unfold exactBounds in He. apply andb_true_iff in He as [He Hs].
  pose proof (boundingBox_approx ps qs H He) as Hb.
  unfold GeminiService.computedMaxDim in Hd.
  destruct (GeminiService.boundingBox qs) as [c|]; [|discriminate].
  injection Hd as <-. apply maxDimOf_approx; assumption.
Qed.

Lemma times_approx (k a : number) (kq aq : Q) :
  hasValue k kq -> hasValue a aq -> exactTimes k a = true ->
  hasValue (times k a) (GeminiService.times kq aq).
Proof.
  intros Hk Ha He. unfold times, GeminiService.times.
  exact (exact_approx mul Qmult _ _ _ _ _ He Ha Hk).
Qed.

Lemma alter_approx (k : number) (kq : Q) (l0 l : list number) (l' : list Q) (i : nat) :
  hasValue k kq -> exactAt k l0 i = true -> l !! i = l0 !! i ->
  Forall2 hasValue l l' ->
  Forall2 hasValue (alter (times k) i l) (alter (GeminiService.times kq) i l').
Proof.
  intros Hk He Hi H. apply Forall2_alter; [exact H|].
  intros x y Hx _ Hxy. unfold exactAt in He. rewrite <- Hi, Hx in He.
  apply times_approx; assumption.
Qed.

Ltac arg_alters :=
  repeat (eapply alter_approx;
          [ eassumption | eassumption
          | rewrite ?list_lookup_alter_ne by lia; reflexivity | ]);
  assumption.

Lemma scalePart_approx (k : number) (kq : Q) (p : ModelPart) (q : Types.ModelPart) :
  hasValue k kq -> approxPart p q -> exactScale k p = true ->
  approxPart (scalePart k p) (GeminiService.scalePart kq q).
Proof.
  intros Hk (Ht & Hp & Hs & Ha) He.
  unfold exactScale in He. unfold approxPart, scalePart, GeminiService.scalePart.
  rewrite <- Ht.
  destruct (position p) as [[x y] z], (Types.position q) as [[x' y'] z'].
  destruct (scale p) as [[s0 s1] s2], (Types.scale q) as [[t0 t1] t2].
  destruct Hp as (Px & Py & Pz). destruct Hs as (H0 & H1 & H2).
  rewrite !andb_true_iff in He. destruct He as [[[E1 E2] E3] Et].
  assert (Hpos : approx3 (mul x k, mul y k, mul z k) (x' * kq, y' * kq, z' * kq)).
  { unfold approx3. conjs.
    - exact (exact_approx mul Qmult _ _ _ _ _ E1 Px Hk).
    - exact (exact_approx mul Qmult _ _ _ _ _ E2 Py Hk).
    - exact (exact_approx mul Qmult _ _ _ _ _ E3 Pz Hk). }
  assert (Hsc : approx3 (s0, s1, s2) (t0, t1, t2)) by (unfold approx3; auto).
  destruct (type p); simpl; rewrite ?andb_true_iff in Et;
    (split; [reflexivity|]); (split; [exact Hpos|]).
  - destruct Et as [[T0 T1] T2]. split; [|exact Ha]. unfold approx3. conjs.
    + exact (times_approx k s0 kq t0 Hk H0 T0).
    + exact (times_approx k s1 kq t1 Hk H1 T1).
    + exact (times_approx k s2 kq t2 Hk H2 T2).
  - split; [exact Hsc|]. arg_alters.
  - destruct Et as [[T0 T1] T2]. split; [exact Hsc|]. arg_alters.
  - destruct Et as [[T0 T1] T2]. split; [exact Hsc|]. arg_alters.
  - destruct Et as [T0 T1]. split; [exact Hsc|]. arg_alters.
  - split; [exact Hsc|]. arg_alters.
Qed.

Lemma map_scalePart_approx (k : number) (kq : Q)
    (ps : list ModelPart) (qs : list Types.ModelPart) :
  hasValue k kq -> Forall2 approxPart ps qs -> forallb (exactScale k) ps = true ->
  Forall2 approxPart (map (scalePart k) ps) (map (GeminiService.scalePart kq) qs).
Proof.
  intros Hk H. induction H as [|p q ps qs Hpq _ IH]; intros He; simpl; [constructor|].
  simpl in He. apply andb_true_iff in He as [Hp He].
  constructor; [apply scalePart_approx; assumption|apply IH, He].
Qed.

(** ** The model on exact numbers that a finite model stands for *)

Lemma lookup_map {A B : Type} (f : A -> B) (l : list A) (i : nat) :
  map f l !! i = f <$> l !! i.
Proof. revert i. induction l as [|a l IH]; intros [|i]; simpl; auto. Qed.

Lemma approx3_exactVec3 (v : vec3) : finite3 v = true -> approx3 v (exactVec3 v).
Proof.
  destruct v as [[a b] c]. unfold finite3. rewrite !andb_true_iff.
  intros [[Ha Hb] Hc]. unfold approx3, exactVec3.
  conjs; apply hasValue_exactValue; assumption.
Qed.

Lemma Forall2_exactValue (l : list number) :
  forallb finite l = true -> Forall2 hasValue l (map exactValue l).
Proof.
  induction l as [|a l IH]; simpl; [constructor|].
  rewrite andb_true_iff. intros [Ha Hl].
  constructor; [apply hasValue_exactValue, Ha|apply IH, Hl].
Qed.

Lemma args_exactPart (p : ModelPart) :
  default [] (Types.args (exactPart p)) = map exactValue (default [] (args p)).
Proof. unfold exactPart. simpl. destruct (args p); reflexivity. Qed.

Lemma approxPart_exactPart (p : ModelPart) :
  finitePart p = true -> approxPart p (exactPart p).
Proof.
  unfold finitePart. rewrite !andb_true_iff. intros [[Hp Hs] Ha].
  unfold approxPart. rewrite args_exactPart. conjs.
  - reflexivity.
  - apply approx3_exactVec3, Hp.
  - apply approx3_exactVec3, Hs.
  - apply Forall2_exactValue, Ha.
Qed.

Lemma approx_exactModel (m : GeneratedModel) :
  forallb finitePart (parts m) = true ->
  Forall2 approxPart (parts m) (Types.parts (exactModel m)).
Proof.
  unfold exactModel. simpl. induction (parts m) as [|p ps IH]; simpl; [constructor|].
  rewrite andb_true_iff. intros [Hp Hps].
  constructor; [apply approxPart_exactPart, Hp|apply IH, Hps].
Qed.

Lemma positive_exactValue (x : number) :
  positive x = true -> NormalizeSpec.positive (exactValue x) = true.
Proof.
  intros H. apply NormalizeFacts.positive_spec. apply positive_value, H.
Qed.

Lemma positiveArg_exactPart (p : ModelPart) (i : nat) :
  positiveArg p i = true -> NormalizeSpec.positiveArg (exactPart p) i = true.
Proof.
  unfold positiveArg, NormalizeSpec.positiveArg.
  rewrite argAt_default, argAt_default_exact, args_exactPart, lookup_map.
  destruct (default [] (args p) !! i) as [a|]; [|discriminate].
  simpl. apply positive_exactValue.
Qed.

Lemma wellDimensioned_exactPart (p : ModelPart) :
  wellDimensioned p = true -> NormalizeSpec.wellDimensioned (exactPart p) = true.
Proof.
  unfold wellDimensioned, NormalizeSpec.wellDimensioned.
  change (Types.type (exactPart p)) with (type p).
  change (Types.scale (exactPart p)) with (exactVec3 (scale p)).
  destruct (scale p) as [[s0 s1] s2]. unfold exactVec3.
  destruct (type p); rewrite ?andb_true_iff; intros H;
    repeat match goal with H : _ /\ _ |- _ => destruct H end;
    conjs; auto using positive_exactValue, positiveArg_exactPart.
Qed.

Lemma wellDimensioned_exactModel (m : GeneratedModel) :
  forallb wellDimensioned (parts m) = true ->
  Forall (fun p => NormalizeSpec.wellDimensioned p = true) (Types.parts (exactModel m)).
Proof.
  unfold exactModel. simpl. induction (parts m) as [|p ps IH]; simpl; [constructor|].
  rewrite andb_true_iff. intros [Hp Hps].
  constructor; [apply wellDimensioned_exactPart, Hp|apply IH, Hps].
Qed.

Lemma parts_exactModel (m : GeneratedModel) :
  parts m <> [] -> Types.parts (exactModel m) <> [].
Proof. unfold exactModel. simpl. destruct (parts m); [contradiction|discriminate]. Qed.

(** ** [normalizeModelData] never divides by zero *)

Lemma compare_truthy (a b : number) :
  falsy a = false -> falsy b = false -> exists c, compare a b = Some c.
Proof.
  destruct a as [s|s| |s m e], b as [s'|s'| |s' m' e']; try discriminate;
    intros _ _; unfold compare; cbn [valueOf]; eauto.
Qed.

Lemma Math_max_truthy (a b : number) :
  falsy a = false -> falsy b = false -> falsy (Math_max a b) = false.
Proof.
  intros Ha Hb. destruct (compare_truthy a b Ha Hb) as [c Hc].
  unfold Math_max. rewrite Hc. destruct c; try assumption.
  destruct a as [[|]|s| |s m e]; assumption.
Qed.

Lemma orElse_truthy (v : option number) : falsy (orElse v one) = false.
Proof.
  unfold orElse. destruct v as [x|]; [|reflexivity].
  destruct (falsy x) eqn:E; [reflexivity|exact E].
Qed.

Lemma computedMaxDim_truthy (ps : list ModelPart) : falsy (computedMaxDim ps) = false.
Proof.
  unfold computedMaxDim, maxDimOf. repeat apply Math_max_truthy; apply orElse_truthy.
Qed.

Lemma strictEqZero_falsy (x : number) : falsy x = false -> strictEqZero x = false.
Proof. destruct x; try discriminate; reflexivity. Qed.

Lemma normalize_rescales (m : GeneratedModel) :
  parts m <> [] ->
  normalizeModelData m =
    {| name := name m;
       parts := map (scalePart (div eight (computedMaxDim (parts m)))) (parts m) |}.
Proof.
  intros Hne. unfold normalizeModelData.
  rewrite (strictEqZero_falsy _ (computedMaxDim_truthy (parts m))).
  destruct (parts m); [contradiction|reflexivity].
Qed.

(** ** A run without rounding follows the run on exact numbers *)

Lemma scaleFactor_approx (m : GeneratedModel) (qm : Types.GeneratedModel) :
  parts m <> [] -> Forall2 approxPart (parts m) (Types.parts qm) ->
  exactFactor m = true ->
  exists b,
    GeminiService.boundingBox (Types.parts qm) = Some b /\
    GeminiService.normalizePath qm = GeminiService.Rescaled (GeminiService.maxDimOf b) /\
    hasValue (computedMaxDim (parts m)) (GeminiService.maxDimOf b) /\
    hasValue (div eight (computedMaxDim (parts m))) (8 / GeminiService.maxDimOf b).
Proof.
  intros Hne H He. unfold exactFactor in He. apply andb_true_iff in He as [Hb Hd].
  assert (Hne' : Types.parts qm <> []).
  { intros E. rewrite E in H. inversion H. congruence. }
  destruct (NormalizeFacts.normalizePath_nonempty qm Hne') as (b & Hbb & Hpath).
  assert (Hmax : hasValue (computedMaxDim (parts m)) (GeminiService.maxDimOf b)).
  { apply (computedMaxDim_approx _ (Types.parts qm)); [exact H|exact Hb|].
    unfold GeminiService.computedMaxDim. rewrite Hbb. reflexivity. }
  pose proof (exact_approx div Qdiv _ _ _ _ _ Hd hasValue_eight Hmax) as Hk.
  exists b. conjs; assumption.
Qed.

Lemma normalize_approx (m : GeneratedModel) (qm : Types.GeneratedModel) :
  parts m <> [] -> Forall2 approxPart (parts m) (Types.parts qm) ->
  exactRun m = true ->
  Forall2 approxPart (parts (normalizeModelData m))
    (Types.parts (GeminiService.normalizeModelData qm)).
Proof.
  intros Hne H He. unfold exactRun in He. apply andb_true_iff in He as [Hf Hs].
  destruct (scaleFactor_approx m qm Hne H Hf) as (b & _ & Hpath & _ & Hk).
  rewrite (normalize_rescales m Hne).
  unfold GeminiService.normalizeModelData. rewrite Hpath. simpl.
  apply map_scalePart_approx; assumption.
Qed.




(** C8, as the code has it.  [normalizeModelData] hands back a model
    with zero parts as it is.  For a model with parts the maximum
    dimension that it computes is never 0 (nor [-0], nor [NaN]): an axis
    span that is 0 or [NaN] is replaced by 1 before the maximum is
    taken.  So the return at [maxDim === 0] is never taken, the division
    [8 / maxDim] never divides by zero, and every model with parts is
    rescaled by [8 / maxDim]. *)
Theorem normalize_never_divides_by_zero (m : GeneratedModel) :
  (parts m = [] -> normalizeModelData m = m) /\
  falsy (computedMaxDim (parts m)) = false /\
  strictEqZero (computedMaxDim (parts m)) = false /\
  (parts m <> [] ->
   normalizeModelData m =
     {| name := name m;
        parts := map (scalePart (div eight (computedMaxDim (parts m)))) (parts m) |}).
Proof.
  split; [|split; [|split]].
  - intros E. unfold normalizeModelData. rewrite E. reflexivity.
  - apply computedMaxDim_truthy.
  - apply strictEqZero_falsy, computedMaxDim_truthy.
  - apply normalize_rescales.
Qed.

(** C8, as stated, fails.  A box of scale [0, 0, 0] has no extent: the
    largest of its three axis spans, as the specification defines them,
    is 0.  The code reads each zero scale as 1, computes the maximum
    dimension 1 and moves the box from (1, 2, 3) to (8, 16, 24). *)
Lemma degenerate_model_is_rescaled :
  specMaxDim (parts flatBox) = zero /\
  computedMaxDim (parts flatBox) = one /\
  map position (parts (normalizeModelData flatBox)) = [(eight, ofZ 16, ofZ 24)] /\
  normalizeModelData flatBox <> flatBox.
Proof.
  split; [vm_compute; reflexivity|]. split; [vm_compute; reflexivity|].
  split; [vm_compute; reflexivity|]. intros E. vm_compute in E. discriminate.
Qed.

(** ** The scale factor *)

Lemma notNegative_exactValue (x : number) : notNegative x = true -> 0 <= exactValue x.
Proof.
  destruct x as [s|s| |[|] m e]; try discriminate; intros _.
  apply Qlt_le_weak. unfold exactValue. simpl.
  exact (value_finite false m e _ eq_refl).
Qed.

Lemma nonnegative_exactPart (p : ModelPart) :
  nonnegative p = true -> BoundsSpec.nonnegative (exactPart p).
Proof.
  unfold nonnegative, BoundsSpec.nonnegative. rewrite args_exactPart.
  change (Types.scale (exactPart p)) with (exactVec3 (scale p)).
  destruct (scale p) as [[s0 s1] s2]. unfold exactVec3.
  rewrite !andb_true_iff. intros [[[H0 H1] H2] Ha]. split.
  - conjs; apply notNegative_exactValue; assumption.
  - induction (default [] (args p)) as [|a l IH]; simpl; [constructor|].
    simpl in Ha. apply andb_true_iff in Ha as [Ha Hl].
    constructor; [apply notNegative_exactValue, Ha|apply IH, Hl].
Qed.

Lemma positive_hasValue (x : number) (q : Q) : hasValue x q -> 0 < q -> positive x = true.
Proof.
  intros (v & Hv & E) Hq. destruct x as [s|s| |s m e]; try discriminate.
  - injection Hv as <-. lra.
  - apply value_finite in Hv. destruct s; [lra|reflexivity].
Qed.

(** X3.  In a non-empty model of finite numbers in which no scale
    component and no argument is negative, when no operation of the
    bounding-box pass rounds or overflows and the division [8 / maxDim]
    is exact, the scale factor is a finite double above zero, and every
    part is moved and resized by it: the model is not mirrored and not
    collapsed to a point. *)
Theorem scale_factor_positive_without_rounding (m : GeneratedModel) :
  parts m <> [] ->
  forallb finitePart (parts m) = true ->
  forallb nonnegative (parts m) = true ->
  exactFactor m = true ->
  positive (div eight (computedMaxDim (parts m))) = true /\
  normalizeModelData m =
    {| name := name m;
       parts := map (scalePart (div eight (computedMaxDim (parts m)))) (parts m) |}.
Proof.
  intros Hne Hfin Hnn Hf. split; [|apply normalize_rescales, Hne].
  pose proof (approx_exactModel m Hfin) as Ha.
  destruct (scaleFactor_approx m (exactModel m) Hne Ha Hf) as (b & Hb & _ & _ & Hk).
  apply (positive_hasValue _ _ Hk).
  assert (Hall : Forall BoundsSpec.nonnegative (Types.parts (exactModel m))).
  { unfold exactModel. simpl. clear -Hnn.
    induction (parts m) as [|p ps IH]; simpl; [constructor|].
    simpl in Hnn. apply andb_true_iff in Hnn as [Hp Hps].
    constructor; [apply nonnegative_exactPart, Hp|apply IH, Hps]. }
  pose proof (BoundsFacts.maxDim_positive_on_exact_numbers _ b Hall Hb) as Hd.
  apply Qlt_shift_div_l; lra.
Qed.

Lemma scale_factor_positive_without_rounding_witness :
  positive (div eight (computedMaxDim (parts boxAndBall))) = true /\
  normalizeModelData boxAndBall =
    {| name := name boxAndBall;
       parts := map (scalePart (div eight (computedMaxDim (parts boxAndBall))))
                    (parts boxAndBall) |}.
Proof.
  apply (scale_factor_positive_without_rounding boxAndBall).
  - discriminate.
  - vm_compute. reflexivity.
  - vm_compute. reflexivity.
  - vm_compute. reflexivity.
Defined.

(** ** The unit of the input *)

Lemma sameValue_approx (x y : number) (q q' : Q) :
  hasValue x q -> hasValue y q' -> q == q' -> sameValue x y.
Proof.
  intros (v & Hv & E) (w & Hw & E') H. exists v, w. conjs; try assumption.
  rewrite E, E'. exact H.
Qed.

Lemma sameValue3_approx (a b : vec3) (a' b' : Types.vec3) :
  approx3 a a' -> approx3 b b' -> NormalizeSpec.vec3_eq a' b' -> sameValue3 a b.
Proof.
  destruct a as [[a0 a1] a2], b as [[b0 b1] b2].
  destruct a' as [[a0' a1'] a2'], b' as [[b0' b1'] b2'].
  intros (A0 & A1 & A2) (B0 & B1 & B2) (E0 & E1 & E2).
  unfold sameValue3. conjs; eapply sameValue_approx; eassumption.
Qed.

Lemma Forall2_sameValue_approx (l k : list number) (l' k' : list Q) :
  Forall2 hasValue l l' -> Forall2 hasValue k k' -> Forall2 Qeq l' k' ->
  Forall2 sameValue l k.
Proof.
  intros H. revert k k'. induction H as [|x q l l' Hxq _ IH]; intros k k' Hk He.
  - inversion He; subst. inversion Hk; subst. constructor.
  - inversion He as [|? q' ? k'' Hq He']; subst.
    inversion Hk as [|y ? k0 ? Hy Hk']; subst.
    constructor; [eapply sameValue_approx; eassumption|eapply IH; eassumption].
Qed.

Lemma sameGeometry_approx (p p0 : ModelPart) (q q0 : Types.ModelPart) :
  approxPart p q -> approxPart p0 q0 -> NormalizeSpec.part_eq q q0 -> sameGeometry p p0.
Proof.
  intros (Ht & Hp & Hs & Ha) (Ht0 & Hp0 & Hs0 & Ha0) (_ & Et & Ep & _ & Es & Ea & _).
  unfold sameGeometry. conjs.
  - congruence.
  - eapply sameValue3_approx; eassumption.
  - eapply sameValue3_approx; eassumption.
  - eapply Forall2_sameValue_approx; eassumption.
Qed.

Lemma Forall2_sameGeometry_approx (ps ps0 : list ModelPart) (qs qs0 : list Types.ModelPart) :
  Forall2 approxPart ps qs -> Forall2 approxPart ps0 qs0 ->
  Forall2 NormalizeSpec.part_eq qs qs0 -> Forall2 sameGeometry ps ps0.
Proof.
  intros H. revert ps0 qs0. induction H as [|p q ps qs Hpq _ IH]; intros ps0 qs0 H0 He.
  - inversion He; subst. inversion H0; subst. constructor.
  - inversion He as [|? q0 ? qs0' Hq He']; subst.
    inversion H0 as [|p0 ? ps0' ? Hp0 H0']; subst.
    constructor; [eapply sameGeometry_approx; eassumption|eapply IH; eassumption].
Qed.

(** X5.  The result of the normalization does not depend on the unit of
    the input as long as nothing rounds: for a non-empty model of finite
    numbers, of boxes, spheres, icosahedra, cylinders and cones with
    positive dimensions, and a unit [c > 0], when the conversion to the
    unit and the two normalizations neither round nor overflow, the
    model written in the unit [c] and the model itself normalize to
    parts of the same types whose positions, scales and arguments stand
    for the same numbers. *)
Theorem normalization_ignores_unit_without_rounding (c : number) (m : GeneratedModel) :
  positive c = true -> parts m <> [] ->
  forallb finitePart (parts m) = true ->
  forallb wellDimensioned (parts m) = true ->
  forallb (exactScale c) (parts m) = true ->
  exactRun m = true -> exactRun (inUnit c m) = true ->
  Forall2 sameGeometry (parts (normalizeModelData (inUnit c m)))
                       (parts (normalizeModelData m)).
Proof.
  intros Hc Hne Hfin Hwd Hconv Hrun Hrun'.
  destruct (positive_value c Hc) as [Hcf Hcq].
  pose proof (hasValue_exactValue c Hcf) as Hcv.
  pose proof (approx_exactModel m Hfin) as Ha.
  assert (Ha' : Forall2 approxPart (parts (inUnit c m))
                  (Types.parts (BoundsSpec.inUnit (exactValue c) (exactModel m)))).
  { apply map_scalePart_approx; assumption. }
  assert (Hne' : parts (inUnit c m) <> []).
  { unfold inUnit. simpl. destruct (parts m); [contradiction|discriminate]. }
  pose proof (normalize_approx m (exactModel m) Hne Ha Hrun) as Hn.
  pose proof (normalize_approx (inUnit c m) _ Hne' Ha' Hrun') as Hn'.
  destruct (BoundsFacts.unit_independence_on_exact_numbers (exactValue c) (exactModel m)
              Hcq (parts_exactModel m Hne) (wellDimensioned_exactModel m Hwd))
    as [_ He].
  exact (Forall2_sameGeometry_approx _ _ _ _ Hn' Hn He).
Qed.

Lemma normalization_ignores_unit_without_rounding_witness :
  Forall2 sameGeometry (parts (normalizeModelData (inUnit (ofZ 4) boxAndBall)))
                       (parts (normalizeModelData boxAndBall)).
Proof.
  apply (normalization_ignores_unit_without_rounding (ofZ 4) boxAndBall).
  - reflexivity.
  - discriminate.
  - vm_compute. reflexivity.
  - vm_compute. reflexivity.
  - vm_compute. reflexivity.
  - vm_compute. reflexivity.
  - vm_compute. reflexivity.
Defined.

(** ** Rescaling by the double 1 *)

Lemma shr_fexp_canonical (m : BinNums.positive) (e : Z) :
  canonical_mantissa prec emax m e = true ->
  shr_fexp prec emax (Z.pos m) e loc_Exact =
  ({| shr_m := Z.pos m; shr_r := false; shr_s := false |}, e).
Proof.
  intros Hc. unfold canonical_mantissa in Hc. apply Z.eqb_eq in Hc.
  unfold shr_fexp. cbn [Zdigits2 shr_record_of_loc]. rewrite Hc, Z.sub_diag. reflexivity.
Qed.

Lemma shr_fexp_shifted (m : BinNums.positive) (e : Z) :
  canonical_mantissa prec emax m e = true ->
  shr_fexp prec emax (Z.pos (m * 4503599627370496)) (e + -52) loc_Exact =
  ({| shr_m := Z.pos m; shr_r := false; shr_s := false |}, e).
Proof.
  intros Hc. unfold canonical_mantissa in Hc. apply Z.eqb_eq in Hc.
  assert (Hm : (m * 4503599627370496)%positive = Pos.iter xO m 52)
    by (rewrite Pos.mul_comm; reflexivity).
  rewrite Hm. unfold shr_fexp. cbn [Zdigits2 shr_record_of_loc].
  assert (Hd : (Z.pos (digits2_pos (Pos.iter xO m 52)) = Z.pos (digits2_pos m) + 52)%Z)
    by (simpl; lia).
  rewrite Hd.
  replace (fexp prec emax (Z.pos (digits2_pos m) + 52 + (e + -52)) - (e + -52))%Z with 52%Z
    by (replace (Z.pos (digits2_pos m) + 52 + (e + -52))%Z
          with (Z.pos (digits2_pos m) + e)%Z by lia;
        rewrite Hc; lia).
  unfold shr. simpl. f_equal. lia.
Qed.

(** The product of a binary64 value and 1 is that value: nothing is
    rounded. *)
Lemma mul_one (x : number) : valid x = true -> mul x one = x.
Proof.
  destruct x as [s|s| |s m e]; try (destruct s; reflexivity); [reflexivity|].
  unfold valid, valid_binary, bounded. rewrite andb_true_iff. intros [Hc He].
  unfold mul, one, SFmul, binary_round_aux.
  rewrite (shr_fexp_shifted m e Hc).
  cbn [shr_m shr_r shr_s loc_of_shr_record round_nearest_even].
  rewrite (shr_fexp_canonical m e Hc). cbn [shr_m].
  rewrite He. destruct s; reflexivity.
Qed.

Lemma alter_times_double_one (l : list number) (i : nat) :
  forallb valid l = true -> alter (times one) i l = l.
Proof.
  revert i. induction l as [|a l IH]; intros i; simpl; [reflexivity|].
  rewrite andb_true_iff. intros [Ha Hl]. destruct i as [|i]; simpl.
  - unfold times. rewrite (mul_one a Ha). reflexivity.
  - f_equal. exact (IH i Hl).
Qed.

Lemma scalePart_double_one (p : ModelPart) :
  validPart p = true -> sameFields (scalePart one p) p.
Proof.
  unfold validPart, valid3. destruct p as [i t [[x y] z] r [[s0 s1] s2] a c d]. simpl.
  rewrite !andb_true_iff. intros [[[[Hx Hy] Hz] [[H0 H1] H2]] Ha].
  unfold sameFields, scalePart, times. simpl.
  rewrite (mul_one x Hx), (mul_one y Hy), (mul_one z Hz).
  destruct t; simpl; fold (times one);
    rewrite ?(mul_one s0 H0), ?(mul_one s1 H1), ?(mul_one s2 H2),
      ?(fun i => alter_times_double_one (default [] a) i Ha);
    conjs; reflexivity.
Qed.

(** X21.  On doubles, whatever the rounding: normalizing a model of
    binary64 values whose computed maximum dimension is exactly 8 gives
    back every part with the same fields (an absent [args] becomes the
    empty array), because [8 / 8] is exactly 1 and [x * 1] is exactly
    [x]. *)
Theorem normalize_at_8_on_doubles (m : GeneratedModel) :
  forallb validPart (parts m) = true ->
  computedMaxDim (parts m) = eight ->
  name (normalizeModelData m) = name m /\
  Forall2 sameFields (parts (normalizeModelData m)) (parts m).
Proof.
  intros Hv H8.
  assert (Hd : parts m = [] \/ parts m <> [])
    by (destruct (parts m); [left; reflexivity|right; discriminate]).
  destruct Hd as [E|Hne].
  - unfold normalizeModelData. rewrite E. split; [reflexivity|].
    rewrite E. constructor.
  - rewrite (normalize_rescales m Hne), H8.
    change (div eight eight) with one. simpl. split; [reflexivity|].
    revert Hv. generalize (parts m) as l.
    induction l as [|q l IH]; simpl; [constructor|].
    rewrite andb_true_iff. intros [Hq Hl].
    constructor; [apply scalePart_double_one, Hq|apply IH, Hl].
Qed.

Lemma normalize_at_8_on_doubles_witness :
  name (normalizeModelData slab) = name slab /\
  Forall2 sameFields (parts (normalizeModelData slab)) (parts slab).
Proof.
  apply (normalize_at_8_on_doubles slab).
  - vm_compute. reflexivity.
  - vm_compute. reflexivity.
Defined.

End Binary64Facts.
